(** * toyeth: the 256-bit word type, the bytecode interpreter and RLP

    A shallow embedding of [int256.py], [evm.py] and [rlp.py].  Python
    integers are
    [Z], [bytes] values are [list byte], the memory dictionary is a
    [gmap Z Z], and a handler is a function from the machine state to an
    outcome together with the state it leaves behind, so that a handler
    that raises half way keeps the mutations it already made. *)

From Stdlib Require Import ZArith Lia List Bool.
From Stdlib Require Import Strings.Byte.
From stdpp Require Import gmap list.

Local Open Scope Z_scope.

(** ** Python values the two modules rely on *)

Module py.

(** The exceptions that the modelled code can raise: the two classes that
    [evm.py] declares and the built-in ones raised by list, dict, bytes and
    integer operations. *)
Inductive exn : Type :=
  | HaltExecution
  | InvalidJumpDestination
  | IndexError
  | KeyError
  | OverflowError
  | ValueError
  | TypeError
  | ZeroDivisionError
  | MemoryError.

Inductive result (A : Type) : Type :=
  | Ok (a : A)
  | Raise (e : exn).
Arguments Ok {A} a.
Arguments Raise {A} e.

Definition bind {A B : Type} (r : result A) (k : A -> result B) : result B :=
  match r with
  | Ok a => k a
  | Raise e => Raise e
  end.

Definition is_ok {A : Type} (r : result A) : bool :=
  match r with Ok _ => true | Raise _ => false end.

Definition byte_to_Z (b : byte) : Z := Z.of_N (Byte.to_N b).

Definition byte_of_Z (z : Z) : byte :=
  match Byte.of_N (Z.to_N z) with
  | Some b => b
  | None => x00
  end.

(** [len(l)] as a Python integer. *)
Definition len {A : Type} (l : list A) : Z := Z.of_nat (length l).

(** [l[i]]: a negative index counts from the end, anything outside
    [-len .. len-1] raises IndexError. *)
Definition index {A : Type} (l : list A) (i : Z) : result A :=
  let j := if i <? 0 then i + len l else i in
  if (j <? 0) || (len l <=? j) then Raise IndexError
  else match nth_error l (Z.to_nat j) with
       | Some x => Ok x
       | None => Raise IndexError
       end.

(** Clamping of a slice bound, as [slice.indices] does for step 1. *)
Definition clamp {A : Type} (l : list A) (i : Z) : Z :=
  let j := if i <? 0 then i + len l else i in
  Z.max 0 (Z.min j (len l)).

(** [l[start:stop]]. *)
Definition slice {A : Type} (l : list A) (start stop : Z) : list A :=
  let a := clamp l start in
  let b := clamp l stop in
  firstn (Z.to_nat (b - a)) (skipn (Z.to_nat a) l).

(** [bs * n] for a one-byte [bs]: a count below 1 gives the empty bytes. *)
Definition repeat_byte (b : byte) (n : Z) : list byte :=
  repeat b (Z.to_nat n).

(** [int.from_bytes(bs, "big", signed=False)]. *)
Definition from_bytes_unsigned (bs : list byte) : Z :=
  fold_left (fun acc b => acc * 256 + byte_to_Z b) bs 0.

(** [int.from_bytes(bs, "big", signed=True)]. *)
Definition from_bytes_signed (bs : list byte) : Z :=
  let u := from_bytes_unsigned bs in
  if 2 ^ (8 * len bs - 1) <=? u then u - 2 ^ (8 * len bs) else u.

(** The [n] low-order base-256 digits of [v], least significant first. *)
Fixpoint digits_le (n : nat) (v : Z) : list byte :=
  match n with
  | O => []
  | S k => byte_of_Z (v mod 256) :: digits_le k (v / 256)
  end.

(** [v.to_bytes(n, "big", signed=False)]. *)
Definition to_bytes_unsigned (n : nat) (v : Z) : result (list byte) :=
  if (v <? 0) || (2 ^ (8 * Z.of_nat n) <=? v) then Raise OverflowError
  else Ok (rev (digits_le n v)).

(** [v.to_bytes(n, "big", signed=True)], for [n > 0]. *)
Definition to_bytes_signed (n : nat) (v : Z) : result (list byte) :=
  let half := 2 ^ (8 * Z.of_nat n - 1) in
  if (v <? - half) || (half <=? v) then Raise OverflowError
  else Ok (rev (digits_le n (v mod 2 ^ (8 * Z.of_nat n)))).

(** [a // b] and [a % b] on two integers: floor division and its
    remainder, which raise on a zero divisor. *)
Definition floordiv (a b : Z) : result Z :=
  if b =? 0 then Raise ZeroDivisionError else Ok (a / b).

Definition modulo (a b : Z) : result Z :=
  if b =? 0 then Raise ZeroDivisionError else Ok (a mod b).

(** An [int] has no bound of its own, but the interpreter must hold it.
    CPython keeps it in digits of 30 bits and refuses, with OverflowError,
    to build one of more than [MAX_LONG_DIGITS] digits (the value is that
    of a 64-bit build); below that limit it raises MemoryError when the
    machine does not give the memory. *)
Definition MAX_LONG_DIGITS : Z := 2 ^ 61 - 7.

(** The number of 30-bit digits of a positive integer. *)
Definition digits (v : Z) : Z := Z.log2 v / 30 + 1.

(** The number of bits of the largest [int] that the machine at hand can
    hold.  It differs from machine to machine and is kept abstract: all
    that is known of it is that an [int] of 2^20 bits can be built and that
    one of 2^60 bits cannot. *)
Definition int_max_bits_bounds : {n : Z | 2 ^ 20 <= n <= 2 ^ 60}.
Proof. exists (2 ^ 40). lia. Qed.

Definition int_max_bits : Z := proj1_sig int_max_bits_bounds.

(** [a ** b] on two integers that are not negative: the power in full,
    unless it is too large to be held. *)
Definition pow (a b : Z) : result Z :=
  if int_max_bits <=? Z.log2 (a ^ b) then Raise MemoryError
  else Ok (a ^ b).

(** [a << n] on two integers that are not negative: zero stays zero
    whatever the count; otherwise the digits of the result are counted
    before they are allocated. *)
Definition lshift (a n : Z) : result Z :=
  if a =? 0 then Ok 0
  else if MAX_LONG_DIGITS
          <? digits a + n / 30 + (if n mod 30 =? 0 then 0 else 1)
  then Raise OverflowError
  else if int_max_bits <=? Z.log2 (Z.shiftl a n) then Raise MemoryError
  else Ok (Z.shiftl a n).

(** A binary64 float, kept exactly: the value is [fsign * fman * 2^fexp],
    with [fsign] in -1, 0, 1. *)
Record float : Type := mkfloat { fsign : Z; fman : Z; fexp : Z }.

(** Rounding of [num / den] to the nearest integer, ties to even. *)
Definition round_half_even (num den : Z) : Z :=
  let q := num / den in
  let r := num mod den in
  if 2 * r <? den then q
  else if den <? 2 * r then q + 1
  else if Z.even q then q else q + 1.

(** [p / q * 2^(-e)] as a fraction of integers. *)
Definition scaled (p q e : Z) : Z * Z :=
  if 0 <=? e then (p, q * 2 ^ e) else (p * 2 ^ (- e), q).

(** The 53-bit significand and the exponent of the binary64 number nearest
    to [p / q], for positive [p] and [q].  The quotient of two nonzero
    integers below 2^256 is far inside the normal range of binary64, so
    neither overflow nor gradual underflow is modelled. *)
Definition nearest_binary64 (p q : Z) : Z * Z :=
  let e0 := Z.log2 p - Z.log2 q - 52 in
  let e := if 2 ^ 52 <=? fst (scaled p q e0) / snd (scaled p q e0)
           then e0 else e0 - 1 in
  (round_half_even (fst (scaled p q e)) (snd (scaled p q e)), e).

(** [a / b] on two integers: true division, correctly rounded. *)
Definition truediv (a b : Z) : result float :=
  if b =? 0 then Raise ZeroDivisionError
  else if a =? 0 then Ok (mkfloat 0 0 0)
  else let '(m, e) := nearest_binary64 (Z.abs a) (Z.abs b) in
       Ok (mkfloat (Z.sgn a * Z.sgn b) m e).

(** [abs(x)] on a float. *)
Definition float_abs (x : float) : float :=
  mkfloat (Z.abs (fsign x)) (fman x) (fexp x).

(** [int(x)] on a float: truncation toward zero. *)
Definition float_int (x : float) : Z :=
  fsign x * (if 0 <=? fexp x then fman x * 2 ^ fexp x
             else fman x / 2 ^ (- fexp x)).

End py.

Import py.

#[global] Instance byte_eq_dec : EqDecision Byte.byte := Byte.byte_eq_dec.

(** ** int256.py *)

Module int256.

(** The class [Int256]: one slot, the big-endian bytes. *)
Record Int256 : Type := mk { _bytes_value : list Byte.byte }.

(** [Int256.__init__]. *)
Definition init (bytes_value : list Byte.byte) : result Int256 :=
  if negb (len bytes_value =? 32) then Raise ValueError
  else Ok (mk bytes_value).

(** A Python object as far as the word operations can tell them apart:
    the handlers of [evm.py] pass words where [int256.py] announces
    integers, and compare a word with an integer literal. *)
Inductive obj : Type :=
  | Int (z : Z)
  | Word (w : Int256).

(** [x != n] for an integer [n].  [Int256] declares neither [__eq__] nor
    [__ne__], so a word is compared by identity and differs from every
    integer, whatever its bytes. *)
Definition ne_int (x : obj) (n : Z) : bool :=
  match x with
  | Int a => negb (a =? n)
  | Word _ => true
  end.

Definition signed (self : Int256) : Z := from_bytes_signed (_bytes_value self).

Definition unsigned (self : Int256) : Z := from_bytes_unsigned (_bytes_value self).

Definition from_int (value : Z) : result Int256 :=
  bind (to_bytes_unsigned 32 value) init.

Definition from_signed_int (value : Z) : result Int256 :=
  bind (to_bytes_signed 32 value) init.

(** [sgn], on an integer. *)
Definition sgn (x : Z) : Z :=
  if x =? 0 then 0 else if x <? 0 then -1 else 1.

(** [sgn], on a float. *)
Definition sgn_float (x : float) : Z :=
  if fsign x =? 0 then 0 else if fsign x <? 0 then -1 else 1.

Definition add (self other : Int256) : result Int256 :=
  from_int ((unsigned self + unsigned other) mod 2 ^ 256).

Definition mul (self other : Int256) : result Int256 :=
  from_int ((unsigned self * unsigned other) mod 2 ^ 256).

Definition sub (self other : Int256) : result Int256 :=
  from_int ((unsigned self - unsigned other) mod 2 ^ 256).

Definition div (self other : Int256) : result Int256 :=
  if unsigned other =? 0 then from_int 0
  else bind (floordiv (unsigned self) (unsigned other)) from_int.

Definition sdiv (self other : Int256) : result Int256 :=
  if signed other =? 0 then from_int 0
  else if (signed self =? - 2 ^ 255) && (signed other =? -1)
  then from_signed_int (- 2 ^ 255)
  else bind (truediv (signed self) (signed other)) (fun x =>
       bind (truediv (signed self) (signed other)) (fun y =>
       from_signed_int (sgn_float x * float_int (float_abs y)))).

Definition mod_ (self other : Int256) : result Int256 :=
  if unsigned other =? 0 then from_int 0
  else bind (modulo (unsigned self) (unsigned other)) from_int.

Definition smod (self other : Int256) : result Int256 :=
  if signed other =? 0 then from_int 0
  else bind (modulo (Z.abs (signed self)) (Z.abs (signed other))) (fun r =>
       from_signed_int (sgn (signed self) * r)).

Definition addmod (self other modulo : Int256) : result Int256 :=
  if signed modulo =? 0 then from_int 0
  else bind (py.modulo (unsigned self + unsigned other) (unsigned modulo))
         from_int.

Definition mulmod (self other modulo : Int256) : result Int256 :=
  if signed modulo =? 0 then from_int 0
  else bind (py.modulo (unsigned self * unsigned other) (unsigned modulo))
         from_int.

(** The power is taken in full and then reduced. *)
Definition exp (self exponent : Int256) : result Int256 :=
  bind (pow (unsigned self) (unsigned exponent)) (fun p =>
  from_int (p mod 2 ^ 256)).

Definition signextend (self other : Int256) : result Int256 :=
  bind (py.index (_bytes_value self) (31 - unsigned other)) (fun b =>
  let sign_bit := Z.shiftr (byte_to_Z b) 7 in
  if negb (sign_bit =? 0)
  then init (repeat_byte xff (31 - unsigned other)
             ++ slice (_bytes_value self) (31 - unsigned other) 32)
  else init (repeat_byte x00 (31 - unsigned other)
             ++ slice (_bytes_value self) (31 - unsigned other) 32)).

Definition lt (self other : Int256) : result Int256 :=
  if unsigned self <? unsigned other then from_int 1 else from_int 0.

Definition gt (self other : Int256) : result Int256 :=
  if unsigned other <? unsigned self then from_int 1 else from_int 0.

Definition slt (self other : Int256) : result Int256 :=
  if signed self <? signed other then from_int 1 else from_int 0.

Definition sgt (self other : Int256) : result Int256 :=
  if signed other <? signed self then from_int 1 else from_int 0.

Definition eq (self other : Int256) : result Int256 :=
  if bool_decide (_bytes_value self = _bytes_value other)
  then from_int 1 else from_int 0.

Definition iszero (self : Int256) : result Int256 :=
  if unsigned self =? 0 then from_int 1 else from_int 0.

Definition and_ (self other : Int256) : result Int256 :=
  from_int (Z.land (unsigned self) (unsigned other)).

Definition or_ (self other : Int256) : result Int256 :=
  from_int (Z.lor (unsigned self) (unsigned other)).

Definition xor (self other : Int256) : result Int256 :=
  from_int (Z.lxor (unsigned self) (unsigned other)).

(** [~x] on a Python integer is [-x - 1]. *)
Definition not_ (self : Int256) : result Int256 :=
  from_signed_int (Z.lnot (unsigned self)).

Definition byte (self : Int256) (index : Z) : result Int256 :=
  bind (py.index (_bytes_value self) index) (fun b => from_int (byte_to_Z b)).

(** As for [exp], the shift is taken in full before the reduction. *)
Definition shl (self shift : Int256) : result Int256 :=
  bind (lshift (unsigned self) (unsigned shift)) (fun v =>
  from_int (v mod 2 ^ 256)).

(** [int >> x] is defined for an integer [x] that is not negative. *)
Definition rshift (v : Z) (shift : obj) : result Z :=
  match shift with
  | Int n => if n <? 0 then Raise ValueError else Ok (Z.shiftr v n)
  | Word _ => Raise TypeError
  end.

Definition shr (self : Int256) (shift : obj) : result Int256 :=
  bind (rshift (unsigned self) shift) from_int.

Definition sar (self : Int256) (shift : obj) : result Int256 :=
  bind (rshift (signed self) shift) from_signed_int.

End int256.

(** ** evm.py *)

Module evm.

Import int256.

(** The machine state.  The stack [s] is kept top first: the last element
    of the Python list is the head here, so [s.pop()] removes the head,
    [s.append] adds one and [s[-n]] is the [n]-th element from the head. *)
Record MachineState : Type := mkState {
  code : list Byte.byte;
  gas : Z;
  pc : Z;
  m : gmap Z Z;
  i : Z;
  s : list Int256
}.

(** [MachineState()] followed by the assignment of [code]: the class
    defaults.  [m] and [s] are class attributes that the handlers mutate in
    place, so this is the first machine state of a process; a second
    instance would start from the stack and memory the first one left. *)
Definition new_state (c : list Byte.byte) : MachineState :=
  mkState c 0 0 ∅ 0 [].

Definition with_pc (v : Z) (st : MachineState) : MachineState :=
  mkState (code st) (gas st) v (m st) (i st) (s st).

Definition with_m (v : gmap Z Z) (st : MachineState) : MachineState :=
  mkState (code st) (gas st) (pc st) v (i st) (s st).

Definition with_i (v : Z) (st : MachineState) : MachineState :=
  mkState (code st) (gas st) (pc st) (m st) v (s st).

Definition with_s (v : list Int256) (st : MachineState) : MachineState :=
  mkState (code st) (gas st) (pc st) (m st) (i st) v.

(** A computation on the machine state: its outcome and the state it
    leaves, also when it raises. *)
Definition M (A : Type) : Type := MachineState -> result A * MachineState.

Definition ret {A : Type} (a : A) : M A := fun st => (Ok a, st).

Definition raise {A : Type} (e : exn) : M A := fun st => (Raise e, st).

Definition lift {A : Type} (r : result A) : M A := fun st => (r, st).

Definition mbind {A B : Type} (c : M A) (k : A -> M B) : M B :=
  fun st =>
    match c st with
    | (Ok a, st') => k a st'
    | (Raise e, st') => (Raise e, st')
    end.

Declare Scope evm_scope.
Delimit Scope evm_scope with evm.
Notation "'let!' x ':=' c 'in' k" := (mbind c (fun x => k))
  (at level 10, x name, c at level 100, k at level 200) : evm_scope.
Notation "'do!' c 'in' k" := (mbind c (fun _ => k))
  (at level 10, c at level 100, k at level 200) : evm_scope.
Local Open Scope evm_scope.

Definition get {A : Type} (f : MachineState -> A) : M A :=
  fun st => (Ok (f st), st).

Definition put (f : MachineState -> MachineState) : M unit :=
  fun st => (Ok tt, f st).

(** [state.s.pop()]. *)
Definition s_pop : M Int256 :=
  fun st =>
    match s st with
    | [] => (Raise IndexError, st)
    | w :: rest => (Ok w, with_s rest st)
    end.

(** [state.s.append(w)]. *)
Definition s_append (w : Int256) : M unit :=
  put (fun st => with_s (w :: s st) st).

(** [state.s[-n]], for [n >= 1]. *)
Definition s_getitem_neg (n : nat) : M Int256 :=
  fun st =>
    match nth_error (s st) (Nat.pred n) with
    | Some w => (Ok w, st)
    | None => (Raise IndexError, st)
    end.

(** [state.s[-n] = w], for [n >= 1]. *)
Definition s_setitem_neg (n : nat) (w : Int256) : M unit :=
  fun st =>
    if (Nat.pred n <? length (s st))%nat
    then (Ok tt, with_s (<[Nat.pred n := w]> (s st)) st)
    else (Raise IndexError, st).

(** [state.pc += k]. *)
Definition pc_add (k : Z) : M unit :=
  put (fun st => with_pc (pc st + k) st).

(** [self.m[k]] on the defaultdict: a missing key is inserted with 0. *)
Definition m_getitem (k : Z) : M Z :=
  fun st =>
    match m st !! k with
    | Some v => (Ok v, st)
    | None => (Ok 0, with_m (<[k := 0]> (m st)) st)
    end.

(** [self.m[k] = v]. *)
Definition m_setitem (k v : Z) : M unit :=
  put (fun st => with_m (<[k := v]> (m st)) st).

(** [bytes(self.m[offset + x] for x in xs)]: the generator is consumed one
    item at a time, and an item outside [range(256)] raises ValueError. *)
Fixpoint read_mem_bytes (offset : Z) (xs : list Z) : M (list Byte.byte) :=
  match xs with
  | [] => ret []
  | x :: rest =>
      let! v := m_getitem (offset + x) in
      if (v <? 0) || (256 <=? v) then raise ValueError
      else let! bs := read_mem_bytes offset rest in
           ret (byte_of_Z v :: bs)
  end.

Definition read_mem_256 (offset : Z) : M Int256 :=
  let! bs := read_mem_bytes offset (seqZ 0 32) in
  lift (init bs).

(** The loop of [write_mem_256], from index [x] on. *)
Fixpoint write_mem_bytes (offset x : Z) (ds : list Byte.byte) : M unit :=
  match ds with
  | [] => ret tt
  | d :: rest =>
      do! m_setitem (offset + x) (byte_to_Z d) in
      write_mem_bytes offset (x + 1) rest
  end.

Definition write_mem_256 (offset : Z) (value : Int256) : M unit :=
  write_mem_bytes offset 0 (_bytes_value value).

Definition write_mem_8 (offset : Z) (value : Int256) : M unit :=
  let! d := lift (py.index (_bytes_value value) 31) in
  m_setitem offset (byte_to_Z d).

(** *** The handlers, in the order of the source *)

Definition stop : M unit := raise HaltExecution.

Definition add : M unit :=
  let! a := s_pop in
  let! b := s_pop in
  let! r := lift (int256.add a b) in
  do! s_append r in
  pc_add 1.

Definition mul : M unit :=
  let! a := s_pop in
  let! b := s_pop in
  let! r := lift (int256.mul a b) in
  do! s_append r in
  pc_add 1.

Definition div : M unit :=
  let! a := s_pop in
  let! b := s_pop in
  let! r := lift (int256.div a b) in
  do! s_append r in
  pc_add 1.

Definition sdiv : M unit :=
  let! a := s_pop in
  let! b := s_pop in
  let! r := lift (int256.sdiv a b) in
  do! s_append r in
  pc_add 1.

Definition mod_ : M unit :=
  let! a := s_pop in
  let! b := s_pop in
  let! r := lift (int256.mod_ a b) in
  do! s_append r in
  pc_add 1.

Definition smod : M unit :=
  let! a := s_pop in
  let! b := s_pop in
  let! r := lift (int256.smod a b) in
  do! s_append r in
  pc_add 1.

Definition addmod : M unit :=
  let! a := s_pop in
  let! b := s_pop in
  let! c := s_pop in
  let! r := lift (int256.addmod a b c) in
  do! s_append r in
  pc_add 1.

Definition mulmod : M unit :=
  let! a := s_pop in
  let! b := s_pop in
  let! c := s_pop in
  let! r := lift (int256.mulmod a b c) in
  do! s_append r in
  pc_add 1.

Definition exp : M unit :=
  let! a := s_pop in
  let! b := s_pop in
  let! r := lift (int256.exp a b) in
  do! s_append r in
  pc_add 1.

Definition signextend : M unit :=
  let! size := s_pop in
  let! target := s_pop in
  let! r := lift (int256.signextend target size) in
  do! s_append r in
  pc_add 1.

Definition lt : M unit :=
  let! a := s_pop in
  let! b := s_pop in
  let! r := lift (int256.lt a b) in
  do! s_append r in
  pc_add 1.

Definition gt : M unit :=
  let! a := s_pop in
  let! b := s_pop in
  let! r := lift (int256.gt a b) in
  do! s_append r in
  pc_add 1.

Definition slt : M unit :=
  let! a := s_pop in
  let! b := s_pop in
  let! r := lift (int256.slt a b) in
  do! s_append r in
  pc_add 1.

Definition sgt : M unit :=
  let! a := s_pop in
  let! b := s_pop in
  let! r := lift (int256.sgt a b) in
  do! s_append r in
  pc_add 1.

Definition eq : M unit :=
  let! a := s_pop in
  let! b := s_pop in
  let! r := lift (int256.eq a b) in
  do! s_append r in
  pc_add 1.

Definition iszero : M unit :=
  let! a := s_pop in
  let! r := lift (int256.iszero a) in
  do! s_append r in
  pc_add 1.

Definition and_ : M unit :=
  let! a := s_pop in
  let! b := s_pop in
  let! r := lift (int256.and_ a b) in
  do! s_append r in
  pc_add 1.

Definition or_ : M unit :=
  let! a := s_pop in
  let! b := s_pop in
  let! r := lift (int256.or_ a b) in
  do! s_append r in
  pc_add 1.

Definition xor : M unit :=
  let! a := s_pop in
  let! b := s_pop in
  let! r := lift (int256.xor a b) in
  do! s_append r in
  pc_add 1.

Definition not_ : M unit :=
  let! a := s_pop in
  let! r := lift (int256.not_ a) in
  do! s_append r in
  pc_add 1.

Definition byte : M unit :=
  let! index := s_pop in
  let! value := s_pop in
  let! r := lift (int256.byte value (unsigned index)) in
  do! s_append r in
  pc_add 1.

Definition shl : M unit :=
  let! shift := s_pop in
  let! value := s_pop in
  let! r := lift (int256.shl value shift) in
  do! s_append r in
  pc_add 1.

(** The handler registered for SHR; the source names it [shl] again. *)
Definition shr : M unit :=
  let! shift := s_pop in
  let! value := s_pop in
  let! r := lift (int256.shr value (Word shift)) in
  do! s_append r in
  pc_add 1.

(** The handler registered for SAR; the source names it [shl] again. *)
Definition sar : M unit :=
  let! shift := s_pop in
  let! value := s_pop in
  let! r := lift (int256.sar value (Word shift)) in
  do! s_append r in
  pc_add 1.

Definition pop : M unit :=
  do! s_pop in
  pc_add 1.

Definition mload : M unit :=
  let! top := s_getitem_neg 1 in
  let offset := unsigned top in
  let! w := read_mem_256 offset in
  do! s_setitem_neg 1 w in
  do! put (fun st => with_i (Z.max (i st) ((offset + 32) / 32)) st) in
  pc_add 1.

Definition mstore : M unit :=
  let! o := s_pop in
  let offset := unsigned o in
  let! value := s_pop in
  do! write_mem_256 offset value in
  do! put (fun st => with_i (Z.max (i st) ((offset + 32) / 32)) st) in
  pc_add 1.

Definition mstore8 : M unit :=
  let! o := s_pop in
  let offset := unsigned o in
  let! value := s_pop in
  do! write_mem_8 offset value in
  do! put (fun st => with_i (Z.max (i st) ((offset + 1) / 32)) st) in
  pc_add 1.

(** The opcode value of [Mnemonic.JUMPDEST]. *)
Definition JUMPDEST : Z := 0x5b.

(** [state.code[dest]], as the integer the comparison sees. *)
Definition code_at (dest : Z) : M Z :=
  let! c := get code in
  let! b := lift (py.index c dest) in
  ret (byte_to_Z b).

Definition jump : M unit :=
  let! d := s_pop in
  let dest := unsigned d in
  let! op := code_at dest in
  if negb (op =? JUMPDEST) then raise InvalidJumpDestination
  else put (with_pc dest).

Definition jumpi : M unit :=
  let! d := s_pop in
  let dest := unsigned d in
  let! op := code_at dest in
  if negb (op =? JUMPDEST) then raise InvalidJumpDestination
  else
    let! cond := s_pop in
    if ne_int (Word cond) 0 then put (with_pc dest)
    else pc_add 1.

Definition pc_ : M unit :=
  let! p := get pc in
  let! r := lift (from_int p) in
  do! s_append r in
  pc_add 1.

Definition msize : M unit :=
  let! n := get i in
  let! r := lift (from_int (n * 32)) in
  do! s_append r in
  pc_add 1.

(** The handler registered for GAS; the source names it [msize] again. *)
Definition gas_ : M unit :=
  let! g := get gas in
  let! r := lift (from_int g) in
  do! s_append r in
  pc_add 1.

Definition jumpdest : M unit := pc_add 1.

Definition push_n (n : Z) : M unit :=
  let! c := get code in
  let! p := get pc in
  let data := repeat_byte x00 (32 - n) ++ slice c (p + 1) (p + 1 + n) in
  let! w := lift (init data) in
  do! s_append w in
  pc_add (1 + n).

Definition dup_n (n : Z) : M unit :=
  let! w := s_getitem_neg (Z.to_nat n) in
  do! s_append w in
  pc_add 1.

Definition swap_n (n : Z) : M unit :=
  let! x := s_getitem_neg 1 in
  let! y := s_getitem_neg (Z.to_nat (n + 1)) in
  do! s_setitem_neg 1 y in
  do! s_setitem_neg (Z.to_nat (n + 1)) x in
  pc_add 1.

(** *** The instruction table *)

(** The registrations, in the order in which the decorators and the three
    loops at module level perform them. *)
Definition registrations : list (Z * M unit) :=
  [ (0x00, stop); (0x01, add); (0x02, mul); (0x04, div); (0x05, sdiv);
    (0x06, mod_); (0x07, smod); (0x08, addmod); (0x09, mulmod);
    (0x0a, exp); (0x0b, signextend);
    (0x10, lt); (0x11, gt); (0x12, slt); (0x13, sgt); (0x14, eq);
    (0x15, iszero); (0x16, and_); (0x17, or_); (0x18, xor); (0x19, not_);
    (0x1a, byte); (0x1b, shl); (0x1c, shr); (0x1d, sar);
    (0x50, pop); (0x51, mload); (0x52, mstore); (0x53, mstore8);
    (0x56, jump); (0x57, jumpi); (0x58, pc_); (0x59, msize); (0x5a, gas_);
    (0x5b, jumpdest) ]
  ++ map (fun ii => (0x60 + ii, push_n (ii + 1))) (seqZ 0 32)
  ++ map (fun ii => (0x80 + ii, dup_n (ii + 1))) (seqZ 0 16)
  ++ map (fun ii => (0x90 + ii, swap_n (ii + 1))) (seqZ 0 16).

(** [_INSTRUCTION_MAP[k] = fn], as the wrapper of [instruction] does. *)
Definition register (t : gmap Z (M unit)) (kf : Z * M unit) : gmap Z (M unit) :=
  <[kf.1 := kf.2]> t.

Definition _INSTRUCTION_MAP : gmap Z (M unit) :=
  foldl register ∅ registrations.

(** [execute]: a key that is not in the dictionary raises KeyError. *)
Definition execute (op : Z) : M unit :=
  match _INSTRUCTION_MAP !! op with
  | Some fn => fn
  | None => raise KeyError
  end.

(** One turn of the loop of [main]: fetch at the program counter and
    execute. *)
Definition step : M unit :=
  let! p := get pc in
  let! op := code_at p in
  execute op.

(** The loop of [main], for at most [fuel] turns: [None] when the fuel ends
    before the loop does, otherwise the exception that left the loop, if
    any, and the final state. *)
Fixpoint main_loop (fuel : nat) (st : MachineState)
  : option (result unit * MachineState) :=
  if negb (pc st <? len (code st)) then Some (Ok tt, st)
  else match fuel with
       | O => None
       | S k =>
           match step st with
           | (Ok _, st') => main_loop k st'
           | (Raise e, st') => Some (Raise e, st')
           end
       end.

(** The program counters that [main] prints, one per turn of its loop:
    the offsets whose byte is fetched and dispatched. *)
Fixpoint dispatched (fuel : nat) (st : MachineState) : list Z :=
  match fuel with
  | O => []
  | S k =>
      if negb (pc st <? len (code st)) then []
      else pc st :: match step st with
                    | (Ok _, st') => dispatched k st'
                    | (Raise _, _) => []
                    end
  end.

End evm.

(** ** Notions the statements below are phrased with *)

Module layout.

Import int256 evm.

(** The number of immediate bytes after an opcode: [push_n (ii + 1)] is
    registered at [0x60 + ii] and advances the program counter by
    [1 + n]; every other handler advances it by 1 or jumps. *)
Definition push_width (op : Z) : Z :=
  if (0x60 <=? op) && (op <? 0x60 + 32) then op - 0x60 + 1 else 0.

(** The offsets at which an instruction starts when the program is read
    from offset 0, each instruction followed by its immediate bytes. *)
Inductive boundary (c : list Byte.byte) : Z -> Prop :=
  | boundary_start : boundary c 0
  | boundary_next (p : Z) (b : Byte.byte) :
      boundary c p ->
      py.index c p = Ok b ->
      boundary c (p + 1 + push_width (byte_to_Z b)).

(** Offset [q] of the program lies in the immediate bytes of a PUSH that
    starts at an instruction boundary. *)
Definition in_push_immediate (c : list Byte.byte) (q : Z) : Prop :=
  exists (p : Z) (b : Byte.byte),
    boundary c p /\ py.index c p = Ok b /\
    p < q <= p + push_width (byte_to_Z b) /\ q < len c.

(** The number of stack words a registered handler reads: the [pop] calls
    of its body, or the deepest index [s[-n]] it touches. *)
Definition operands (op : Z) : nat :=
  match op with
  | 0x01 | 0x02 | 0x04 | 0x05 | 0x06 | 0x07 | 0x0a | 0x0b => 2%nat
  | 0x08 | 0x09 => 3%nat
  | 0x10 | 0x11 | 0x12 | 0x13 | 0x14 => 2%nat
  | 0x15 | 0x19 => 1%nat
  | 0x16 | 0x17 | 0x18 | 0x1a | 0x1b | 0x1c | 0x1d => 2%nat
  | 0x50 | 0x51 | 0x56 => 1%nat
  | 0x52 | 0x53 | 0x57 => 2%nat
  | _ =>
      if (0x80 <=? op) && (op <? 0x80 + 16) then Z.to_nat (op - 0x80 + 1)
      else if (0x90 <=? op) && (op <? 0x90 + 16) then Z.to_nat (op - 0x90 + 2)
      else 0%nat
  end.

(** A word holding the integer [v], for [0 <= v < 2^256]: the bytes that
    [from_int v] builds. *)
Definition word (v : Z) : Int256 := mk (rev (digits_le 32 v)).

(** A bytes literal, from its integer items. *)
Definition bytes (l : list Z) : list Byte.byte := map byte_of_Z l.

(** Address [k] is one that [op], run in state [st], stores to: for
    MSTORE the bytes of the second word from the offset held by the top
    word on (32 bytes for a word built by the constructor), for MSTORE8 the
    byte at that offset. *)
Definition overwritten (op : Z) (st : MachineState) (k : Z) : Prop :=
  match s st with
  | o :: v :: _ =>
      (op = 0x52 /\ unsigned o <= k < unsigned o + len (_bytes_value v)) \/
      (op = 0x53 /\ k = unsigned o)
  | _ => False
  end.

(** What a run of handlers keeps of the memory: the counter [i] does not
    go down, and a stored byte keeps its value unless its address is in
    [W], where it stays stored. *)
Definition kept (W : Z -> Prop) (st st' : MachineState) : Prop :=
  i st <= i st' /\
  forall (k v : Z), m st !! k = Some v ->
    m st' !! k = Some v \/ (W k /\ is_Some (m st' !! k)).

(** A computation whose final state is related to its initial one,
    whether it returns or raises. *)
Definition keeps {A : Type} (R : MachineState -> MachineState -> Prop)
  (c : M A) : Prop :=
  forall st, R st (c st).2.

(** A computation that never raises [e]. *)
Definition avoids {A : Type} (e : exn) (c : M A) : Prop :=
  forall st, (c st).1 <> Raise e.

(** JUMPI is run with exactly one word on the stack, and that word is an
    offset inside the program whose byte is not JUMPDEST: the destination
    check of [jumpi], which comes before its second [pop], fails. *)
Definition jumpi_checks_first (op : Z) (st : MachineState) : bool :=
  (op =? 0x57) &&
  match s st with
  | [d] =>
      match py.index (code st) (unsigned d) with
      | Ok b => negb (byte_to_Z b =? JUMPDEST)
      | Raise _ => false
      end
  | _ => false
  end.

(** A computation that, when it returns, leaves the program alone and has
    moved the program counter by [d]. *)
Definition moves {A : Type} (d : Z) (c : M A) : Prop :=
  forall st a st', c st = (Ok a, st') ->
    code st' = code st /\ pc st' = pc st + d.

(** The program and the gas counter are the same in both states. *)
Definition same_program (st st' : MachineState) : Prop :=
  code st' = code st /\ gas st' = gas st.

(** The net effect of a registered handler on the height of the stack
    when it returns: the words it appends minus the words it pops. *)
Definition stack_delta (op : Z) : Z :=
  match op with
  | 0x01 | 0x02 | 0x04 | 0x05 | 0x06 | 0x07 | 0x0a | 0x0b => -1
  | 0x08 | 0x09 => -2
  | 0x10 | 0x11 | 0x12 | 0x13 | 0x14 => -1
  | 0x15 | 0x19 => 0
  | 0x16 | 0x17 | 0x18 | 0x1a | 0x1b | 0x1c | 0x1d => -1
  | 0x50 | 0x56 => -1
  | 0x51 | 0x5b | 0x00 => 0
  | 0x52 | 0x53 | 0x57 => -2
  | 0x58 | 0x59 | 0x5a => 1
  | _ =>
      if (0x60 <=? op) && (op <? 0x60 + 32) then 1
      else if (0x80 <=? op) && (op <? 0x80 + 16) then 1
      else 0
  end.

(** A computation that, when it returns, has changed the height of the
    stack by [d]. *)
Definition shifts {A : Type} (d : Z) (c : M A) : Prop :=
  forall st a st', c st = (Ok a, st') -> len (s st') = len (s st) + d.

(** A word of 32 bytes, as the constructor builds them. *)
Definition word32 (w : Int256) : Prop := length (_bytes_value w) = 32%nat.

(** A computation that leaves on the stack, whether it returns or raises,
    only words of 32 bytes, if it finds only such words there, and whose
    value, when it returns, satisfies [Q]. *)
Definition keeps_word32 {A : Type} (Q : A -> Prop) (c : M A) : Prop :=
  forall st, Forall word32 (s st) ->
    Forall word32 (s (c st).2) /\ forall a, (c st).1 = Ok a -> Q a.

End layout.

(** ** rlp.py

    An item is a [bytes] value or a list of items.  The interpreter's limit
    on the depth of recursion is left out: [encode] recurses on the item,
    and the two decoding functions, which call each other and loop, take
    the number of calls and iterations they may still make.  Where the
    code raises RecursionError, on items and data nested some hundreds of
    levels deep, the functions below go on. *)

Module rlp.

(** What the module can raise: IndexError from [data[0]] on empty bytes,
    and [struct.error] from [struct.pack] and [struct.unpack]. *)
Inductive exn : Type :=
  | IndexError
  | struct_error.

Inductive outcome (A : Type) : Type :=
  | Return (a : A)
  | Raises (e : exn).
Arguments Return {A} a.
Arguments Raises {A} e.

(** [Item = Union[bytes, List["Item"]]]. *)
#[warnings="-register-all"]
Inductive Item : Type :=
  | Bytes (value : list byte)
  | Items (value : list Item).

(** [data[start:]]. *)
Definition slice_from {A : Type} (l : list A) (start : Z) : list A :=
  skipn (Z.to_nat (clamp l start)) l.

(** [bs.lstrip(b"\x00")]. *)
Fixpoint lstrip (bs : list byte) : list byte :=
  match bs with
  | x00 :: rest => lstrip rest
  | _ => bs
  end.

(** [struct.pack(">Q", value)] wants [0 <= value < 2^64]. *)
Definition _encode_int64 (value : Z) : outcome (list byte) :=
  if (value <? 0) || (2 ^ 64 <=? value) then Raises struct_error
  else Return (lstrip (rev (digits_le 8 value))).

(** [struct.unpack(">Q", buffer)] wants a buffer of exactly 8 bytes. *)
Definition _decode_int64 (data : list byte) : outcome Z :=
  let buffer := repeat_byte x00 (8 - len data) ++ data in
  if len buffer =? 8 then Return (from_bytes_unsigned buffer)
  else Raises struct_error.

(** [b"".join(f(item) for item in value)]. *)
Definition join {A : Type} (f : A -> outcome (list byte))
  : list A -> outcome (list byte) :=
  fix go (value : list A) : outcome (list byte) :=
    match value with
    | [] => Return []
    | item :: rest =>
        match f item with
        | Raises e => Raises e
        | Return encoded =>
            match go rest with
            | Raises e => Raises e
            | Return tail => Return (encoded ++ tail)
            end
        end
    end.

(** [len(value) == 1 and value[0] < 0x80]. *)
Definition single_low_byte (value : list byte) : bool :=
  (len value =? 1) &&
  match value with
  | b :: _ => byte_to_Z b <? 0x80
  | [] => false
  end.

(** The prefix bytes are built by [bytes([n])] with [n] at most
    [0xf7 + 8], so that the conversion never raises. *)
Fixpoint encode (value : Item) : outcome (list byte) :=
  match value with
  | Bytes value =>
      if single_low_byte value then Return value
      else if len value <=? 55 then
        Return (byte_of_Z (0x80 + len value) :: value)
      else
        match _encode_int64 (len value) with
        | Raises e => Raises e
        | Return len_enc =>
            Return (byte_of_Z (0xb7 + len len_enc) :: len_enc ++ value)
        end
  | Items value =>
      match join encode value with
      | Raises e => Raises e
      | Return encoded_list =>
          if len encoded_list <=? 55 then
            Return (byte_of_Z (0xc0 + len encoded_list) :: encoded_list)
          else
            match _encode_int64 (len encoded_list) with
            | Raises e => Raises e
            | Return len_enc =>
                Return (byte_of_Z (0xf7 + len len_enc)
                          :: len_enc ++ encoded_list)
            end
      end
  end.

(** [_decode_item] and the loop of [_decode_list], whose variables
    [result] and [remainder] are the last two arguments.  [None] stands
    for a run that needs more than [fuel] calls and iterations. *)
Fixpoint _decode_item (fuel : nat) (data : list byte)
  : option (outcome (Item * list byte)) :=
  match fuel with
  | O => None
  | S fuel =>
      match data with
      | [] => Some (Raises IndexError)
      | data_0 :: _ =>
          if byte_to_Z data_0 <? 0xc0 then
            if byte_to_Z data_0 <? 0x80 then
              Some (Return (Bytes (slice data 0 1), slice_from data 1))
            else if byte_to_Z data_0 <? 0xb7 then
              let length := byte_to_Z data_0 - 0x80 in
              Some (Return (Bytes (slice data 1 (length + 1)),
                            slice_from data (length + 1)))
            else
              let enc_length := byte_to_Z data_0 - 0xb7 in
              match _decode_int64 (slice data 1 (enc_length + 1)) with
              | Raises e => Some (Raises e)
              | Return length =>
                  Some (Return
                    (Bytes (slice data (enc_length + 1)
                                       (enc_length + length + 1)),
                     slice_from data (enc_length + length + 1)))
              end
          else
            if byte_to_Z data_0 <? 0xf7 then
              let length := byte_to_Z data_0 - 0xc0 in
              match _decode_list fuel [] (slice data 1 (length + 1)) with
              | None => None
              | Some (Raises e) => Some (Raises e)
              | Some (Return items) =>
                  Some (Return (Items items, slice_from data (length + 1)))
              end
            else
              let enc_length := byte_to_Z data_0 - 0xf7 in
              match _decode_int64 (slice data 1 (enc_length + 1)) with
              | Raises e => Some (Raises e)
              | Return length =>
                  match _decode_list fuel []
                          (slice data (enc_length + 1)
                                      (enc_length + length + 1)) with
                  | None => None
                  | Some (Raises e) => Some (Raises e)
                  | Some (Return items) =>
                      Some (Return
                        (Items items,
                         slice_from data (enc_length + length + 1)))
                  end
              end
      end
  end
with _decode_list (fuel : nat) (result : list Item) (remainder : list byte)
  : option (outcome (list Item)) :=
  match fuel with
  | O => None
  | S fuel =>
      match remainder with
      | [] => Some (Return result)
      | _ :: _ =>
          match _decode_item fuel remainder with
          | None => None
          | Some (Raises e) => Some (Raises e)
          | Some (Return (item, remainder)) =>
              _decode_list fuel (result ++ [item]) remainder
          end
      end
  end.

(** [decode(data)], run with twice the length of the data and one more
    calls and iterations, which is as many as any data needs. *)
Definition decode (data : list byte) : option (outcome Item) :=
  match _decode_item (2 * length data + 1) data with
  | None => None
  | Some (Raises e) => Some (Raises e)
  | Some (Return (item, _)) => Some (Return item)
  end.

(** No byte string of the item is 55 bytes long and no list of the item
    has a payload of 55 bytes. *)
Fixpoint off_55 (value : Item) : bool :=
  match value with
  | Bytes value => negb (len value =? 55)
  | Items value =>
      forallb off_55 value &&
      match join encode value with
      | Return encoded_list => negb (len encoded_list =? 55)
      | Raises _ => true
      end
  end.

End rlp.

Import int256 evm layout.
Local Open Scope evm_scope.

#[global] Arguments _INSTRUCTION_MAP : simpl never.
#[global] Arguments execute : simpl never.
#[global] Arguments step : simpl never.

(** ** The bytes of an integer *)

Lemma byte_to_Z_range (b : Byte.byte) : 0 <= byte_to_Z b < 256.
Proof.
  unfold byte_to_Z. pose proof (Byte.to_N_bounded b) as H. lia.
Qed.

Lemma byte_of_to_Z (b : Byte.byte) : byte_of_Z (byte_to_Z b) = b.
Proof.
  unfold byte_of_Z, byte_to_Z. rewrite N2Z.id.
  now rewrite Byte.of_to_N.
Qed.

Lemma from_bytes_unsigned_snoc (bs : list Byte.byte) (b : Byte.byte) :
  from_bytes_unsigned (bs ++ [b]) = from_bytes_unsigned bs * 256 + byte_to_Z b.
Proof. unfold from_bytes_unsigned. now rewrite fold_left_app. Qed.

Lemma from_bytes_unsigned_range (bs : list Byte.byte) :
  0 <= from_bytes_unsigned bs < 2 ^ (8 * len bs).
Proof.
  induction bs as [|b bs IH] using rev_ind.
  - unfold from_bytes_unsigned, len. simpl. lia.
  - rewrite from_bytes_unsigned_snoc. unfold len in *.
    rewrite length_app, Nat2Z.inj_add. simpl length.
    replace (8 * (Z.of_nat (length bs) + Z.of_nat 1))
      with (8 * Z.of_nat (length bs) + 8) by lia.
    rewrite Z.pow_add_r by lia.
    pose proof (byte_to_Z_range b). change (2 ^ 8) with 256. lia.
Qed.

Lemma digits_le_from_bytes (bs : list Byte.byte) :
  rev (digits_le (length bs) (from_bytes_unsigned bs)) = bs.
Proof.
  induction bs as [|b bs IH] using rev_ind; [reflexivity|].
  rewrite from_bytes_unsigned_snoc, length_app, Nat.add_comm. simpl.
  pose proof (byte_to_Z_range b) as Hb.
  replace ((from_bytes_unsigned bs * 256 + byte_to_Z b) mod 256)
    with (byte_to_Z b)
    by (rewrite Z.add_comm, Z.mod_add by lia; now rewrite Z.mod_small).
  replace ((from_bytes_unsigned bs * 256 + byte_to_Z b) / 256)
    with (from_bytes_unsigned bs)
    by (rewrite Z.add_comm, Z.div_add by lia;
        rewrite Z.div_small by lia; lia).
  now rewrite byte_of_to_Z, IH.
Qed.

Lemma init_ok (bs : list Byte.byte) (w : Int256) :
  init bs = Ok w -> _bytes_value w = bs /\ length bs = 32%nat.
Proof.
  unfold init, len. destruct (Z.eqb_spec (Z.of_nat (length bs)) 32) as [E|E];
    simpl; intros H; [|discriminate].
  injection H as <-. split; [reflexivity|lia].
Qed.

Lemma signed_unfold (bs : list Byte.byte) :
  length bs = 32%nat ->
  from_bytes_signed bs =
    if 2 ^ 255 <=? from_bytes_unsigned bs
    then from_bytes_unsigned bs - 2 ^ 256 else from_bytes_unsigned bs.
Proof.
  intros L. unfold from_bytes_signed, len. rewrite L. reflexivity.
Qed.

Lemma unsigned_range_32 (bs : list Byte.byte) :
  length bs = 32%nat -> 0 <= from_bytes_unsigned bs < 2 ^ 256.
Proof.
  intros L. pose proof (from_bytes_unsigned_range bs) as H.
  unfold len in H. rewrite L in H. exact H.
Qed.

Lemma from_int_unsigned (bs : list Byte.byte) :
  length bs = 32%nat -> from_int (from_bytes_unsigned bs) = Ok (mk bs).
Proof.
  intros L. pose proof (unsigned_range_32 bs L) as [H0 H1].
  pose proof (digits_le_from_bytes bs) as D. rewrite L in D.
  unfold from_int, to_bytes_unsigned.
  destruct (Z.ltb_spec (from_bytes_unsigned bs) 0) as [?|_]; [lia|].
  destruct (Z.leb_spec (2 ^ (8 * Z.of_nat 32)) (from_bytes_unsigned bs))
    as [H|_]; [change (2 ^ (8 * Z.of_nat 32)) with (2 ^ 256) in H; lia|].
  cbn [orb bind]. rewrite D.
  unfold init, len. now rewrite L.
Qed.

(** C10.  A word built by the constructor has congruent views: the signed
    and the unsigned readings agree modulo 2^256, the signed one is the
    unsigned one minus 2^256 exactly when the unsigned one is at least
    2^255 (and equal to it otherwise), and [from_int] applied to the
    unsigned reading gives the word back with the same 32 bytes. *)
Theorem views_congruent_and_from_int_roundtrip
  (bs : list Byte.byte) (w : Int256) :
  init bs = Ok w ->
  signed w mod 2 ^ 256 = unsigned w mod 2 ^ 256 /\
  (signed w = unsigned w - 2 ^ 256 <-> 2 ^ 255 <= unsigned w) /\
  (signed w = unsigned w <-> unsigned w < 2 ^ 255) /\
  from_int (unsigned w) = Ok w /\
  _bytes_value w = bs.
Proof.
  intros H. apply init_ok in H as [Hw L]. destruct w as [bs']. simpl in Hw.
  subst bs'. unfold signed, unsigned. simpl _bytes_value.
  rewrite (signed_unfold bs L).
  pose proof (unsigned_range_32 bs L) as R.
  set (u := from_bytes_unsigned bs) in *.
  assert (P : 0 < 2 ^ 256) by (apply Z.pow_pos_nonneg; lia).
  destruct (Z.leb_spec (2 ^ 255) u) as [Hu|Hu].
  - repeat split; try lia.
    replace (u - 2 ^ 256) with (u + (-1) * 2 ^ 256) by lia.
    now rewrite Z.mod_add by lia.
    subst u. now apply from_int_unsigned.
  - repeat split; try lia.
    subst u. now apply from_int_unsigned.
Qed.

(** The word 2^255 + 5, built from its 32 bytes, is an instance. *)
Lemma views_congruent_witness :
  signed (word (2 ^ 255 + 5)) mod 2 ^ 256
    = unsigned (word (2 ^ 255 + 5)) mod 2 ^ 256 /\
  (signed (word (2 ^ 255 + 5)) = unsigned (word (2 ^ 255 + 5)) - 2 ^ 256
     <-> 2 ^ 255 <= unsigned (word (2 ^ 255 + 5))) /\
  (signed (word (2 ^ 255 + 5)) = unsigned (word (2 ^ 255 + 5))
     <-> unsigned (word (2 ^ 255 + 5)) < 2 ^ 255) /\
  from_int (unsigned (word (2 ^ 255 + 5))) = Ok (word (2 ^ 255 + 5)) /\
  _bytes_value (word (2 ^ 255 + 5)) = rev (digits_le 32 (2 ^ 255 + 5)).
Proof.
  apply (views_congruent_and_from_int_roundtrip
           (rev (digits_le 32 (2 ^ 255 + 5))) (word (2 ^ 255 + 5))).
  reflexivity.
Defined.

(** ** Word operations that leave the integers *)

Lemma from_bytes_digits (n : nat) (v : Z) :
  from_bytes_unsigned (rev (digits_le n v)) = v mod 2 ^ (8 * Z.of_nat n).
Proof.
  revert v. induction n as [|n IH]; intros v.
  - simpl. now rewrite Z.mod_1_r.
  - cbn [digits_le rev]. rewrite from_bytes_unsigned_snoc, IH.
    assert (Hb : 0 <= v mod 256 < 256) by (apply Z.mod_pos_bound; lia).
    unfold byte_to_Z, byte_of_Z.
    destruct (Byte.of_N (Z.to_N (v mod 256))) as [b|] eqn:E.
    + apply Byte.to_of_N in E. rewrite E, Z2N.id by lia.
      replace (8 * Z.of_nat (S n)) with (8 + 8 * Z.of_nat n) by lia.
      rewrite Z.pow_add_r by lia. change (2 ^ 8) with 256.
      rewrite (Z.rem_mul_r v 256 (2 ^ (8 * Z.of_nat n))) by lia. lia.
    + apply Byte.of_N_None_iff in E. lia.
Qed.

Lemma unsigned_from_int (v : Z) (w : Int256) :
  from_int v = Ok w -> unsigned w = v.
Proof.
  unfold from_int, to_bytes_unsigned.
  destruct (Z.ltb_spec v 0) as [?|H0]; [discriminate|].
  destruct (Z.leb_spec (2 ^ (8 * Z.of_nat 32)) v) as [?|H1]; [discriminate|].
  cbn [orb bind]. intros H. apply init_ok in H as [Hw _].
  unfold unsigned. rewrite Hw, from_bytes_digits. now apply Z.mod_small.
Qed.

Lemma unsigned_from_signed_int (v : Z) (w : Int256) :
  from_signed_int v = Ok w -> unsigned w = v mod 2 ^ 256.
Proof.
  unfold from_signed_int, to_bytes_signed.
  destruct (_ || _); [discriminate|].
  cbn [bind]. intros H. apply init_ok in H as [Hw _].
  unfold unsigned. rewrite Hw, from_bytes_digits.
  change (8 * Z.of_nat 32) with 256. apply Z.mod_mod. lia.
Qed.

Lemma digits_le_length (n : nat) (v : Z) : length (digits_le n v) = n.
Proof. revert v. induction n; intros v; simpl; auto. Qed.

Lemma from_signed_int_ok (v : Z) :
  - 2 ^ 255 <= v < 2 ^ 255 -> is_ok (from_signed_int v) = true.
Proof.
  intros [H0 H1]. unfold from_signed_int, to_bytes_signed.
  change (2 ^ (8 * Z.of_nat 32 - 1)) with (2 ^ 255).
  destruct (Z.ltb_spec v (- 2 ^ 255)) as [?|_]; [lia|].
  destruct (Z.leb_spec (2 ^ 255) v) as [?|_]; [lia|].
  cbn [orb bind]. unfold init, len.
  now rewrite length_rev, digits_le_length.
Qed.

Lemma from_int_word (v : Z) :
  0 <= v < 2 ^ 256 -> from_int v = Ok (word v).
Proof.
  intros [H0 H1]. unfold from_int, to_bytes_unsigned.
  destruct (Z.ltb_spec v 0) as [?|_]; [lia|].
  destruct (Z.leb_spec (2 ^ (8 * Z.of_nat 32)) v) as [H|_];
    [change (2 ^ (8 * Z.of_nat 32)) with (2 ^ 256) in H; lia|].
  cbn [orb bind]. unfold init, len.
  now rewrite length_rev, digits_le_length.
Qed.

Lemma unsigned_word (v : Z) : 0 <= v < 2 ^ 256 -> unsigned (word v) = v.
Proof.
  intros H. apply unsigned_from_int. now apply from_int_word.
Qed.

Lemma not__low (bs : list Byte.byte) (w : Int256) :
  init bs = Ok w -> unsigned w < 2 ^ 255 ->
  exists r, int256.not_ w = Ok r /\ unsigned r = 2 ^ 256 - 1 - unsigned w.
Proof.
  intros H Hu. apply init_ok in H as [Hw L].
  pose proof (unsigned_range_32 bs L) as R.
  unfold int256.not_. unfold unsigned in *. rewrite Hw in *.
  set (u := from_bytes_unsigned bs) in *.
  assert (E : Z.lnot u = - u - 1) by (unfold Z.lnot; lia).
  rewrite E.
  pose proof (from_signed_int_ok (- u - 1)) as K.
  destruct (from_signed_int (- u - 1)) as [r|e] eqn:F.
  - exists r. split; [reflexivity|].
    apply unsigned_from_signed_int in F. unfold unsigned in F. rewrite F.
    replace (- u - 1) with (2 ^ 256 - 1 - u + (-1) * 2 ^ 256) by lia.
    rewrite Z.mod_add by lia. apply Z.mod_small. lia.
  - simpl in K. assert (false = true) by (apply K; lia). discriminate.
Qed.

Lemma not__high (bs : list Byte.byte) (w : Int256) :
  init bs = Ok w -> 2 ^ 255 <= unsigned w ->
  int256.not_ w = Raise OverflowError.
Proof.
  intros H Hu. unfold int256.not_, from_signed_int, to_bytes_signed.
  change (2 ^ (8 * Z.of_nat 32 - 1)) with (2 ^ 255).
  assert (E : Z.lnot (unsigned w) = - unsigned w - 1) by (unfold Z.lnot; lia).
  rewrite E.
  destruct (Z.ltb_spec (- unsigned w - 1) (- 2 ^ 255)) as [_|?]; [|lia].
  reflexivity.
Qed.

(** C8.  On the word 2^255, and on the all-ones word, [not_] raises
    OverflowError: [~unsigned] is below -2^255 and does not fit the signed
    32-byte encoding.  The complement the claim asks for would be
    2^255 - 1 and 0. *)
Theorem not__raises_on_high_words :
  from_int (2 ^ 255) = Ok (word (2 ^ 255)) /\
  int256.not_ (word (2 ^ 255)) = Raise OverflowError /\
  from_int (2 ^ 256 - 1) = Ok (word (2 ^ 256 - 1)) /\
  int256.not_ (word (2 ^ 256 - 1)) = Raise OverflowError /\
  int256.not_ (word 5) = Ok (word (2 ^ 256 - 1 - 5)).
Proof. repeat split; vm_compute; reflexivity. Qed.

Lemma sdiv_by_zero (a b : Int256) :
  signed b = 0 -> int256.sdiv a b = from_int 0.
Proof. intros H. unfold int256.sdiv. now rewrite H. Qed.

Lemma sdiv_min_by_minus_one (a b : Int256) :
  signed a = - 2 ^ 255 -> signed b = -1 ->
  int256.sdiv a b = from_signed_int (- 2 ^ 255).
Proof. intros Ha Hb. unfold int256.sdiv. now rewrite Ha, Hb. Qed.

(** C7.  [sdiv] divides in binary64: 2^53 + 1 divided by 1 comes back as
    2^53, and 2^255 - 1 divided by 1 is rounded to 2^255, which
    [from_signed_int] refuses.  The exact quotients are the dividends.  The
    two special cases of the claim hold: a zero divisor gives 0 and
    MIN_SIGNED by -1 gives MIN_SIGNED. *)
Theorem sdiv_is_not_exact :
  signed (word (2 ^ 53 + 1)) = 2 ^ 53 + 1 /\ signed (word 1) = 1 /\
  int256.sdiv (word (2 ^ 53 + 1)) (word 1) = Ok (word (2 ^ 53)) /\
  signed (word (2 ^ 255 - 1)) = 2 ^ 255 - 1 /\
  int256.sdiv (word (2 ^ 255 - 1)) (word 1) = Raise OverflowError /\
  int256.sdiv (word 7) (word 0) = Ok (word 0) /\
  signed (word (2 ^ 255)) = - 2 ^ 255 /\ signed (word (2 ^ 256 - 1)) = -1 /\
  int256.sdiv (word (2 ^ 255)) (word (2 ^ 256 - 1)) = Ok (word (2 ^ 255)).
Proof. repeat split; vm_compute; reflexivity. Qed.

(** ** What every handler keeps of the memory *)

Section Kept.

Variable W : Z -> Prop.

Lemma kept_refl (st : MachineState) : kept W st st.
Proof. split; [lia|]. intros k v H. now left. Qed.

Lemma kept_trans (st1 st2 st3 : MachineState) :
  kept W st1 st2 -> kept W st2 st3 -> kept W st1 st3.
Proof.
  intros [I1 M1] [I2 M2]. split; [lia|].
  intros k v H. destruct (M1 k v H) as [H1|[Hw [v1 H1]]].
  - exact (M2 k v H1).
  - right. split; [exact Hw|].
    destruct (M2 k v1 H1) as [H2|[_ H2]]; [now exists v1|exact H2].
Qed.

Lemma kept_same (st st' : MachineState) :
  i st' = i st -> m st' = m st -> kept W st st'.
Proof. intros Hi Hm. unfold kept. rewrite Hi, Hm. apply kept_refl. Qed.

Lemma keeps_ret {A : Type} (a : A) : keeps (kept W) (ret a).
Proof. intros st. apply kept_refl. Qed.

Lemma keeps_raise {A : Type} (e : exn) : keeps (kept W) (raise (A := A) e).
Proof. intros st. apply kept_refl. Qed.

Lemma keeps_lift {A : Type} (r : result A) : keeps (kept W) (lift r).
Proof. intros st. apply kept_refl. Qed.

Lemma keeps_get {A : Type} (f : MachineState -> A) : keeps (kept W) (get f).
Proof. intros st. apply kept_refl. Qed.

Lemma keeps_put (f : MachineState -> MachineState) :
  (forall st, kept W st (f st)) -> keeps (kept W) (put f).
Proof. intros H st. apply H. Qed.

Lemma keeps_bind {A B : Type} (c : M A) (k : A -> M B) :
  keeps (kept W) c -> (forall a, keeps (kept W) (k a)) ->
  keeps (kept W) (mbind c k).
Proof.
  intros Hc Hk st. unfold mbind. specialize (Hc st).
  destruct (c st) as [[a|e] st1]; simpl in *; [|exact Hc].
  eapply kept_trans; [exact Hc|apply Hk].
Qed.

Lemma keeps_s_pop : keeps (kept W) s_pop.
Proof.
  intros st. unfold s_pop. destruct (s st); simpl; now apply kept_same.
Qed.

Lemma keeps_s_append (w : Int256) : keeps (kept W) (s_append w).
Proof. apply keeps_put. intros st. now apply kept_same. Qed.

Lemma keeps_s_getitem_neg (n : nat) : keeps (kept W) (s_getitem_neg n).
Proof.
  intros st. unfold s_getitem_neg. destruct (nth_error _ _); apply kept_refl.
Qed.

Lemma keeps_s_setitem_neg (n : nat) (w : Int256) :
  keeps (kept W) (s_setitem_neg n w).
Proof.
  intros st. unfold s_setitem_neg. destruct (_ <? _)%nat; simpl;
    now apply kept_same.
Qed.

Lemma keeps_pc_add (k : Z) : keeps (kept W) (pc_add k).
Proof. apply keeps_put. intros st. now apply kept_same. Qed.

Lemma keeps_with_pc (d : Z) : keeps (kept W) (put (with_pc d)).
Proof. apply keeps_put. intros st. now apply kept_same. Qed.

Lemma keeps_with_i (x : Z) :
  keeps (kept W) (put (fun st => with_i (Z.max (i st) x) st)).
Proof.
  apply keeps_put. intros st. split; simpl; [lia|]. intros k v H. now left.
Qed.

Lemma keeps_m_getitem (k : Z) : keeps (kept W) (m_getitem k).
Proof.
  intros st. unfold m_getitem. destruct (m st !! k) eqn:E; simpl.
  - apply kept_refl.
  - split; simpl; [lia|]. intros k' v H. left.
    rewrite lookup_insert_ne; [exact H|]. intros ->. congruence.
Qed.

Lemma keeps_m_setitem (k v : Z) : W k -> keeps (kept W) (m_setitem k v).
Proof.
  intros Hk. apply keeps_put. intros st. split; simpl; [lia|].
  intros k' v' H. destruct (decide (k = k')) as [<-|N].
  - right. split; [exact Hk|]. rewrite lookup_insert_eq. now eexists.
  - left. now rewrite lookup_insert_ne.
Qed.

Lemma keeps_read_mem_bytes (offset : Z) (xs : list Z) :
  keeps (kept W) (read_mem_bytes offset xs).
Proof.
  induction xs as [|x xs IH]; simpl.
  - apply keeps_ret.
  - apply keeps_bind; [apply keeps_m_getitem|]. intros v.
    destruct (_ || _); [apply keeps_raise|].
    apply keeps_bind; [exact IH|]. intros bs. apply keeps_ret.
Qed.

Lemma keeps_read_mem_256 (offset : Z) : keeps (kept W) (read_mem_256 offset).
Proof.
  apply keeps_bind; [apply keeps_read_mem_bytes|]. intros bs. apply keeps_lift.
Qed.

Lemma keeps_write_mem_bytes (offset x : Z) (ds : list Byte.byte) :
  (forall k, offset + x <= k < offset + x + len ds -> W k) ->
  keeps (kept W) (write_mem_bytes offset x ds).
Proof.
  revert x. induction ds as [|d ds IH]; intros x H; simpl.
  - apply keeps_ret.
  - unfold len in H. simpl length in H.
    apply keeps_bind; [apply keeps_m_setitem, H; lia|]. intros _.
    apply IH. intros k Hk. apply H. unfold len in Hk. lia.
Qed.

Lemma keeps_code_at (d : Z) : keeps (kept W) (code_at d).
Proof.
  apply keeps_bind; [apply keeps_get|]. intros c.
  apply keeps_bind; [apply keeps_lift|]. intros b. apply keeps_ret.
Qed.

End Kept.

Ltac keeps_step :=
  lazymatch goal with
  | |- keeps _ (mbind _ _) => apply keeps_bind; [|intros ?]
  | |- keeps _ (ret _) => apply keeps_ret
  | |- keeps _ (raise _) => apply keeps_raise
  | |- keeps _ (lift _) => apply keeps_lift
  | |- keeps _ (get _) => apply keeps_get
  | |- keeps _ s_pop => apply keeps_s_pop
  | |- keeps _ (s_append _) => apply keeps_s_append
  | |- keeps _ (s_getitem_neg _) => apply keeps_s_getitem_neg
  | |- keeps _ (s_setitem_neg _ _) => apply keeps_s_setitem_neg
  | |- keeps _ (pc_add _) => apply keeps_pc_add
  | |- keeps _ (put (with_pc _)) => apply keeps_with_pc
  | |- keeps _ (put _) => apply keeps_with_i
  | |- keeps _ (read_mem_256 _) => apply keeps_read_mem_256
  | |- keeps _ (code_at _) => apply keeps_code_at
  | |- keeps _ (if ?b then _ else _) => destruct b
  | |- keeps _ (let _ := _ in _) => cbv zeta
  end.

Ltac head_of t :=
  lazymatch t with
  | ?f _ => head_of f
  | _ => t
  end.

Ltac keeps_handler :=
  lazymatch goal with
  | |- keeps _ ?fn => let h := head_of fn in unfold h
  end;
  repeat keeps_step.

Lemma kept_weaken (W W' : Z -> Prop) (st st' : MachineState) :
  (forall k, W k -> W' k) -> kept W st st' -> kept W' st st'.
Proof.
  intros H [Hi Hm]. split; [exact Hi|]. intros k v Hk.
  destruct (Hm k v Hk) as [?|[? ?]]; [now left|right; auto].
Qed.

Lemma mstore_kept (st : MachineState) :
  kept (overwritten 0x52 st) st (mstore st).2.
Proof.
  unfold mstore, mbind at 1, s_pop.
  destruct (s st) as [|o rest] eqn:E; simpl; [apply kept_refl|].
  unfold mbind at 1, s_pop. simpl.
  destruct rest as [|v rest]; simpl; [now apply kept_same|].
  apply kept_weaken
    with (W := fun k => unsigned o <= k < unsigned o + len (_bytes_value v)).
  { intros k Hk. unfold overwritten. rewrite E. now left. }
  eapply kept_trans;
    [apply kept_same with (st' := with_s rest st); reflexivity|].
  assert (K : keeps (kept (fun k =>
                unsigned o <= k < unsigned o + len (_bytes_value v)))
    (do! write_mem_256 (unsigned o) v in
     do! put (fun st => with_i (Z.max (i st) ((unsigned o + 32) / 32)) st) in
     pc_add 1)).
  { apply keeps_bind; [|intros ?; repeat keeps_step].
    apply keeps_write_mem_bytes. intros k Hk. lia. }
  apply K.
Qed.

Lemma mstore8_kept (st : MachineState) :
  kept (overwritten 0x53 st) st (mstore8 st).2.
Proof.
  unfold mstore8, mbind at 1, s_pop.
  destruct (s st) as [|o rest] eqn:E; simpl; [apply kept_refl|].
  unfold mbind at 1, s_pop. simpl.
  destruct rest as [|v rest]; simpl; [now apply kept_same|].
  apply kept_weaken with (W := fun k => k = unsigned o).
  { intros k Hk. unfold overwritten. rewrite E. now right. }
  eapply kept_trans;
    [apply kept_same with (st' := with_s rest st); reflexivity|].
  assert (K : keeps (kept (fun k => k = unsigned o))
    (do! write_mem_8 (unsigned o) v in
     do! put (fun st => with_i (Z.max (i st) ((unsigned o + 1) / 32)) st) in
     pc_add 1)).
  { apply keeps_bind; [|intros ?; repeat keeps_step].
    apply keeps_bind; [apply keeps_lift|]. intros d.
    now apply keeps_m_setitem. }
  apply K.
Qed.

Lemma keeps_overwritten (op : Z) (fn : M unit) :
  keeps (kept (fun _ => False)) fn ->
  forall st, kept (overwritten op st) st (fn st).2.
Proof.
  intros K st. apply kept_weaken with (W := fun _ => False); [tauto|apply K].
Qed.

Lemma registrations_keep :
  Forall (fun kf : Z * M unit =>
            forall st, kept (overwritten kf.1 st) st (kf.2 st).2)
         registrations.
Proof.
  unfold registrations. rewrite !Forall_app, !Forall_map.
  split; [|split; [|split]].
  - repeat (apply Forall_cons_2;
            [ cbn [fst snd];
              first [ exact mstore_kept | exact mstore8_kept
                    | apply keeps_overwritten; keeps_handler ] |]).
    apply Forall_nil_2.
  - apply Forall_forall. intros ii _. cbn [fst snd].
    apply keeps_overwritten; keeps_handler.
  - apply Forall_forall. intros ii _. cbn [fst snd].
    apply keeps_overwritten; keeps_handler.
  - apply Forall_forall. intros ii _. cbn [fst snd].
    apply keeps_overwritten; keeps_handler.
Qed.

Lemma foldl_register_lookup (l : list (Z * M unit)) (t : gmap Z (M unit))
  (op : Z) (fn : M unit) :
  foldl register t l !! op = Some fn -> (op, fn) ∈ l \/ t !! op = Some fn.
Proof.
  revert t. induction l as [|[k f] l IH]; intros t H; simpl in H.
  - now right.
  - destruct (IH _ H) as [Hin|Ht].
    + left. now apply list_elem_of_further.
    + unfold register in Ht. simpl in Ht.
      destruct (decide (k = op)) as [->|N].
      * rewrite lookup_insert_eq in Ht. injection Ht as ->.
        left. apply list_elem_of_here.
      * rewrite lookup_insert_ne in Ht by exact N. now right.
Qed.

Lemma lookup_registered (op : Z) (fn : M unit) :
  _INSTRUCTION_MAP !! op = Some fn -> (op, fn) ∈ registrations.
Proof.
  intros H. apply foldl_register_lookup in H as [H|H]; [exact H|].
  rewrite lookup_empty in H. discriminate.
Qed.

Lemma execute_kept (op : Z) (st : MachineState) :
  kept (overwritten op st) st (execute op st).2.
Proof.
  unfold execute. destruct (_INSTRUCTION_MAP !! op) as [fn|] eqn:E.
  - apply lookup_registered in E.
    pose proof registrations_keep as F. rewrite Forall_forall in F.
    exact (F _ E st).
  - apply kept_refl.
Qed.

Lemma step_unfold (st : MachineState) :
  step st =
    match py.index (code st) (pc st) with
    | Ok b => execute (byte_to_Z b) st
    | Raise e => (Raise e, st)
    end.
Proof.
  unfold step, code_at, mbind, get, lift, ret.
  destruct (py.index (code st) (pc st)); reflexivity.
Qed.

Lemma step_kept (st : MachineState) :
  exists W, kept W st (step st).2.
Proof.
  rewrite step_unfold.
  destruct (py.index (code st) (pc st)) as [b|e].
  - eexists. apply execute_kept.
  - exists (fun _ => False). apply kept_refl.
Qed.

Lemma kept_dom (W : Z -> Prop) (st st' : MachineState) :
  kept W st st' -> i st <= i st' /\ dom (m st) ⊆ dom (m st').
Proof.
  intros [Hi Hm]. split; [exact Hi|]. intros k Hk.
  apply elem_of_dom in Hk as [v Hv]. apply elem_of_dom.
  destruct (Hm k v Hv) as [H|[_ H]]; [now exists v|exact H].
Qed.

Lemma main_loop_grows (fuel : nat) (st : MachineState) :
  match main_loop fuel st with
  | Some (_, st') => i st <= i st' /\ dom (m st) ⊆ dom (m st')
  | None => True
  end.
Proof.
  revert st. induction fuel as [|fuel IH]; intros st; cbn [main_loop].
  - destruct (negb _); [split; [lia|set_solver]|exact I].
  - destruct (negb _); [split; [lia|set_solver]|].
    destruct (step_kept st) as [W K]. apply kept_dom in K as [Ki Km].
    destruct (step st) as [[[]|e] st1]; cbn [snd] in *.
    + specialize (IH st1). destruct (main_loop fuel st1) as [[r st2]|];
        [|exact I].
      destruct IH as [Hi Hm]. split; [lia|set_solver].
    + split; [exact Ki|exact Km].
Qed.

(** C9.  Whatever opcode is executed, and whether its handler returns or
    raises, the counter [i] afterwards is at least what it was, and every
    byte stored in memory keeps its value, except at the addresses that
    MSTORE or MSTORE8 store to, which stay stored.  In particular MLOAD,
    which grows [i] and fills the addresses it reads with 0, changes no
    stored byte.  Along the whole loop of [main], [i] never goes down and
    no stored address disappears. *)
Theorem activeWords_and_memory_never_shrink (op : Z) (st : MachineState) :
  i st <= i (execute op st).2 /\
  (forall (k v : Z), m st !! k = Some v ->
     m (execute op st).2 !! k = Some v \/
     (overwritten op st k /\ is_Some (m (execute op st).2 !! k))) /\
  (forall (k v : Z), m st !! k = Some v ->
     m (mload st).2 !! k = Some v) /\
  i st <= i (mload st).2 /\ i st <= i (mstore st).2 /\
  i st <= i (mstore8 st).2 /\
  (forall fuel : nat,
     match main_loop fuel st with
     | Some (_, st') => i st <= i st' /\ dom (m st) ⊆ dom (m st')
     | None => True
     end).
Proof.
  pose proof (execute_kept op st) as [Hi Hm].
  assert (L : keeps (kept (fun _ => False)) mload) by keeps_handler.
  destruct (L st) as [Li Lm].
  split; [exact Hi|]. split; [exact Hm|].
  split; [intros k v H; destruct (Lm k v H) as [?|[[] _]]; assumption|].
  split; [exact Li|].
  split; [apply (mstore_kept st)|].
  split; [apply (mstore8_kept st)|].
  intros fuel. exact (main_loop_grows fuel st).
Qed.

(** ** Jumps *)

Lemma index_out_of_bounds {A : Type} (l : list A) (j : Z) :
  len l <= j -> py.index l j = Raise IndexError.
Proof.
  intros H. unfold py.index, len in *.
  destruct (Z.ltb_spec j 0) as [?|_]; [lia|].
  destruct (Z.ltb_spec j 0) as [?|_]; [lia|].
  destruct (Z.leb_spec (Z.of_nat (length l)) j) as [_|?]; [reflexivity|lia].
Qed.

Lemma index_in_bounds {A : Type} (l : list A) (j : Z) :
  0 <= j < len l ->
  exists x, py.index l j = Ok x /\ nth_error l (Z.to_nat j) = Some x.
Proof.
  intros [H0 H1]. unfold py.index. unfold len in *.
  destruct (Z.ltb_spec j 0) as [?|_]; [lia|].
  destruct (Z.ltb_spec j 0) as [?|_]; [lia|].
  destruct (Z.leb_spec (Z.of_nat (length l)) j) as [?|_]; [lia|].
  cbn [orb]. destruct (nth_error l (Z.to_nat j)) as [x|] eqn:N.
  - now exists x.
  - apply nth_error_None in N. lia.
Qed.

Lemma jump_unfold (st : MachineState) (d : Int256) (rest : list Int256) :
  s st = d :: rest ->
  jump st =
    match py.index (code st) (unsigned d) with
    | Ok b =>
        if byte_to_Z b =? JUMPDEST
        then (Ok tt, with_pc (unsigned d) (with_s rest st))
        else (Raise InvalidJumpDestination, with_s rest st)
    | Raise e => (Raise e, with_s rest st)
    end.
Proof.
  intros E. unfold jump, mbind, s_pop, code_at, mbind, get, lift, ret.
  rewrite E. cbn [code with_s].
  destruct (py.index (code st) (unsigned d)) as [b|e]; [|reflexivity].
  destruct (byte_to_Z b =? JUMPDEST); reflexivity.
Qed.

Lemma jump_not_jumpdest (st : MachineState) (d : Int256)
  (rest : list Int256) (b : Byte.byte) :
  s st = d :: rest -> py.index (code st) (unsigned d) = Ok b ->
  byte_to_Z b <> JUMPDEST ->
  jump st = (Raise InvalidJumpDestination, with_s rest st).
Proof.
  intros E I N. rewrite (jump_unfold st d rest E), I.
  destruct (Z.eqb_spec (byte_to_Z b) JUMPDEST); [contradiction|reflexivity].
Qed.

Lemma jump_out_of_bounds (st : MachineState) (d : Int256)
  (rest : list Int256) :
  s st = d :: rest -> len (code st) <= unsigned d ->
  jump st = (Raise IndexError, with_s rest st).
Proof.
  intros E H. rewrite (jump_unfold st d rest E).
  now rewrite index_out_of_bounds.
Qed.

Lemma jumpi_unfold (st : MachineState) (d : Int256) (rest : list Int256) :
  s st = d :: rest ->
  jumpi st =
    match py.index (code st) (unsigned d) with
    | Ok b =>
        if byte_to_Z b =? JUMPDEST
        then match rest with
             | cond :: rest' =>
                 (Ok tt, with_pc (unsigned d) (with_s rest' st))
             | [] => (Raise IndexError, with_s [] st)
             end
        else (Raise InvalidJumpDestination, with_s rest st)
    | Raise e => (Raise e, with_s rest st)
    end.
Proof.
  intros E. unfold jumpi, mbind, s_pop, code_at, mbind, get, lift, ret.
  rewrite E. cbn [code with_s].
  destruct (py.index (code st) (unsigned d)) as [b|e]; [|reflexivity].
  destruct (byte_to_Z b =? JUMPDEST); cbn [negb]; [|reflexivity].
  cbn [s]. destruct rest as [|cond rest']; reflexivity.
Qed.

(** C1.  JUMPI pops the destination first and the condition second, but
    the condition does not decide the jump: with the zero word as the
    condition and a JUMPDEST at offset 7, the program counter becomes 7,
    where the claim asks for 5.  The loop of [main] on
    PUSH1 0, PUSH1 7, JUMPI, PUSH1 0, JUMPDEST dispatches offsets 0, 2, 4
    and then 7. *)
Theorem jumpi_jumps_on_zero_condition :
  unsigned (word 0) = 0 /\
  jumpi (mkState (bytes [0x60; 0x00; 0x60; 0x07; 0x57; 0x60; 0x00; 0x5b])
           0 4 ∅ 0 [word 7; word 0])
    = (Ok tt,
       mkState (bytes [0x60; 0x00; 0x60; 0x07; 0x57; 0x60; 0x00; 0x5b])
         0 7 ∅ 0 []) /\
  dispatched 10
    (new_state (bytes [0x60; 0x00; 0x60; 0x07; 0x57; 0x60; 0x00; 0x5b]))
    = [0; 2; 4; 7].
Proof. repeat split; vm_compute; reflexivity. Qed.

(** C3.  A JUMP whose destination is past the end of the program raises
    IndexError, the exception of the failed [state.code[dest]], and not
    InvalidJumpDestination: PUSH1 9, JUMP on a three-byte program.  An
    in-bounds destination that is not a JUMPDEST does raise
    InvalidJumpDestination: PUSH1 0, JUMP. *)
Theorem jump_out_of_bounds_is_IndexError :
  jump (mkState (bytes [0x60; 0x09; 0x56]) 0 2 ∅ 0 [word 9])
    = (Raise IndexError, mkState (bytes [0x60; 0x09; 0x56]) 0 2 ∅ 0 []) /\
  main_loop 10 (new_state (bytes [0x60; 0x09; 0x56]))
    = Some (Raise IndexError, mkState (bytes [0x60; 0x09; 0x56]) 0 2 ∅ 0 []) /\
  main_loop 10 (new_state (bytes [0x60; 0x00; 0x56]))
    = Some (Raise InvalidJumpDestination,
            mkState (bytes [0x60; 0x00; 0x56]) 0 2 ∅ 0 []).
Proof. repeat split; vm_compute; reflexivity. Qed.

(** ** The active memory size *)

Lemma mstore8_i (st : MachineState) (o v : Int256) (rest : list Int256) :
  s st = o :: v :: rest -> length (_bytes_value v) = 32%nat ->
  (mstore8 st).1 = Ok tt /\
  i (mstore8 st).2 = Z.max (i st) ((unsigned o + 1) / 32).
Proof.
  intros E L. unfold mstore8, mbind, s_pop, write_mem_8, mbind, lift,
    m_setitem, put, pc_add, put.
  rewrite E. cbn [s with_s].
  destruct (index_in_bounds (_bytes_value v) 31) as [b [I _]];
    [unfold len; lia|].
  rewrite I. split; reflexivity.
Qed.

(** C6.  MSTORE8 grows the counter with a floor, [(offset + 1) // 32]:
    after PUSH1 0xaa, PUSH1 33, MSTORE8, MSIZE on a fresh state the counter
    is 1 and MSIZE pushes 32, where the claim asks for 2 words and 64
    bytes.  After MSTORE at offset 0 MSIZE pushes 32, as claimed. *)
Theorem mstore8_at_33_reports_32 :
  main_loop 10 (new_state (bytes [0x60; 0xaa; 0x60; 0x21; 0x53; 0x59]))
    = Some (Ok tt,
            mkState (bytes [0x60; 0xaa; 0x60; 0x21; 0x53; 0x59])
              0 6 (<[33 := 0xaa]> ∅) 1 [word 32]) /\
  option_map (fun r => (r.1, i r.2, s r.2))
    (main_loop 10 (new_state (bytes [0x60; 0xaa; 0x60; 0x00; 0x52; 0x59])))
    = Some (Ok tt, 1, [word 32]).
Proof. split; vm_compute; reflexivity. Qed.

(** ** Opcodes without a handler *)

Section Avoids.

Variable e : exn.

Lemma avoids_ret {A : Type} (a : A) : avoids e (ret a).
Proof. intros st. discriminate. Qed.

Lemma avoids_get {A : Type} (f : MachineState -> A) : avoids e (get f).
Proof. intros st. discriminate. Qed.

Lemma avoids_put (f : MachineState -> MachineState) : avoids e (put f).
Proof. intros st. discriminate. Qed.

Lemma avoids_raise {A : Type} (e' : exn) :
  e' <> e -> avoids e (raise (A := A) e').
Proof. intros N st H. injection H as ->. contradiction. Qed.

Lemma avoids_lift {A : Type} (r : result A) :
  r <> Raise e -> avoids e (lift r).
Proof. intros N st. exact N. Qed.

Lemma avoids_bind {A B : Type} (c : M A) (k : A -> M B) :
  avoids e c -> (forall a, avoids e (k a)) -> avoids e (mbind c k).
Proof.
  intros Hc Hk st. unfold mbind. specialize (Hc st).
  destruct (c st) as [[a|e'] st1]; cbn [fst] in *; [apply Hk|].
  intros H. apply Hc. congruence.
Qed.

Lemma avoids_s_pop : IndexError <> e -> avoids e s_pop.
Proof.
  intros N st. unfold s_pop. destruct (s st); cbn [fst]; congruence.
Qed.

Lemma avoids_s_getitem_neg (n : nat) :
  IndexError <> e -> avoids e (s_getitem_neg n).
Proof.
  intros N st. unfold s_getitem_neg.
  destruct (nth_error _ _); cbn [fst]; congruence.
Qed.

Lemma avoids_s_setitem_neg (n : nat) (w : Int256) :
  IndexError <> e -> avoids e (s_setitem_neg n w).
Proof.
  intros N st. unfold s_setitem_neg.
  destruct (_ <? _)%nat; cbn [fst]; congruence.
Qed.

Lemma avoids_m_getitem (k : Z) : avoids e (m_getitem k).
Proof.
  intros st. unfold m_getitem. destruct (m st !! k); discriminate.
Qed.

Lemma avoids_read_mem_bytes (offset : Z) (xs : list Z) :
  ValueError <> e -> avoids e (read_mem_bytes offset xs).
Proof.
  intros N. induction xs as [|x xs IH]; cbn [read_mem_bytes].
  - apply avoids_ret.
  - apply avoids_bind; [apply avoids_m_getitem|]. intros v.
    destruct (_ || _); [now apply avoids_raise|].
    apply avoids_bind; [exact IH|]. intros bs. apply avoids_ret.
Qed.

Lemma avoids_write_mem_bytes (offset x : Z) (ds : list Byte.byte) :
  avoids e (write_mem_bytes offset x ds).
Proof.
  revert x. induction ds as [|d ds IH]; intros x; cbn [write_mem_bytes].
  - apply avoids_ret.
  - apply avoids_bind; [apply avoids_put|]. intros _. apply IH.
Qed.

End Avoids.

Ltac word_avoids :=
  let H := fresh in
  intros H;
  unfold int256.add, int256.mul, int256.div, int256.sdiv, int256.mod_,
    int256.smod, int256.addmod, int256.mulmod, int256.exp,
    int256.signextend, int256.lt, int256.gt, int256.slt, int256.sgt,
    int256.eq, int256.iszero, int256.and_, int256.or_, int256.xor,
    int256.not_, int256.byte, int256.shl, int256.shr, int256.sar,
    int256.rshift, from_int, from_signed_int, init, bind,
    to_bytes_unsigned, to_bytes_signed, py.index, truediv, floordiv,
    modulo, pow, lshift in H;
  repeat case_match; try congruence;
  repeat match goal with
         | E : (_ =? _) = true |- _ => apply Z.eqb_eq in E
         | E : (_ =? _) = false |- _ => apply Z.eqb_neq in E
         end;
  lia.

Ltac avoids_step :=
  lazymatch goal with
  | |- avoids _ (mbind _ _) => apply avoids_bind; [|intros ?]
  | |- avoids _ (ret _) => apply avoids_ret
  | |- avoids _ (raise _) => apply avoids_raise; discriminate
  | |- avoids _ (lift _) => apply avoids_lift; word_avoids
  | |- avoids _ (get _) => apply avoids_get
  | |- avoids _ (put _) => apply avoids_put
  | |- avoids _ s_pop => apply avoids_s_pop; discriminate
  | |- avoids _ (s_append _) => apply avoids_put
  | |- avoids _ (s_getitem_neg _) => apply avoids_s_getitem_neg; discriminate
  | |- avoids _ (s_setitem_neg _ _) =>
      apply avoids_s_setitem_neg; discriminate
  | |- avoids _ (pc_add _) => apply avoids_put
  | |- avoids _ (m_setitem _ _) => apply avoids_put
  | |- avoids _ (read_mem_bytes _ _) =>
      apply avoids_read_mem_bytes; discriminate
  | |- avoids _ (write_mem_bytes _ _ _) => apply avoids_write_mem_bytes
  | |- avoids _ (if ?b then _ else _) => destruct b
  | |- avoids _ (let _ := _ in _) => cbv zeta
  end.

Ltac avoids_handler :=
  lazymatch goal with
  | |- avoids _ ?fn => let h := head_of fn in unfold h
  end;
  unfold read_mem_256, write_mem_256, write_mem_8, code_at;
  repeat avoids_step.

Lemma registrations_avoid_KeyError :
  Forall (fun kf : Z * M unit => avoids KeyError kf.2) registrations.
Proof.
  unfold registrations. rewrite !Forall_app, !Forall_map.
  split; [|split; [|split]].
  - repeat (apply Forall_cons_2; [cbn [fst snd]; avoids_handler|]).
    apply Forall_nil_2.
  - apply Forall_forall. intros ii _. cbn [fst snd]. avoids_handler.
  - apply Forall_forall. intros ii _. cbn [fst snd]. avoids_handler.
  - apply Forall_forall. intros ii _. cbn [fst snd]. avoids_handler.
Qed.

Lemma execute_KeyError_iff (op : Z) (st : MachineState) :
  (execute op st).1 = Raise KeyError <-> _INSTRUCTION_MAP !! op = None.
Proof.
  unfold execute. destruct (_INSTRUCTION_MAP !! op) as [fn|] eqn:E.
  - split; [|discriminate]. intros H. exfalso.
    apply lookup_registered in E.
    pose proof registrations_avoid_KeyError as F.
    rewrite Forall_forall in F. exact (F _ E st H).
  - split; reflexivity.
Qed.

(** C5.  When the byte at the program counter has no entry in the
    instruction table, executing it raises KeyError, the fault of the
    failed table lookup, and leaves the machine state as it was; the loop
    of [main] ends there with that exception.  SUB (0x03) is such a byte.
    No registered handler raises KeyError, so this exception is raised for
    an unregistered opcode and for nothing else. *)
Theorem unregistered_opcode_raises_KeyError
  (st : MachineState) (b : Byte.byte) (fuel : nat) :
  pc st < len (code st) ->
  py.index (code st) (pc st) = Ok b ->
  _INSTRUCTION_MAP !! byte_to_Z b = None ->
  execute (byte_to_Z b) st = (Raise KeyError, st) /\
  step st = (Raise KeyError, st) /\
  main_loop (S fuel) st = Some (Raise KeyError, st) /\
  _INSTRUCTION_MAP !! 0x03 = None /\
  (forall (op : Z) (st' : MachineState),
     (execute op st').1 = Raise KeyError <-> _INSTRUCTION_MAP !! op = None).
Proof.
  intros Hpc Hb Hn.
  assert (E : execute (byte_to_Z b) st = (Raise KeyError, st))
    by (unfold execute; now rewrite Hn).
  assert (S : step st = (Raise KeyError, st))
    by (now rewrite step_unfold, Hb).
  split; [exact E|]. split; [exact S|]. split.
  - cbn [main_loop]. destruct (Z.ltb_spec (pc st) (len (code st))); [|lia].
    cbn [negb]. now rewrite S.
  - split; [vm_compute; reflexivity|]. intros op st'.
    apply execute_KeyError_iff.
Qed.

(** The one-byte program SUB, on a fresh state. *)
Lemma unregistered_opcode_witness :
  execute (byte_to_Z x03) (new_state (bytes [0x03]))
    = (Raise KeyError, new_state (bytes [0x03])) /\
  step (new_state (bytes [0x03])) = (Raise KeyError, new_state (bytes [0x03])) /\
  main_loop 1 (new_state (bytes [0x03]))
    = Some (Raise KeyError, new_state (bytes [0x03])) /\
  _INSTRUCTION_MAP !! 0x03 = None /\
  (forall (op : Z) (st' : MachineState),
     (execute op st').1 = Raise KeyError <-> _INSTRUCTION_MAP !! op = None).
Proof.
  apply (unregistered_opcode_raises_KeyError
           (new_state (bytes [0x03])) x03 0%nat);
    vm_compute; reflexivity.
Defined.

(** ** Too few words on the stack *)

Lemma index_raises {A : Type} (l : list A) (j : Z) (e : exn) :
  py.index l j = Raise e -> e = IndexError.
Proof.
  unfold py.index. repeat case_match; congruence.
Qed.

Ltac small_Z ii :=
  destruct ii as [|ii|ii]; try lia;
  repeat (destruct ii as [ii|ii|]; try lia).

Lemma operands_push (ii : Z) :
  0 <= ii < 32 -> operands (0x60 + ii) = 0%nat.
Proof. intros H. small_Z ii; reflexivity. Qed.

Lemma operands_dup (ii : Z) :
  0 <= ii < 16 -> operands (0x80 + ii) = Z.to_nat (ii + 1).
Proof. intros H. small_Z ii; reflexivity. Qed.

Lemma operands_swap (ii : Z) :
  0 <= ii < 16 -> operands (0x90 + ii) = Z.to_nat (ii + 1 + 1).
Proof. intros H. small_Z ii; reflexivity. Qed.

Lemma not_jumpi_range (ii base : Z) (st : MachineState) :
  0 <= ii -> 0x60 <= base -> jumpi_checks_first (base + ii) st = false.
Proof.
  intros H0 H1. unfold jumpi_checks_first.
  destruct (Z.eqb_spec (base + ii) 0x57); [lia|reflexivity].
Qed.

Lemma dup_n_underflow (n : Z) (st : MachineState) :
  (length (s st) < Z.to_nat n)%nat -> (dup_n n st).1 = Raise IndexError.
Proof.
  intros H. unfold dup_n, mbind, s_getitem_neg.
  destruct (nth_error (s st) (Nat.pred (Z.to_nat n))) eqn:N; [|reflexivity].
  assert (N' : nth_error (s st) (Nat.pred (Z.to_nat n)) <> None)
    by congruence.
  apply nth_error_Some in N'. lia.
Qed.

Lemma swap_n_underflow (n : Z) (st : MachineState) :
  0 <= n -> (length (s st) < Z.to_nat (n + 1))%nat ->
  (swap_n n st).1 = Raise IndexError.
Proof.
  intros Hn H. unfold swap_n, mbind, s_getitem_neg.
  destruct (nth_error (s st) (Nat.pred 1)) eqn:N1; [|reflexivity].
  destruct (nth_error (s st) (Nat.pred (Z.to_nat (n + 1)))) eqn:N;
    [|reflexivity].
  assert (N' : nth_error (s st) (Nat.pred (Z.to_nat (n + 1))) <> None)
    by congruence.
  apply nth_error_Some in N'. lia.
Qed.

Ltac underflow_handler :=
  let st := fresh "st" in
  let H := fresh "H" in
  intros st H;
  destruct st as [c g p mem n stk];
  cbn in H;
  destruct stk as [|w1 [|w2 [|w3 stk]]]; cbn [length] in H; try lia;
  reflexivity.

Lemma jumpi_underflow (st : MachineState) :
  (length (s st) < 2)%nat ->
  (jumpi st).1 =
    Raise (if jumpi_checks_first 0x57 st
           then InvalidJumpDestination else IndexError).
Proof.
  intros H. unfold jumpi_checks_first. cbn [Z.eqb Pos.eqb andb].
  destruct (s st) as [|d [|w rest]] eqn:E; cbn [length] in H; try lia.
  - unfold jumpi, mbind, s_pop. now rewrite E.
  - rewrite (jumpi_unfold st d [] E).
    destruct (py.index (code st) (unsigned d)) as [b|e] eqn:I.
    + destruct (byte_to_Z b =? JUMPDEST); reflexivity.
    + apply index_raises in I. now subst e.
Qed.

Lemma registrations_underflow :
  Forall (fun kf : Z * M unit =>
            forall st, (length (s st) < operands kf.1)%nat ->
              (kf.2 st).1 =
                Raise (if jumpi_checks_first kf.1 st
                       then InvalidJumpDestination else IndexError))
         registrations.
Proof.
  unfold registrations. rewrite !Forall_app, !Forall_map.
  split; [|split; [|split]].
  - repeat (apply Forall_cons_2;
            [ cbn [fst snd];
              first [ exact jumpi_underflow | underflow_handler ] |]).
    apply Forall_nil_2.
  - apply Forall_forall. intros ii Hi st. cbn [fst snd].
    apply elem_of_seqZ in Hi. rewrite operands_push by lia. lia.
  - apply Forall_forall. intros ii Hi st H. cbn [fst snd] in *.
    apply elem_of_seqZ in Hi. rewrite operands_dup in H by lia.
    rewrite not_jumpi_range by lia. now apply dup_n_underflow.
  - apply Forall_forall. intros ii Hi st H. cbn [fst snd] in *.
    apply elem_of_seqZ in Hi. rewrite operands_swap in H by lia.
    rewrite not_jumpi_range by lia. apply swap_n_underflow; lia.
Qed.

(** C4, as the code has it.  A registered opcode run with fewer words on
    the stack than its handler reads never succeeds: it raises IndexError,
    the exception of [pop] on an empty list and of an index past the end
    of the list.  The one exception is JUMPI with a single word that is an
    offset inside the program whose byte is not JUMPDEST: the destination
    is checked before the condition is popped, so InvalidJumpDestination is
    raised instead. *)
Theorem underflow_raises_IndexError
  (op : Z) (fn : M unit) (st : MachineState) :
  _INSTRUCTION_MAP !! op = Some fn ->
  (length (s st) < operands op)%nat ->
  (execute op st).1 =
    Raise (if jumpi_checks_first op st
           then InvalidJumpDestination else IndexError) /\
  (op <> 0x57 -> (execute op st).1 = Raise IndexError).
Proof.
  intros E H. unfold execute. rewrite E.
  apply lookup_registered in E.
  pose proof registrations_underflow as F. rewrite Forall_forall in F.
  pose proof (F _ E st H) as R. cbn [fst snd] in R.
  split; [exact R|]. intros N. rewrite R. unfold jumpi_checks_first.
  destruct (Z.eqb_spec op 0x57); [contradiction|reflexivity].
Qed.

(** ADD on the empty stack of a fresh state. *)
Lemma underflow_witness :
  (execute 0x01 (new_state (bytes [0x01]))).1 =
    Raise (if jumpi_checks_first 0x01 (new_state (bytes [0x01]))
           then InvalidJumpDestination else IndexError) /\
  (0x01 <> 0x57 ->
   (execute 0x01 (new_state (bytes [0x01]))).1 = Raise IndexError).
Proof.
  apply (underflow_raises_IndexError 0x01 add (new_state (bytes [0x01])));
    [reflexivity | vm_compute; lia].
Defined.

(** C4 fails for JUMPI.  On PUSH1 3, JUMPI, STOP, STOP the handler of JUMPI
    finds one word where it reads two; the destination 3 holds the byte
    0x00, and the exception is InvalidJumpDestination, not the one of an
    empty stack. *)
Lemma jumpi_underflow_raises_InvalidJumpDestination :
  operands 0x57 = 2%nat /\
  length (s (mkState (bytes [0x60; 0x03; 0x57; 0x00]) 0 2 ∅ 0 [word 3]))
    = 1%nat /\
  execute 0x57 (mkState (bytes [0x60; 0x03; 0x57; 0x00]) 0 2 ∅ 0 [word 3])
    = (Raise InvalidJumpDestination,
       mkState (bytes [0x60; 0x03; 0x57; 0x00]) 0 2 ∅ 0 []) /\
  main_loop 10 (new_state (bytes [0x60; 0x03; 0x57; 0x00]))
    = Some (Raise InvalidJumpDestination,
            mkState (bytes [0x60; 0x03; 0x57; 0x00]) 0 2 ∅ 0 []).
Proof. repeat split; vm_compute; reflexivity. Qed.

(** ** Where the program counter goes *)

Lemma moves_ret {A : Type} (a : A) : moves 0 (ret a).
Proof. intros st a' st' H. injection H as _ <-. split; [reflexivity|lia]. Qed.

Lemma moves_raise {A : Type} (d : Z) (e : exn) : moves d (raise (A := A) e).
Proof. intros st a st' H. discriminate. Qed.

Lemma moves_lift {A : Type} (r : result A) : moves 0 (lift r).
Proof.
  intros st a st' H. unfold lift in H. injection H as _ <-.
  split; [reflexivity|lia].
Qed.

Lemma moves_get {A : Type} (f : MachineState -> A) : moves 0 (get f).
Proof. intros st a st' H. injection H as _ <-. split; [reflexivity|lia]. Qed.

Lemma moves_put (d : Z) (f : MachineState -> MachineState) :
  (forall st, code (f st) = code st /\ pc (f st) = pc st + d) ->
  moves d (put f).
Proof. intros F st a st' H. injection H as _ <-. apply F. Qed.

Lemma moves_bind {A B : Type} (d : Z) (c : M A) (k : A -> M B) :
  moves 0 c -> (forall a, moves d (k a)) -> moves d (mbind c k).
Proof.
  intros Hc Hk st b st' H. unfold mbind in H.
  destruct (c st) as [[a|e] st1] eqn:E; [|discriminate].
  destruct (Hc _ _ _ E) as [C1 P1]. destruct (Hk a _ _ _ H) as [C2 P2].
  split; [congruence|lia].
Qed.

Lemma moves_s_pop : moves 0 s_pop.
Proof.
  intros st a st' H. unfold s_pop in H.
  destruct (s st); [discriminate|]. injection H as _ <-.
  split; [reflexivity|cbn; lia].
Qed.

Lemma moves_s_append (w : Int256) : moves 0 (s_append w).
Proof. apply moves_put. intros st. split; [reflexivity|cbn; lia]. Qed.

Lemma moves_s_getitem_neg (n : nat) : moves 0 (s_getitem_neg n).
Proof.
  intros st a st' H. unfold s_getitem_neg in H.
  destruct (nth_error _ _); [|discriminate]. injection H as _ <-.
  split; [reflexivity|lia].
Qed.

Lemma moves_s_setitem_neg (n : nat) (w : Int256) :
  moves 0 (s_setitem_neg n w).
Proof.
  intros st a st' H. unfold s_setitem_neg in H.
  destruct (_ <? _)%nat; [|discriminate]. injection H as _ <-.
  split; [reflexivity|cbn; lia].
Qed.

Lemma moves_pc_add (k : Z) : moves k (pc_add k).
Proof. apply moves_put. intros st. split; reflexivity. Qed.

Lemma moves_with_i (f : MachineState -> Z) :
  moves 0 (put (fun st => with_i (f st) st)).
Proof. apply moves_put. intros st. split; [reflexivity|cbn; lia]. Qed.

Lemma moves_m_getitem (k : Z) : moves 0 (m_getitem k).
Proof.
  intros st a st' H. unfold m_getitem in H.
  destruct (m st !! k); injection H as _ <-;
    (split; [reflexivity|cbn; lia]).
Qed.

Lemma moves_m_setitem (k v : Z) : moves 0 (m_setitem k v).
Proof. apply moves_put. intros st. split; [reflexivity|cbn; lia]. Qed.

Lemma moves_read_mem_bytes (offset : Z) (xs : list Z) :
  moves 0 (read_mem_bytes offset xs).
Proof.
  induction xs as [|x xs IH]; cbn [read_mem_bytes].
  - apply moves_ret.
  - apply moves_bind; [apply moves_m_getitem|]. intros v.
    destruct (_ || _); [apply moves_raise|].
    apply moves_bind; [exact IH|]. intros bs. apply moves_ret.
Qed.

Lemma moves_write_mem_bytes (offset x : Z) (ds : list Byte.byte) :
  moves 0 (write_mem_bytes offset x ds).
Proof.
  revert x. induction ds as [|d ds IH]; intros x; cbn [write_mem_bytes].
  - apply moves_ret.
  - apply moves_bind; [apply moves_m_setitem|]. intros _. apply IH.
Qed.

Ltac moves_step :=
  lazymatch goal with
  | |- moves _ (mbind _ _) => apply moves_bind; [|intros ?]
  | |- moves _ (ret _) => apply moves_ret
  | |- moves _ (raise _) => apply moves_raise
  | |- moves _ (lift _) => apply moves_lift
  | |- moves _ (get _) => apply moves_get
  | |- moves _ s_pop => apply moves_s_pop
  | |- moves _ (s_append _) => apply moves_s_append
  | |- moves _ (s_getitem_neg _) => apply moves_s_getitem_neg
  | |- moves _ (s_setitem_neg _ _) => apply moves_s_setitem_neg
  | |- moves _ (pc_add _) => apply moves_pc_add
  | |- moves _ (m_setitem _ _) => apply moves_m_setitem
  | |- moves _ (read_mem_bytes _ _) => apply moves_read_mem_bytes
  | |- moves _ (write_mem_bytes _ _ _) => apply moves_write_mem_bytes
  | |- moves _ (put _) => apply moves_with_i
  | |- moves _ (if ?b then _ else _) => destruct b
  | |- moves _ (let _ := _ in _) => cbv zeta
  end.

Ltac moves_handler :=
  lazymatch goal with
  | |- moves _ ?fn => let h := head_of fn in unfold h
  end;
  unfold read_mem_256, write_mem_256, write_mem_8, code_at;
  repeat moves_step.

Lemma push_width_push (ii : Z) :
  0 <= ii < 32 -> push_width (0x60 + ii) = ii + 1.
Proof.
  intros H. unfold push_width.
  destruct (Z.leb_spec 0x60 (0x60 + ii)); [|lia].
  destruct (Z.ltb_spec (0x60 + ii) (0x60 + 32)); [|lia].
  cbn [andb]. lia.
Qed.

Lemma push_width_other (op : Z) :
  op < 0x60 \/ 0x80 <= op -> push_width op = 0.
Proof.
  intros H. unfold push_width.
  destruct (Z.leb_spec 0x60 op); destruct (Z.ltb_spec op (0x60 + 32));
    cbn [andb]; lia.
Qed.

Lemma push_width_nonneg (op : Z) : 0 <= push_width op.
Proof.
  unfold push_width.
  destruct (Z.leb_spec 0x60 op); destruct (Z.ltb_spec op (0x60 + 32));
    cbn [andb]; lia.
Qed.

Lemma byte_to_Z_inj (b : Byte.byte) (z : Z) :
  byte_to_Z b = z -> b = byte_of_Z z.
Proof. intros <-. now rewrite byte_of_to_Z. Qed.

Lemma jump_lands (st st' : MachineState) :
  jump st = (Ok tt, st') ->
  code st' = code st /\ py.index (code st) (pc st') = Ok x5b.
Proof.
  intros H. destruct (s st) as [|d rest] eqn:E.
  - unfold jump, mbind, s_pop in H. rewrite E in H. discriminate.
  - rewrite (jump_unfold st d rest E) in H.
    destruct (py.index (code st) (unsigned d)) as [b|e] eqn:I;
      [|discriminate].
    destruct (Z.eqb_spec (byte_to_Z b) JUMPDEST) as [J|J]; [|discriminate].
    injection H as <-. apply byte_to_Z_inj in J. subst b.
    split; [reflexivity|exact I].
Qed.

Lemma jumpi_lands (st st' : MachineState) :
  jumpi st = (Ok tt, st') ->
  code st' = code st /\ py.index (code st) (pc st') = Ok x5b.
Proof.
  intros H. destruct (s st) as [|d rest] eqn:E.
  - unfold jumpi, mbind, s_pop in H. rewrite E in H. discriminate.
  - rewrite (jumpi_unfold st d rest E) in H.
    destruct (py.index (code st) (unsigned d)) as [b|e] eqn:I;
      [|discriminate].
    destruct (Z.eqb_spec (byte_to_Z b) JUMPDEST) as [J|J]; [|discriminate].
    destruct rest as [|cond rest']; [discriminate|].
    injection H as <-. apply byte_to_Z_inj in J. subst b.
    split; [reflexivity|exact I].
Qed.

(** Where a registered handler leaves the program counter when it
    returns. *)
Lemma moves_lands (d k : Z) (fn : M unit) :
  moves d fn -> k <> 0x56 -> k <> 0x57 -> d = 1 + push_width k ->
  forall st st', fn st = (Ok tt, st') ->
    code st' = code st /\
    (((k = 0x56 \/ k = 0x57) /\
      (py.index (code st) (pc st') = Ok x5b \/ pc st' = pc st + 1)) \/
     (k <> 0x56 /\ k <> 0x57 /\ pc st' = pc st + 1 + push_width k)).
Proof.
  intros Hm N1 N2 -> st st' H. destruct (Hm _ _ _ H) as [C P].
  split; [exact C|]. right. repeat split; [exact N1|exact N2|lia].
Qed.

Lemma registrations_land :
  Forall (fun kf : Z * M unit =>
            forall st st', kf.2 st = (Ok tt, st') ->
              code st' = code st /\
              (((kf.1 = 0x56 \/ kf.1 = 0x57) /\
                (py.index (code st) (pc st') = Ok x5b \/
                 pc st' = pc st + 1)) \/
               (kf.1 <> 0x56 /\ kf.1 <> 0x57 /\
                pc st' = pc st + 1 + push_width kf.1)))
         registrations.
Proof.
  unfold registrations. rewrite !Forall_app, !Forall_map.
  split; [|split; [|split]].
  - repeat (apply Forall_cons_2;
      [ cbn [fst snd];
        first
          [ intros st st' H; apply jump_lands in H as [C P];
            split; [exact C|]; left; split; [now left|now left]
          | intros st st' H; apply jumpi_lands in H as [C P];
            split; [exact C|]; left; split; [now right|now left]
          | apply (moves_lands 1);
            [moves_handler | lia | lia | reflexivity] ] |]).
    apply Forall_nil_2.
  - apply Forall_forall. intros ii Hi. cbn [fst snd].
    apply elem_of_seqZ in Hi.
    apply (moves_lands (1 + (ii + 1)));
      [moves_handler | lia | lia | rewrite push_width_push; lia].
  - apply Forall_forall. intros ii Hi. cbn [fst snd].
    apply elem_of_seqZ in Hi.
    apply (moves_lands 1);
      [moves_handler | lia | lia | rewrite push_width_other; lia].
  - apply Forall_forall. intros ii Hi. cbn [fst snd].
    apply elem_of_seqZ in Hi.
    apply (moves_lands 1);
      [moves_handler | lia | lia | rewrite push_width_other; lia].
Qed.

(** ** Instruction boundaries *)

Lemma boundary_nonneg (c : list Byte.byte) (p : Z) : boundary c p -> 0 <= p.
Proof.
  induction 1 as [|p b _ IH _]; [lia|].
  pose proof (push_width_nonneg (byte_to_Z b)). lia.
Qed.

Lemma boundary_inv (c : list Byte.byte) (q : Z) :
  boundary c q ->
  q = 0 \/
  exists q0 b0, boundary c q0 /\ py.index c q0 = Ok b0 /\
                q = q0 + 1 + push_width (byte_to_Z b0).
Proof.
  intros H. destruct H as [|q0 b0 H0 I0]; [now left|].
  right. now exists q0, b0.
Qed.

Lemma boundary_gap_fuel (c : list Byte.byte) (n : nat) :
  forall (p q : Z) (b : Byte.byte),
    (Z.to_nat q <= n)%nat -> boundary c p -> boundary c q -> p < q ->
    py.index c p = Ok b -> p + 1 + push_width (byte_to_Z b) <= q.
Proof.
  induction n as [|n IH]; intros p q b Hn Hp Hq Hlt Hb.
  - apply boundary_nonneg in Hp. lia.
  - destruct (boundary_inv c q Hq) as [->|(q0 & b0 & H0 & I0 & ->)].
    + apply boundary_nonneg in Hp. lia.
    + pose proof (push_width_nonneg (byte_to_Z b0)) as W0.
      pose proof (push_width_nonneg (byte_to_Z b)) as Wb.
      pose proof (boundary_nonneg c q0 H0) as N0.
      pose proof (boundary_nonneg c p Hp) as Np.
      destruct (Z.lt_trichotomy p q0) as [L|[E|G]].
      * assert (p + 1 + push_width (byte_to_Z b) <= q0)
          by (apply (IH p q0 b); [lia|assumption..]).
        lia.
      * subst q0. rewrite Hb in I0. injection I0 as <-. lia.
      * assert (q0 + 1 + push_width (byte_to_Z b0) <= p)
          by (apply (IH q0 p b0); [lia|assumption..]).
        lia.
Qed.

Lemma boundary_gap (c : list Byte.byte) (p q : Z) (b : Byte.byte) :
  boundary c p -> boundary c q -> p < q -> py.index c p = Ok b ->
  p + 1 + push_width (byte_to_Z b) <= q.
Proof. apply (boundary_gap_fuel c (Z.to_nat q)). lia. Qed.

Lemma boundary_not_immediate (c : list Byte.byte) (q : Z) :
  boundary c q -> ~ in_push_immediate c q.
Proof.
  intros Hq (p & b & Hp & Hb & [Hlt Hle] & _).
  pose proof (boundary_gap c p q b Hp Hq Hlt Hb). lia.
Qed.

(** One turn of the loop.  From a state whose program counter is an
    instruction boundary of the program read from offset 0, a step that
    returns leaves the program unchanged, and
    - for every opcode other than JUMP and JUMPI it moves the program
      counter past the opcode and its immediate bytes, to the next
      instruction boundary, which is no byte of a PUSH immediate;
    - for JUMP and JUMPI it moves the program counter to an offset whose
      byte is 0x5b, or to the next byte; whether that offset is an
      instruction boundary is not checked. *)
Lemma step_from_boundary
  (st st' : MachineState) (b : Byte.byte) :
  boundary (code st) (pc st) ->
  py.index (code st) (pc st) = Ok b ->
  step st = (Ok tt, st') ->
  code st' = code st /\
  ((byte_to_Z b <> 0x56 /\ byte_to_Z b <> 0x57 /\
    pc st' = pc st + 1 + push_width (byte_to_Z b) /\
    boundary (code st') (pc st') /\
    ~ in_push_immediate (code st') (pc st')) \/
   ((byte_to_Z b = 0x56 \/ byte_to_Z b = 0x57) /\
    (py.index (code st) (pc st') = Ok x5b \/ pc st' = pc st + 1))).
Proof.
  intros Hb Hi Hs. rewrite step_unfold, Hi in Hs. unfold execute in Hs.
  destruct (_INSTRUCTION_MAP !! byte_to_Z b) as [fn|] eqn:E;
    [|discriminate].
  apply lookup_registered in E.
  pose proof registrations_land as F. rewrite Forall_forall in F.
  destruct (F _ E st st' Hs) as [C [[J L]|(N1 & N2 & P)]]; cbn [fst] in *.
  - split; [exact C|]. right. split; assumption.
  - split; [exact C|]. left.
    assert (B : boundary (code st') (pc st')).
    { rewrite C, P. now apply boundary_next. }
    repeat split; try assumption. now apply boundary_not_immediate.
Qed.

Lemma dispatched_head (fuel : nat) (st : MachineState) (n : nat) (p : Z) :
  dispatched fuel st !! n = Some p ->
  dispatched fuel st !! 0%nat = Some (pc st).
Proof.
  destruct fuel as [|fuel]; cbn [dispatched]; [discriminate|].
  destruct (negb _); [discriminate|reflexivity].
Qed.

Lemma dispatched_from_boundary (fuel : nat) :
  forall (st : MachineState) (n : nat) (p : Z),
    boundary (code st) (pc st) ->
    dispatched fuel st !! n = Some p ->
    (forall (k : nat) (q q' : Z) (b : Byte.byte),
       (k < n)%nat ->
       dispatched fuel st !! k = Some q ->
       dispatched fuel st !! S k = Some q' ->
       py.index (code st) q = Ok b ->
       byte_to_Z b = 0x56 \/ byte_to_Z b = 0x57 ->
       boundary (code st) q') ->
    boundary (code st) p.
Proof.
  induction fuel as [|fuel IH]; intros st n p B L J; [discriminate|].
  cbn [dispatched] in L, J.
  destruct (negb (pc st <? len (code st))); [discriminate|].
  destruct n as [|n]; [injection L as <-; exact B|].
  cbn [lookup list_lookup] in L.
  destruct (step st) as [[[]|e] st'] eqn:Hs; [|discriminate].
  assert (S' := Hs). rewrite step_unfold in S'.
  destruct (py.index (code st) (pc st)) as [b|e] eqn:I; [|discriminate].
  pose proof (dispatched_head fuel st' n p L) as H0.
  destruct (step_from_boundary st st' b B I Hs)
    as [C [(_ & _ & _ & B' & _)|[Jb _]]].
  - rewrite <- C. apply (IH st' n p B' L).
    intros k q q' b' Hk Hq Hq' Hi Hj. rewrite C in *.
    apply (J (S k) q q' b'); [lia|exact Hq|exact Hq'|exact Hi|exact Hj].
  - assert (B' : boundary (code st) (pc st')).
    { apply (J 0%nat (pc st) (pc st') b);
        [lia|reflexivity|exact H0|exact I|exact Jb]. }
    rewrite <- C. rewrite <- C in B'. apply (IH st' n p B' L).
    intros k q q' b' Hk Hq Hq' Hi Hj. rewrite C in *.
    apply (J (S k) q q' b'); [lia|exact Hq|exact Hq'|exact Hi|exact Hj].
Qed.

(** C2, as the code has it.  In an execution started at program counter 0,
    as long as every JUMP and JUMPI taken so far has landed on an
    instruction boundary of the program read from offset 0, the offset
    that the loop dispatches is an instruction boundary, and no byte of a
    PUSH immediate: every other opcode moves the program counter past the
    opcode and its immediate bytes.  The condition on jumps is not enforced
    by the code, which only compares the byte at the destination with
    0x5b. *)
Theorem dispatch_stays_on_boundaries_between_jumps
  (st : MachineState) (fuel n : nat) (p : Z) :
  pc st = 0 ->
  dispatched fuel st !! n = Some p ->
  (forall (k : nat) (q q' : Z) (b : Byte.byte),
     (k < n)%nat ->
     dispatched fuel st !! k = Some q ->
     dispatched fuel st !! S k = Some q' ->
     py.index (code st) q = Ok b ->
     byte_to_Z b = 0x56 \/ byte_to_Z b = 0x57 ->
     boundary (code st) q') ->
  boundary (code st) p /\ ~ in_push_immediate (code st) p.
Proof.
  intros P L J.
  assert (B : boundary (code st) p).
  { apply (dispatched_from_boundary fuel st n p); [|exact L|exact J].
    rewrite P. apply boundary_start. }
  split; [exact B|now apply boundary_not_immediate].
Qed.

(** PUSH1 3, JUMP, JUMPDEST, STOP: the loop dispatches offsets 0, 2, 3 and
    4; the JUMP at offset 2 lands on offset 3, which is an instruction
    boundary, and so is the third offset dispatched. *)
Lemma dispatch_stays_on_boundaries_witness :
  boundary (code (new_state (bytes [0x60; 0x03; 0x56; 0x5b; 0x00]))) 3 /\
  ~ in_push_immediate
      (code (new_state (bytes [0x60; 0x03; 0x56; 0x5b; 0x00]))) 3.
Proof.
  apply (dispatch_stays_on_boundaries_between_jumps
           (new_state (bytes [0x60; 0x03; 0x56; 0x5b; 0x00])) 10 2 3).
  - reflexivity.
  - vm_compute. reflexivity.
  - intros k q q' b Hk Hq Hq' Hi Hj.
    destruct k as [|[|k]]; [| |lia].
    + vm_compute in Hq. injection Hq as <-.
      vm_compute in Hi. injection Hi as <-.
      vm_compute in Hj. destruct Hj; discriminate.
    + vm_compute in Hq'. injection Hq' as <-.
      set (c := code _).
      exact (boundary_next c 2 x56
               (boundary_next c 0 x60 (boundary_start c) eq_refl) eq_refl).
Defined.

(** C2 fails for jumps.  In PUSH1 4, JUMP, PUSH1 0x5b the byte at offset 4
    is the immediate of the PUSH1 at offset 3.  Started at offset 0, the
    loop of [main] dispatches offsets 0 and 2 and then, the JUMP having
    found 0x5b at offset 4, offset 4 itself. *)
Lemma jump_lands_inside_push_immediate :
  dispatched 10 (new_state (bytes [0x60; 0x04; 0x56; 0x60; 0x5b]))
    = [0; 2; 4] /\
  in_push_immediate (bytes [0x60; 0x04; 0x56; 0x60; 0x5b]) 4 /\
  main_loop 10 (new_state (bytes [0x60; 0x04; 0x56; 0x60; 0x5b]))
    = Some (Ok tt, mkState (bytes [0x60; 0x04; 0x56; 0x60; 0x5b]) 0 5 ∅ 0 []).
Proof.
  split; [vm_compute; reflexivity|]. split; [|vm_compute; reflexivity].
  set (c := bytes [0x60; 0x04; 0x56; 0x60; 0x5b]).
  assert (B2 : boundary c 2)
    by exact (boundary_next c 0 x60 (boundary_start c) eq_refl).
  assert (B3 : boundary c 3) by exact (boundary_next c 2 x56 B2 eq_refl).
  exists 3, x60. split; [exact B3|]. split; [reflexivity|].
  vm_compute. repeat split; congruence.
Qed.

(** ** The word operations, one by one *)

Lemma unsigned_nonneg (w : Int256) : 0 <= unsigned w.
Proof. unfold unsigned. apply from_bytes_unsigned_range. Qed.

Lemma unsigned_lt (w : Int256) :
  length (_bytes_value w) = 32%nat -> 0 <= unsigned w < 2 ^ 256.
Proof. intros L. unfold unsigned. now apply unsigned_range_32. Qed.

Lemma signed_range (w : Int256) :
  length (_bytes_value w) = 32%nat -> - 2 ^ 255 <= signed w < 2 ^ 255.
Proof.
  intros L. unfold signed. rewrite (signed_unfold _ L).
  pose proof (unsigned_range_32 _ L).
  destruct (Z.leb_spec (2 ^ 255) (from_bytes_unsigned (_bytes_value w))); lia.
Qed.

Lemma from_signed_int_word (v : Z) :
  - 2 ^ 255 <= v < 2 ^ 255 -> from_signed_int v = Ok (word (v mod 2 ^ 256)).
Proof.
  intros [H0 H1]. unfold from_signed_int, to_bytes_signed.
  change (2 ^ (8 * Z.of_nat 32 - 1)) with (2 ^ 255).
  destruct (Z.ltb_spec v (- 2 ^ 255)) as [?|_]; [lia|].
  destruct (Z.leb_spec (2 ^ 255) v) as [?|_]; [lia|].
  cbn [orb bind]. unfold init, len.
  now rewrite length_rev, digits_le_length.
Qed.

Lemma word_length (v : Z) : length (_bytes_value (word v)) = 32%nat.
Proof.
  unfold word. cbn [_bytes_value]. now rewrite length_rev, digits_le_length.
Qed.

Lemma signed_as_unsigned (w : Int256) :
  length (_bytes_value w) = 32%nat ->
  signed w =
    if 2 ^ 255 <=? unsigned w then unsigned w - 2 ^ 256 else unsigned w.
Proof. intros L. unfold signed, unsigned. now apply signed_unfold. Qed.

Lemma mod_2_256_signed (v : Z) :
  - 2 ^ 255 <= v < 2 ^ 255 ->
  v mod 2 ^ 256 = if v <? 0 then v + 2 ^ 256 else v.
Proof.
  intros H. destruct (Z.ltb_spec v 0) as [N|N].
  - symmetry. apply (Z.mod_unique v (2 ^ 256) (-1)); lia.
  - apply Z.mod_small. lia.
Qed.

Lemma signed_word_mod (v : Z) :
  - 2 ^ 255 <= v < 2 ^ 255 -> signed (word (v mod 2 ^ 256)) = v.
Proof.
  intros H. rewrite signed_as_unsigned by apply word_length.
  rewrite unsigned_word by (apply Z.mod_pos_bound; lia).
  rewrite (mod_2_256_signed v H).
  destruct (Z.ltb_spec v 0) as [N|N].
  - destruct (Z.leb_spec (2 ^ 255) (v + 2 ^ 256)); lia.
  - destruct (Z.leb_spec (2 ^ 255) v); lia.
Qed.

(** X1.  [add], [mul] and [sub] never raise: whatever the two words, the
    result is the word of the sum, product or difference of the unsigned
    readings, reduced modulo 2^256; [sub] undoes [add] modulo 2^256. *)
Theorem modular_arithmetic_wraps (a b : Int256) :
  int256.add a b = Ok (word ((unsigned a + unsigned b) mod 2 ^ 256)) /\
  int256.mul a b = Ok (word ((unsigned a * unsigned b) mod 2 ^ 256)) /\
  int256.sub a b = Ok (word ((unsigned a - unsigned b) mod 2 ^ 256)) /\
  (forall r, int256.sub a b = Ok r ->
     (unsigned r + unsigned b) mod 2 ^ 256 = unsigned a mod 2 ^ 256).
Proof.
  assert (P : forall v, from_int (v mod 2 ^ 256) = Ok (word (v mod 2 ^ 256))).
  { intros v. apply from_int_word. apply Z.mod_pos_bound. lia. }
  unfold int256.add, int256.mul, int256.sub.
  rewrite !P. repeat split. intros r H. injection H as <-.
  rewrite unsigned_word by (apply Z.mod_pos_bound; lia).
  rewrite Zplus_mod_idemp_l. f_equal. lia.
Qed.

Lemma int_max_bits_range : 2 ^ 20 <= int_max_bits <= 2 ^ 60.
Proof. exact (proj2_sig int_max_bits_bounds). Qed.

Lemma pow_fits (a b : Z) :
  Z.log2 (a ^ b) < 2 ^ 20 -> pow a b = Ok (a ^ b).
Proof.
  intros H. pose proof int_max_bits_range. unfold pow.
  destruct (Z.leb_spec int_max_bits (Z.log2 (a ^ b))); [lia|reflexivity].
Qed.

Lemma pow_too_large (a b : Z) :
  2 ^ 60 <= Z.log2 (a ^ b) -> pow a b = Raise MemoryError.
Proof.
  intros H. pose proof int_max_bits_range. unfold pow.
  destruct (Z.leb_spec int_max_bits (Z.log2 (a ^ b))); [reflexivity|lia].
Qed.

Lemma log2_pow_small_base (a b : Z) :
  0 <= a <= 1 -> 0 <= b -> Z.log2 (a ^ b) = 0.
Proof.
  intros Ha Hb. apply Z.log2_null.
  replace 1 with (1 ^ b) by apply Z.pow_1_l, Hb.
  apply Z.pow_le_mono_l. lia.
Qed.

Lemma log2_pow_large_base (a b : Z) :
  2 <= a -> 0 <= b -> b <= Z.log2 (a ^ b).
Proof.
  intros Ha Hb. rewrite <- (Z.log2_pow2 b) at 1 by exact Hb.
  apply Z.log2_le_mono, Z.pow_le_mono_l. lia.
Qed.

(** X27.  [exp] takes the power in full before it reduces it, so that it
    returns only if the interpreter can hold the power.  It returns the word
    of the power modulo 2^256 whenever the power has at most 2^20 bits,
    which includes every power of 0 and of 1; it raises MemoryError
    whenever the power has more than 2^60 bits, which includes every power
    of a base of 2 or more with an exponent of 2^60 or more; and it does
    nothing else than one of the two. *)
Theorem exp_wraps_if_the_power_fits (a b : Int256) :
  (Z.log2 (unsigned a ^ unsigned b) < 2 ^ 20 ->
   int256.exp a b = Ok (word ((unsigned a ^ unsigned b) mod 2 ^ 256))) /\
  (unsigned a <= 1 ->
   int256.exp a b = Ok (word ((unsigned a ^ unsigned b) mod 2 ^ 256))) /\
  (2 ^ 60 <= Z.log2 (unsigned a ^ unsigned b) ->
   int256.exp a b = Raise MemoryError) /\
  (2 <= unsigned a -> 2 ^ 60 <= unsigned b ->
   int256.exp a b = Raise MemoryError) /\
  (int256.exp a b = Ok (word ((unsigned a ^ unsigned b) mod 2 ^ 256)) \/
   int256.exp a b = Raise MemoryError).
Proof.
  pose proof (unsigned_nonneg a) as Ha. pose proof (unsigned_nonneg b) as Hb.
  assert (P : forall v, from_int (v mod 2 ^ 256) = Ok (word (v mod 2 ^ 256))).
  { intros v. apply from_int_word. apply Z.mod_pos_bound. lia. }
  assert (F : Z.log2 (unsigned a ^ unsigned b) < 2 ^ 20 ->
              int256.exp a b
                = Ok (word ((unsigned a ^ unsigned b) mod 2 ^ 256))).
  { intros H. unfold int256.exp. rewrite pow_fits by exact H. apply P. }
  assert (L : 2 ^ 60 <= Z.log2 (unsigned a ^ unsigned b) ->
              int256.exp a b = Raise MemoryError).
  { intros H. unfold int256.exp. now rewrite pow_too_large by exact H. }
  split; [exact F|]. split.
  { intros H. apply F. rewrite log2_pow_small_base by lia. lia. }
  split; [exact L|]. split.
  { intros H2 H60. apply L.
    pose proof (log2_pow_large_base (unsigned a) (unsigned b) H2 Hb). lia. }
  unfold int256.exp, pow.
  destruct (_ <=? _); [now right|left; apply P].
Qed.

(** 3 to the power 5 is 243. *)
Lemma exp_wraps_if_the_power_fits_witness :
  Z.log2 (unsigned (word 3) ^ unsigned (word 5)) < 2 ^ 20 /\
  int256.exp (word 3) (word 5)
    = Ok (word ((unsigned (word 3) ^ unsigned (word 5)) mod 2 ^ 256)).
Proof.
  assert (H : Z.log2 (unsigned (word 3) ^ unsigned (word 5)) < 2 ^ 20)
    by (vm_compute; reflexivity).
  split; [exact H|].
  exact (proj1 (exp_wraps_if_the_power_fits (word 3) (word 5)) H).
Defined.

Lemma floordiv_nonzero (a b : Z) : b <> 0 -> floordiv a b = Ok (a / b).
Proof. intros N. unfold floordiv. now destruct (Z.eqb_spec b 0). Qed.

Lemma modulo_nonzero (a b : Z) : b <> 0 -> modulo a b = Ok (a mod b).
Proof. intros N. unfold modulo. now destruct (Z.eqb_spec b 0). Qed.

(** The guard of [addmod] and [mulmod] reads the modulus as signed, the
    division as unsigned: on a 32-byte word the two are zero together. *)
Lemma zero_views_agree (n : Int256) :
  length (_bytes_value n) = 32%nat -> (signed n =? 0) = (unsigned n =? 0).
Proof.
  intros Ln. pose proof (unsigned_lt n Ln) as Hn.
  rewrite (signed_as_unsigned n Ln).
  destruct (Z.leb_spec (2 ^ 255) (unsigned n));
    destruct (Z.eqb_spec (unsigned n) 0); lia.
Qed.

(** X2.  [div] and [mod_] on words built by the constructor never raise:
    a zero divisor gives the zero word, otherwise the result is the word of
    the floor quotient, respectively of the remainder, of the unsigned
    readings. *)
Theorem div_mod_total (a b : Int256) :
  length (_bytes_value a) = 32%nat ->
  length (_bytes_value b) = 32%nat ->
  int256.div a b =
    Ok (word (if unsigned b =? 0 then 0 else unsigned a / unsigned b)) /\
  int256.mod_ a b =
    Ok (word (if unsigned b =? 0 then 0 else unsigned a mod unsigned b)).
Proof.
  intros La Lb. pose proof (unsigned_lt a La) as Ha.
  pose proof (unsigned_lt b Lb) as Hb.
  unfold int256.div, int256.mod_.
  destruct (Z.eqb_spec (unsigned b) 0) as [E|E].
  - split; now apply from_int_word.
  - rewrite floordiv_nonzero, modulo_nonzero by exact E. cbn [bind].
    split; apply from_int_word.
    + split; [apply Z.div_pos; lia|].
      apply Z.le_lt_trans with (unsigned a); [|lia].
      apply Z.div_le_upper_bound; nia.
    + pose proof (Z.mod_pos_bound (unsigned a) (unsigned b)). lia.
Qed.

(** Two words built from integers. *)
Lemma div_mod_total_witness :
  int256.div (word 7) (word 2) =
    Ok (word (if unsigned (word 2) =? 0 then 0
              else unsigned (word 7) / unsigned (word 2))) /\
  int256.mod_ (word 7) (word 2) =
    Ok (word (if unsigned (word 2) =? 0 then 0
              else unsigned (word 7) mod unsigned (word 2))).
Proof. apply (div_mod_total (word 7) (word 2)); reflexivity. Defined.

Lemma sgn_is_Z_sgn (x : Z) : int256.sgn x = Z.sgn x.
Proof.
  unfold int256.sgn. destruct (Z.eqb_spec x 0) as [->|N]; [reflexivity|].
  destruct (Z.ltb_spec x 0); lia.
Qed.

Lemma rem_as_sign_times_mod (a b : Z) :
  b <> 0 -> Z.rem a b = Z.sgn a * (Z.abs a mod Z.abs b).
Proof.
  intros Hb.
  assert (P : forall x y, 0 <= x -> 0 < y -> Z.rem x y = x mod y)
    by (intros; now apply Z.rem_mod_nonneg).
  destruct (Z.lt_trichotomy a 0) as [A|[->|A]];
    destruct (Z.lt_trichotomy b 0) as [B|[B|B]]; try lia.
  - rewrite <- (Z.opp_involutive a) at 1. rewrite <- (Z.opp_involutive b) at 1.
    rewrite Z.rem_opp_l, Z.rem_opp_r by lia. rewrite P by lia.
    rewrite Z.abs_neq, (Z.abs_neq b) by lia. lia.
  - rewrite <- (Z.opp_involutive a) at 1.
    rewrite Z.rem_opp_l by lia. rewrite P by lia.
    rewrite Z.abs_neq, (Z.abs_eq b) by lia. lia.
  - now rewrite Z.rem_0_l.
  - now rewrite Z.rem_0_l.
  - rewrite <- (Z.opp_involutive b) at 1.
    rewrite Z.rem_opp_r by lia. rewrite P by lia.
    rewrite Z.abs_eq, (Z.abs_neq b) by lia. lia.
  - rewrite P by lia. rewrite Z.abs_eq, (Z.abs_eq b) by lia. lia.
Qed.

(** X3.  [smod] on words built by the constructor never raises: a zero
    divisor gives the zero word, and otherwise the signed reading of the
    result is the remainder of the division truncated toward zero, which
    has the sign of the dividend. *)
Theorem smod_is_truncated_remainder (a b : Int256) :
  length (_bytes_value a) = 32%nat ->
  length (_bytes_value b) = 32%nat ->
  exists r, int256.smod a b = Ok r /\
    length (_bytes_value r) = 32%nat /\
    signed r = (if signed b =? 0 then 0 else Z.rem (signed a) (signed b)).
Proof.
  intros La Lb. pose proof (signed_range a La) as Ha.
  pose proof (signed_range b Lb) as Hb.
  unfold int256.smod. destruct (Z.eqb_spec (signed b) 0) as [E|E].
  - exists (word 0). split; [now apply from_int_word|].
    split; [apply word_length|reflexivity].
  - rewrite modulo_nonzero by lia. cbn [bind].
    rewrite sgn_is_Z_sgn, <- rem_as_sign_times_mod by exact E.
    assert (R : - 2 ^ 255 <= Z.rem (signed a) (signed b) < 2 ^ 255).
    { pose proof (Z.rem_bound_abs (signed a) (signed b) E).
      destruct (Z.le_ge_cases 0 (signed a)) as [P|P].
      - pose proof (Z.rem_nonneg (signed a) (signed b) E P). lia.
      - pose proof (Z.rem_nonpos (signed a) (signed b) E P). lia. }
    exists (word (Z.rem (signed a) (signed b) mod 2 ^ 256)).
    split; [now apply from_signed_int_word|].
    split; [apply word_length|now apply signed_word_mod].
Qed.

(** -7 smod 2 is -1. *)
Lemma smod_witness :
  exists r, int256.smod (word (2 ^ 256 - 7)) (word 2) = Ok r /\
    length (_bytes_value r) = 32%nat /\
    signed r = (if signed (word 2) =? 0 then 0
                else Z.rem (signed (word (2 ^ 256 - 7))) (signed (word 2))).
Proof.
  apply (smod_is_truncated_remainder (word (2 ^ 256 - 7)) (word 2));
    reflexivity.
Defined.

(** X4.  [addmod] and [mulmod] on a modulus built by the constructor never
    raise: the sum or product of the unsigned readings is taken in full,
    without wrapping at 2^256, and then reduced; a zero modulus gives the
    zero word. *)
Theorem addmod_mulmod_full_precision (a b n : Int256) :
  length (_bytes_value n) = 32%nat ->
  int256.addmod a b n =
    Ok (word (if unsigned n =? 0 then 0
              else (unsigned a + unsigned b) mod unsigned n)) /\
  int256.mulmod a b n =
    Ok (word (if unsigned n =? 0 then 0
              else (unsigned a * unsigned b) mod unsigned n)).
Proof.
  intros Ln. pose proof (unsigned_lt n Ln) as Hn.
  unfold int256.addmod, int256.mulmod. rewrite (zero_views_agree n Ln).
  destruct (Z.eqb_spec (unsigned n) 0) as [E|E].
  - split; now apply from_int_word.
  - rewrite !modulo_nonzero by exact E. cbn [bind].
    split; apply from_int_word.
    + pose proof (Z.mod_pos_bound (unsigned a + unsigned b) (unsigned n)).
      lia.
    + pose proof (Z.mod_pos_bound (unsigned a * unsigned b) (unsigned n)).
      lia.
Qed.

(** (2^256 - 1) + 2 modulo 3. *)
Lemma addmod_mulmod_witness :
  int256.addmod (word (2 ^ 256 - 1)) (word 2) (word 3) =
    Ok (word (if unsigned (word 3) =? 0 then 0
              else (unsigned (word (2 ^ 256 - 1)) + unsigned (word 2))
                   mod unsigned (word 3))) /\
  int256.mulmod (word (2 ^ 256 - 1)) (word 2) (word 3) =
    Ok (word (if unsigned (word 3) =? 0 then 0
              else (unsigned (word (2 ^ 256 - 1)) * unsigned (word 2))
                   mod unsigned (word 3))).
Proof.
  apply (addmod_mulmod_full_precision (word (2 ^ 256 - 1)) (word 2) (word 3)).
  reflexivity.
Defined.

Lemma below_pow2_log2 (a n : Z) :
  0 <= n -> 0 <= a -> (a < 2 ^ n <-> a = 0 \/ Z.log2 a < n).
Proof.
  intros Hn Ha. destruct (Z.eq_dec a 0) as [->|N].
  - split; [now left|]. intros _. apply Z.pow_pos_nonneg; lia.
  - rewrite (Z.log2_lt_pow2 a n) by lia. split; [now right|].
    intros [?|?]; [contradiction|assumption].
Qed.

Lemma bitwise_bounds (a b n : Z) :
  0 <= n -> 0 <= a < 2 ^ n -> 0 <= b < 2 ^ n ->
  0 <= Z.land a b < 2 ^ n /\ 0 <= Z.lor a b < 2 ^ n /\
  0 <= Z.lxor a b < 2 ^ n.
Proof.
  intros Hn [A0 A1] [B0 B1].
  apply (below_pow2_log2 a n Hn A0) in A1.
  apply (below_pow2_log2 b n Hn B0) in B1.
  assert (L0 : 0 <= Z.land a b) by (apply Z.land_nonneg; now left).
  assert (O0 : 0 <= Z.lor a b) by (apply Z.lor_nonneg; now split).
  assert (X0 : 0 <= Z.lxor a b) by (apply Z.lxor_nonneg; lia).
  pose proof (Z.log2_land a b A0 B0) as L.
  pose proof (Z.log2_lor a b A0 B0) as O.
  pose proof (Z.log2_lxor a b A0 B0) as X.
  pose proof (Z.log2_nonneg (Z.land a b)).
  assert (Z.log2 0 = 0) by reflexivity.
  repeat split; try assumption;
    apply below_pow2_log2; try assumption.
  - destruct A1 as [->|A1]; [left; apply Z.land_0_l|].
    destruct B1 as [->|B1]; [left; apply Z.land_0_r|]. right. lia.
  - destruct A1 as [->|A1]; [rewrite Z.lor_0_l; assumption|].
    destruct B1 as [->|B1]; [rewrite Z.lor_0_r; now right|]. right. lia.
  - destruct A1 as [->|A1]; [rewrite Z.lxor_0_l; assumption|].
    destruct B1 as [->|B1]; [rewrite Z.lxor_0_r; now right|]. right. lia.
Qed.

(** X5.  [and_], [or_] and [xor] on words built by the constructor never
    raise: the result is the word of the bitwise operation on the unsigned
    readings, which stays below 2^256. *)
Theorem bitwise_total (a b : Int256) :
  length (_bytes_value a) = 32%nat ->
  length (_bytes_value b) = 32%nat ->
  int256.and_ a b = Ok (word (Z.land (unsigned a) (unsigned b))) /\
  int256.or_ a b = Ok (word (Z.lor (unsigned a) (unsigned b))) /\
  int256.xor a b = Ok (word (Z.lxor (unsigned a) (unsigned b))) /\
  unsigned (word (Z.land (unsigned a) (unsigned b)))
    = Z.land (unsigned a) (unsigned b) /\
  unsigned (word (Z.lor (unsigned a) (unsigned b)))
    = Z.lor (unsigned a) (unsigned b) /\
  unsigned (word (Z.lxor (unsigned a) (unsigned b)))
    = Z.lxor (unsigned a) (unsigned b).
Proof.
  intros La Lb.
  destruct (bitwise_bounds (unsigned a) (unsigned b) 256)
    as (L & O & X); [lia|now apply unsigned_lt..|].
  unfold int256.and_, int256.or_, int256.xor.
  rewrite !from_int_word, !unsigned_word by assumption.
  repeat split.
Qed.

(** Two words built from integers. *)
Lemma bitwise_witness :
  int256.and_ (word 12) (word 10)
    = Ok (word (Z.land (unsigned (word 12)) (unsigned (word 10)))) /\
  int256.or_ (word 12) (word 10)
    = Ok (word (Z.lor (unsigned (word 12)) (unsigned (word 10)))) /\
  int256.xor (word 12) (word 10)
    = Ok (word (Z.lxor (unsigned (word 12)) (unsigned (word 10)))) /\
  unsigned (word (Z.land (unsigned (word 12)) (unsigned (word 10))))
    = Z.land (unsigned (word 12)) (unsigned (word 10)) /\
  unsigned (word (Z.lor (unsigned (word 12)) (unsigned (word 10))))
    = Z.lor (unsigned (word 12)) (unsigned (word 10)) /\
  unsigned (word (Z.lxor (unsigned (word 12)) (unsigned (word 10))))
    = Z.lxor (unsigned (word 12)) (unsigned (word 10)).
Proof. apply (bitwise_total (word 12) (word 10)); reflexivity. Defined.

(** X6.  [not_] on a word built by the constructor returns the bitwise
    complement, the word 2^256 - 1 - u, exactly when the unsigned reading
    u is below 2^255; for every other word it raises OverflowError. *)
Theorem not__complements_low_half_only (w : Int256) :
  length (_bytes_value w) = 32%nat ->
  int256.not_ w =
    if unsigned w <? 2 ^ 255
    then Ok (word (2 ^ 256 - 1 - unsigned w))
    else Raise OverflowError.
Proof.
  intros L. pose proof (unsigned_lt w L) as H.
  assert (I : init (_bytes_value w) = Ok w).
  { unfold init, len. rewrite L. now destruct w. }
  destruct (Z.ltb_spec (unsigned w) (2 ^ 255)) as [Lo|Hi].
  - unfold int256.not_.
    assert (E : Z.lnot (unsigned w) = - unsigned w - 1)
      by (unfold Z.lnot; lia).
    rewrite E, from_signed_int_word by lia. do 2 f_equal.
    symmetry. apply (Z.mod_unique _ (2 ^ 256) (-1)); lia.
  - now apply (not__high (_bytes_value w)).
Qed.

(** The word 5 and its complement. *)
Lemma not__witness :
  int256.not_ (word 5) =
    if unsigned (word 5) <? 2 ^ 255
    then Ok (word (2 ^ 256 - 1 - unsigned (word 5)))
    else Raise OverflowError.
Proof. apply (not__complements_low_half_only (word 5)). reflexivity. Defined.

Lemma bytes_of_equal_unsigned (a b : Int256) :
  length (_bytes_value a) = 32%nat ->
  length (_bytes_value b) = 32%nat ->
  unsigned a = unsigned b -> _bytes_value a = _bytes_value b.
Proof.
  intros La Lb E.
  pose proof (from_int_unsigned (_bytes_value a) La) as Ia.
  pose proof (from_int_unsigned (_bytes_value b) Lb) as Ib.
  unfold unsigned in E. rewrite E in Ia. rewrite Ia in Ib.
  now injection Ib.
Qed.

(** X7.  The comparisons never raise and return the word 1 or the word 0:
    [lt] and [gt] compare the unsigned readings, [slt] and [sgt] the signed
    ones, [iszero] tests the unsigned reading, and [eq], which compares the
    bytes, agrees with equality of the unsigned readings on words built by
    the constructor. *)
Theorem comparisons_return_one_or_zero (a b : Int256) :
  length (_bytes_value a) = 32%nat ->
  length (_bytes_value b) = 32%nat ->
  int256.lt a b = Ok (word (if unsigned a <? unsigned b then 1 else 0)) /\
  int256.gt a b = Ok (word (if unsigned b <? unsigned a then 1 else 0)) /\
  int256.slt a b = Ok (word (if signed a <? signed b then 1 else 0)) /\
  int256.sgt a b = Ok (word (if signed b <? signed a then 1 else 0)) /\
  int256.iszero a = Ok (word (if unsigned a =? 0 then 1 else 0)) /\
  int256.eq a b = Ok (word (if unsigned a =? unsigned b then 1 else 0)).
Proof.
  intros La Lb.
  assert (P1 : from_int 1 = Ok (word 1)) by (apply from_int_word; lia).
  assert (P0 : from_int 0 = Ok (word 0)) by (apply from_int_word; lia).
  unfold int256.lt, int256.gt, int256.slt, int256.sgt, int256.iszero,
    int256.eq.
  repeat split; try (destruct (_ <? _); assumption).
  - destruct (_ =? _); assumption.
  - destruct (Z.eqb_spec (unsigned a) (unsigned b)) as [E|N].
    + rewrite bool_decide_eq_true_2; [exact P1|].
      now apply bytes_of_equal_unsigned.
    + rewrite bool_decide_eq_false_2; [exact P0|].
      intros E. apply N. unfold unsigned. now rewrite E.
Qed.

(** 3 and 2^256 - 1, that is -1. *)
Lemma comparisons_witness :
  int256.lt (word 3) (word (2 ^ 256 - 1))
    = Ok (word (if unsigned (word 3) <? unsigned (word (2 ^ 256 - 1))
                then 1 else 0)) /\
  int256.gt (word 3) (word (2 ^ 256 - 1))
    = Ok (word (if unsigned (word (2 ^ 256 - 1)) <? unsigned (word 3)
                then 1 else 0)) /\
  int256.slt (word 3) (word (2 ^ 256 - 1))
    = Ok (word (if signed (word 3) <? signed (word (2 ^ 256 - 1))
                then 1 else 0)) /\
  int256.sgt (word 3) (word (2 ^ 256 - 1))
    = Ok (word (if signed (word (2 ^ 256 - 1)) <? signed (word 3)
                then 1 else 0)) /\
  int256.iszero (word 3)
    = Ok (word (if unsigned (word 3) =? 0 then 1 else 0)) /\
  int256.eq (word 3) (word (2 ^ 256 - 1))
    = Ok (word (if unsigned (word 3) =? unsigned (word (2 ^ 256 - 1))
                then 1 else 0)).
Proof.
  apply (comparisons_return_one_or_zero (word 3) (word (2 ^ 256 - 1)));
    reflexivity.
Defined.

Lemma lshift_zero (n : Z) : lshift 0 n = Ok 0.
Proof. reflexivity. Qed.

Lemma lshift_fits (a n : Z) :
  0 < a -> 0 <= n -> Z.log2 a + n < 2 ^ 20 ->
  lshift a n = Ok (a * 2 ^ n).
Proof.
  intros Ha Hn H. pose proof int_max_bits_range as R.
  pose proof (Z.log2_nonneg a) as L. unfold lshift, digits, MAX_LONG_DIGITS.
  destruct (Z.eqb_spec a 0); [lia|].
  destruct (Z.ltb_spec (2 ^ 61 - 7)
              (Z.log2 a / 30 + 1 + n / 30
               + (if n mod 30 =? 0 then 0 else 1))) as [D|_].
  { exfalso.
    assert (Q1 : Z.log2 a / 30 <= Z.log2 a)
      by (apply Z.div_le_upper_bound; lia).
    assert (Q2 : n / 30 <= n) by (apply Z.div_le_upper_bound; lia).
    destruct (n mod 30 =? 0); lia. }
  rewrite Z.log2_shiftl by lia.
  destruct (Z.leb_spec int_max_bits (Z.log2 a + n)); [lia|].
  now rewrite Z.shiftl_mul_pow2 by exact Hn.
Qed.

Lemma lshift_too_many_digits (a n : Z) :
  0 < a -> 30 * 2 ^ 61 <= n -> lshift a n = Raise OverflowError.
Proof.
  intros Ha Hn. pose proof (Z.log2_nonneg a) as L.
  unfold lshift, digits, MAX_LONG_DIGITS.
  destruct (Z.eqb_spec a 0); [lia|].
  destruct (Z.ltb_spec (2 ^ 61 - 7)
              (Z.log2 a / 30 + 1 + n / 30
               + (if n mod 30 =? 0 then 0 else 1))) as [_|D];
    [reflexivity|].
  exfalso.
  assert (Q1 : 0 <= Z.log2 a / 30) by (apply Z.div_pos; lia).
  assert (Q2 : 2 ^ 61 <= n / 30) by (apply Z.div_le_lower_bound; lia).
  destruct (n mod 30 =? 0); lia.
Qed.

Lemma lshift_too_large (a n : Z) :
  0 < a -> 2 ^ 60 <= n ->
  lshift a n = Raise MemoryError \/ lshift a n = Raise OverflowError.
Proof.
  intros Ha Hn. pose proof int_max_bits_range as R.
  pose proof (Z.log2_nonneg a) as L. unfold lshift.
  destruct (Z.eqb_spec a 0); [lia|].
  destruct (_ <? _); [now right|].
  rewrite Z.log2_shiftl by lia.
  destruct (Z.leb_spec int_max_bits (Z.log2 a + n)); [now left|lia].
Qed.

(** X8.  [shl] takes the shift in full before it reduces it, so that it
    returns only if the interpreter can hold the shifted integer.  A zero
    value gives the zero word whatever the count.  Otherwise, when the
    shifted integer has at most 2^20 bits, the result is the word of the
    unsigned reading times 2 to the count, reduced modulo 2^256, which is
    the zero word as soon as the count is 256 or more; a count of 30 * 2^61
    or more raises OverflowError, and a count of 2^60 or more never
    returns. *)
Theorem shl_wraps (a b : Int256) :
  (unsigned a = 0 -> int256.shl a b = Ok (word 0)) /\
  (Z.log2 (unsigned a) + unsigned b < 2 ^ 20 ->
   int256.shl a b = Ok (word ((unsigned a * 2 ^ unsigned b) mod 2 ^ 256)) /\
   (256 <= unsigned b -> int256.shl a b = Ok (word 0))) /\
  (unsigned a <> 0 -> 30 * 2 ^ 61 <= unsigned b ->
   int256.shl a b = Raise OverflowError) /\
  (unsigned a <> 0 -> 2 ^ 60 <= unsigned b ->
   int256.shl a b = Raise MemoryError \/
   int256.shl a b = Raise OverflowError).
Proof.
  pose proof (unsigned_nonneg a) as Ha. pose proof (unsigned_nonneg b) as Hb.
  assert (Z0 : unsigned a = 0 -> int256.shl a b = Ok (word 0)).
  { intros E. unfold int256.shl. rewrite E, lshift_zero. reflexivity. }
  split; [exact Z0|]. split; [|split].
  - intros H.
    assert (E : int256.shl a b
                = Ok (word ((unsigned a * 2 ^ unsigned b) mod 2 ^ 256))).
    { destruct (Z.eq_dec (unsigned a) 0) as [N|N].
      - rewrite (Z0 N), N. reflexivity.
      - unfold int256.shl. rewrite lshift_fits by lia. cbn [bind].
        apply from_int_word. apply Z.mod_pos_bound. lia. }
    split; [exact E|]. intros H256. rewrite E. do 2 f_equal.
    replace (unsigned b) with (256 + (unsigned b - 256)) by lia.
    rewrite Z.pow_add_r by lia.
    replace (unsigned a * (2 ^ 256 * 2 ^ (unsigned b - 256)))
      with (unsigned a * 2 ^ (unsigned b - 256) * 2 ^ 256) by ring.
    apply Z.mod_mul. lia.
  - intros N H. unfold int256.shl.
    now rewrite lshift_too_many_digits by lia.
  - intros N H. unfold int256.shl.
    destruct (lshift_too_large (unsigned a) (unsigned b)) as [-> | ->];
      [lia|lia|now left|now right].
Qed.

(** 3 shifted by 4 is 48, and by 300 is zero. *)
Lemma shl_wraps_witness :
  Z.log2 (unsigned (word 3)) + unsigned (word 300) < 2 ^ 20 /\
  int256.shl (word 3) (word 4) = Ok (word 48) /\
  int256.shl (word 3) (word 300) = Ok (word 0).
Proof.
  assert (H4 : Z.log2 (unsigned (word 3)) + unsigned (word 4) < 2 ^ 20)
    by (vm_compute; reflexivity).
  assert (H300 : Z.log2 (unsigned (word 3)) + unsigned (word 300) < 2 ^ 20)
    by (vm_compute; reflexivity).
  split; [exact H300|]. split.
  - exact (proj1 (proj1 (proj2 (shl_wraps (word 3) (word 4))) H4)).
  - apply (proj2 (proj1 (proj2 (shl_wraps (word 3) (word 300))) H300)).
    vm_compute. discriminate.
Defined.

Lemma from_bytes_unsigned_app (l1 l2 : list Byte.byte) :
  from_bytes_unsigned (l1 ++ l2)
    = from_bytes_unsigned l1 * 2 ^ (8 * len l2) + from_bytes_unsigned l2.
Proof.
  induction l2 as [|x l2 IH] using rev_ind.
  - rewrite app_nil_r. unfold len. cbn. lia.
  - rewrite app_assoc, !from_bytes_unsigned_snoc, IH. unfold len.
    rewrite length_app, Nat2Z.inj_add. cbn [length].
    replace (8 * (Z.of_nat (length l2) + Z.of_nat 1))
      with (8 * Z.of_nat (length l2) + 8) by lia.
    rewrite Z.pow_add_r by lia. change (2 ^ 8) with 256. ring.
Qed.

Lemma nth_byte_value (l : list Byte.byte) (n : nat) (b : Byte.byte) :
  nth_error l n = Some b ->
  byte_to_Z b
    = (from_bytes_unsigned l / 2 ^ (8 * (len l - 1 - Z.of_nat n))) mod 256.
Proof.
  intros H. apply nth_error_split in H as (l1 & l2 & -> & <-).
  rewrite from_bytes_unsigned_app.
  change (b :: l2) with ([b] ++ l2). rewrite from_bytes_unsigned_app.
  unfold len. rewrite !length_app. cbn [length].
  replace (Z.of_nat (length l1 + (1 + length l2)) - 1 - Z.of_nat (length l1))
    with (Z.of_nat (length l2)) by lia.
  replace (Z.of_nat (1 + length l2)) with (Z.of_nat (length l2) + 1) by lia.
  replace (8 * (Z.of_nat (length l2) + 1))
    with (8 + 8 * Z.of_nat (length l2)) by lia.
  rewrite Z.pow_add_r by lia. change (2 ^ 8) with 256.
  pose proof (from_bytes_unsigned_range l2) as R2. unfold len in R2.
  pose proof (byte_to_Z_range b) as Rb.
  set (P := 2 ^ (8 * Z.of_nat (length l2))) in *.
  assert (HP : 0 < P) by (apply Z.pow_pos_nonneg; lia).
  change (from_bytes_unsigned [b]) with (0 * 256 + byte_to_Z b).
  replace (from_bytes_unsigned l1 * (256 * P)
           + ((0 * 256 + byte_to_Z b) * P + from_bytes_unsigned l2))
    with (from_bytes_unsigned l2
          + (from_bytes_unsigned l1 * 256 + byte_to_Z b) * P) by ring.
  rewrite Z.div_add by lia. rewrite Z.div_small by lia.
  rewrite Z.add_0_l, (Z.add_comm (from_bytes_unsigned l1 * 256)).
  rewrite Z.mod_add by lia. symmetry. now apply Z.mod_small.
Qed.

(** X9.  [byte] on a word built by the constructor: an index from 0 to 31
    selects that byte, counted from the most significant end, and returns
    it as a word; an index of 32 or more raises IndexError, and so does the
    BYTE handler when the word on top of the stack is 32 or more. *)
Theorem byte_selects_or_raises (w : Int256) (index : Z) :
  length (_bytes_value w) = 32%nat -> 0 <= index ->
  int256.byte w index =
    (if index <? 32
     then Ok (word ((unsigned w / 2 ^ (8 * (31 - index))) mod 256))
     else Raise IndexError) /\
  (forall (st : MachineState) (idx : Int256) (rest : list Int256),
     s st = idx :: w :: rest -> 32 <= unsigned idx ->
     evm.byte st = (Raise IndexError, with_s rest st)).
Proof.
  intros L H0.
  assert (B : forall j, 32 <= j -> int256.byte w j = Raise IndexError).
  { intros j Hj. unfold int256.byte. rewrite index_out_of_bounds; [easy|].
    unfold len. lia. }
  split.
  - destruct (Z.ltb_spec index 32) as [Lt|Ge]; [|now apply B].
    unfold int256.byte.
    destruct (index_in_bounds (_bytes_value w) index) as (b & I & N);
      [unfold len; lia|].
    rewrite I. cbn [bind]. pose proof (byte_to_Z_range b).
    rewrite from_int_word by lia. do 2 f_equal.
    rewrite (nth_byte_value _ _ _ N). unfold unsigned, len. rewrite L.
    do 3 f_equal. lia.
  - intros st idx rest E Hi.
    unfold evm.byte, mbind, s_pop, lift. rewrite E. cbn [s with_s].
    now rewrite (B _ Hi).
Qed.

(** Byte 31 of the word 0x1234 is 0x34. *)
Lemma byte_witness :
  int256.byte (word 0x1234) 31 =
    (if 31 <? 32
     then Ok (word ((unsigned (word 0x1234) / 2 ^ (8 * (31 - 31))) mod 256))
     else Raise IndexError) /\
  (forall (st : MachineState) (idx : Int256) (rest : list Int256),
     s st = idx :: word 0x1234 :: rest -> 32 <= unsigned idx ->
     evm.byte st = (Raise IndexError, with_s rest st)).
Proof.
  apply (byte_selects_or_raises (word 0x1234) 31); [reflexivity|lia].
Defined.

(** X10.  The handlers of SHR and SAR never return: with fewer than two
    words on the stack they raise IndexError, and otherwise TypeError,
    because they hand the shift count to [>>] as a word and not as an
    integer.  Given an integer count, as their signatures announce, [shr]
    on a word built by the constructor returns the word of the unsigned
    reading divided by 2 to that count. *)
Theorem shr_sar_handlers_raise (st : MachineState) :
  (evm.shr st).1 =
    Raise (if (length (s st) <? 2)%nat then IndexError else TypeError) /\
  (evm.sar st).1 =
    Raise (if (length (s st) <? 2)%nat then IndexError else TypeError) /\
  (forall (w : Int256) (n : Z),
     length (_bytes_value w) = 32%nat -> 0 <= n ->
     int256.shr w (Int n) = Ok (word (unsigned w / 2 ^ n))).
Proof.
  split; [|split].
  - unfold evm.shr, mbind, s_pop, lift.
    destruct (s st) as [|a [|b rest]]; reflexivity.
  - unfold evm.sar, mbind, s_pop, lift.
    destruct (s st) as [|a [|b rest]]; reflexivity.
  - intros w n L Hn. pose proof (unsigned_lt w L) as H.
    unfold int256.shr, rshift.
    destruct (Z.ltb_spec n 0); [lia|]. cbn [bind].
    rewrite Z.shiftr_div_pow2 by exact Hn. apply from_int_word.
    assert (0 < 2 ^ n) by (apply Z.pow_pos_nonneg; lia).
    split; [apply Z.div_pos; lia|].
    apply Z.le_lt_trans with (unsigned w); [|lia].
    apply Z.div_le_upper_bound; nia.
Qed.

Lemma index_raises_below {A : Type} (l : list A) (j : Z) :
  j < - len l -> py.index l j = Raise IndexError.
Proof.
  intros H. unfold py.index. unfold len in *.
  destruct (Z.ltb_spec j 0) as [_|?]; [|lia].
  destruct (Z.ltb_spec (j + Z.of_nat (length l)) 0) as [_|?]; [|lia].
  reflexivity.
Qed.

Lemma slice_to_end (l : list Byte.byte) (a : Z) :
  length l = 32%nat -> -32 <= a <= 32 ->
  slice l a 32 = skipn (Z.to_nat (if a <? 0 then a + 32 else a)) l.
Proof.
  intros L H. unfold slice.
  assert (Ca : clamp l a = if a <? 0 then a + 32 else a).
  { unfold clamp, len. rewrite L. destruct (Z.ltb_spec a 0); lia. }
  assert (Cb : clamp l 32 = 32) by (unfold clamp, len; rewrite L; reflexivity).
  rewrite Ca, Cb. apply firstn_all2. rewrite length_skipn, L.
  destruct (Z.ltb_spec a 0); lia.
Qed.

Lemma sign_bit_of_byte (b : Byte.byte) :
  negb (Z.shiftr (byte_to_Z b) 7 =? 0) = (128 <=? byte_to_Z b).
Proof.
  pose proof (byte_to_Z_range b) as R.
  rewrite Z.shiftr_div_pow2 by lia. change (2 ^ 7) with 128.
  destruct (Z.leb_spec 128 (byte_to_Z b)) as [G|G].
  - assert (1 <= byte_to_Z b / 128)
      by (apply Z.div_le_lower_bound; lia).
    destruct (Z.eqb_spec (byte_to_Z b / 128) 0); [lia|reflexivity].
  - rewrite Z.div_small by lia. reflexivity.
Qed.

(** X11.  [signextend] on a word built by the constructor, for a size
    operand k.  For k from 0 to 31 it returns a 32-byte word whose low
    k + 1 bytes are those of the input and whose other bytes are all 0xff
    or all 0x00 according to the top bit of byte k.  For k = 63 it returns
    the input, for k from 32 to 62 it raises ValueError and for k of 64 or
    more IndexError. *)
Theorem signextend_by_size (self other : Int256) :
  length (_bytes_value self) = 32%nat ->
  (unsigned other <= 31 ->
   exists r, int256.signextend self other = Ok r /\
     length (_bytes_value r) = 32%nat /\
     firstn (Z.to_nat (31 - unsigned other)) (_bytes_value r)
       = repeat (if 128 <=? (unsigned self / 2 ^ (8 * unsigned other))
                              mod 256
                 then xff else x00)
           (Z.to_nat (31 - unsigned other)) /\
     skipn (Z.to_nat (31 - unsigned other)) (_bytes_value r)
       = skipn (Z.to_nat (31 - unsigned other)) (_bytes_value self)) /\
  (32 <= unsigned other <= 62 ->
   int256.signextend self other = Raise ValueError) /\
  (unsigned other = 63 -> int256.signextend self other = Ok self) /\
  (64 <= unsigned other ->
   int256.signextend self other = Raise IndexError).
Proof.
  intros L. pose proof (unsigned_nonneg other) as K0.
  set (k := unsigned other) in *. unfold int256.signextend. fold k.
  split; [|split; [|split]].
  - intros K.
    destruct (index_in_bounds (_bytes_value self) (31 - k)) as (b & I & N);
      [unfold len; lia|].
    rewrite I. cbn [bind]. rewrite sign_bit_of_byte.
    rewrite (nth_byte_value _ _ _ N). unfold len. rewrite L.
    replace (8 * (Z.of_nat 32 - 1 - Z.of_nat (Z.to_nat (31 - k))))
      with (8 * k) by lia.
    fold (unsigned self).
    rewrite slice_to_end by (try exact L; lia).
    destruct (Z.ltb_spec (31 - k) 0) as [?|_]; [lia|].
    set (fill := if 128 <=? (unsigned self / 2 ^ (8 * k)) mod 256
                 then xff else x00).
    assert (E : (if 128 <=? (unsigned self / 2 ^ (8 * k)) mod 256
                 then init (repeat_byte xff (31 - k)
                            ++ skipn (Z.to_nat (31 - k)) (_bytes_value self))
                 else init (repeat_byte x00 (31 - k)
                            ++ skipn (Z.to_nat (31 - k)) (_bytes_value self)))
                = init (repeat fill (Z.to_nat (31 - k))
                        ++ skipn (Z.to_nat (31 - k)) (_bytes_value self))).
    { unfold fill, repeat_byte. now destruct (128 <=? _). }
    rewrite E. clear E.
    assert (Len : length (repeat fill (Z.to_nat (31 - k))
                          ++ skipn (Z.to_nat (31 - k)) (_bytes_value self))
                  = 32%nat).
    { rewrite length_app, repeat_length, length_skipn, L. lia. }
    eexists. split; [unfold init, len; rewrite Len; reflexivity|].
    cbn [_bytes_value]. split; [exact Len|]. split.
    + rewrite firstn_app, repeat_length, Nat.sub_diag. cbn [firstn].
      rewrite app_nil_r. apply firstn_all2. now rewrite repeat_length.
    + rewrite skipn_app, repeat_length, Nat.sub_diag. cbn [skipn].
      rewrite skipn_all2 by (now rewrite repeat_length). reflexivity.
  - intros K.
    destruct (index_in_bounds (_bytes_value self) (63 - k)) as (b & I & N);
      [unfold len; lia|].
    assert (I' : py.index (_bytes_value self) (31 - k) = Ok b).
    { unfold py.index in *. unfold len in *. rewrite L in *.
      destruct (Z.ltb_spec (31 - k) 0) as [_|?]; [|lia].
      destruct (Z.ltb_spec (63 - k) 0) as [?|_]; [lia|].
      now replace (31 - k + Z.of_nat 32) with (63 - k) by lia. }
    rewrite I'. cbn [bind]. rewrite slice_to_end by (try exact L; lia).
    assert (R : forall x, repeat_byte x (31 - k) = []).
    { intros x. unfold repeat_byte.
      now replace (Z.to_nat (31 - k)) with 0%nat by lia. }
    rewrite !R. cbn [app].
    assert (Bad : init (skipn (Z.to_nat
                   (if 31 - k <? 0 then 31 - k + 32 else 31 - k))
                   (_bytes_value self)) = Raise ValueError).
    { unfold init, len. rewrite length_skipn, L.
      destruct (Z.ltb_spec (31 - k) 0) as [_|?]; [|lia].
      destruct (Z.eqb_spec
        (Z.of_nat (32 - Z.to_nat (31 - k + 32))) 32); [lia|reflexivity]. }
    rewrite Bad. now destruct (negb _).
  - intros K.
    destruct (index_in_bounds (_bytes_value self) 0) as (b & I & N);
      [unfold len; lia|].
    assert (I' : py.index (_bytes_value self) (31 - k) = Ok b).
    { rewrite K. unfold py.index in *. unfold len in *. rewrite L in *.
      exact I. }
    rewrite I'. cbn [bind]. rewrite slice_to_end by (try exact L; lia).
    assert (R : forall x, repeat_byte x (31 - k) = [])
      by (intros x; rewrite K; reflexivity).
    assert (S : skipn (Z.to_nat
                  (if 31 - k <? 0 then 31 - k + 32 else 31 - k))
                  (_bytes_value self) = _bytes_value self)
      by (rewrite K; reflexivity).
    assert (G : init (_bytes_value self) = Ok self).
    { unfold init, len. rewrite L. now destruct self. }
    rewrite !R, S. cbn [app]. rewrite G. now destruct (negb _).
  - intros K. rewrite index_raises_below; [reflexivity|].
    unfold len. lia.
Qed.

(** The word 0x80 extended from its lowest byte. *)
Lemma signextend_witness :
  (unsigned (word 0) <= 31 ->
   exists r, int256.signextend (word 0x80) (word 0) = Ok r /\
     length (_bytes_value r) = 32%nat /\
     firstn (Z.to_nat (31 - unsigned (word 0))) (_bytes_value r)
       = repeat (if 128 <=? (unsigned (word 0x80)
                             / 2 ^ (8 * unsigned (word 0))) mod 256
                 then xff else x00)
           (Z.to_nat (31 - unsigned (word 0))) /\
     skipn (Z.to_nat (31 - unsigned (word 0))) (_bytes_value r)
       = skipn (Z.to_nat (31 - unsigned (word 0)))
           (_bytes_value (word 0x80))) /\
  (32 <= unsigned (word 0) <= 62 ->
   int256.signextend (word 0x80) (word 0) = Raise ValueError) /\
  (unsigned (word 0) = 63 ->
   int256.signextend (word 0x80) (word 0) = Ok (word 0x80)) /\
  (64 <= unsigned (word 0) ->
   int256.signextend (word 0x80) (word 0) = Raise IndexError).
Proof. apply (signextend_by_size (word 0x80) (word 0)). reflexivity. Defined.

(** ** PUSH, DUP and SWAP *)

Lemma from_bytes_zeros (n : nat) : from_bytes_unsigned (repeat x00 n) = 0.
Proof.
  induction n as [|n IH]; [reflexivity|].
  change (repeat x00 (S n)) with ([x00] ++ repeat x00 n).
  rewrite from_bytes_unsigned_app, IH. reflexivity.
Qed.

Lemma slice_forward {A : Type} (l : list A) (a b : Z) :
  0 <= a <= b ->
  slice l a b = firstn (Z.to_nat (b - a)) (skipn (Z.to_nat a) l) /\
  length (slice l a b) = Z.to_nat (Z.min b (len l) - Z.min a (len l)).
Proof.
  intros [Ha Hb]. unfold slice, clamp.
  destruct (Z.ltb_spec a 0) as [?|_]; [lia|].
  destruct (Z.ltb_spec b 0) as [?|_]; [lia|].
  assert (Ea : Z.max 0 (Z.min a (len l)) = Z.min a (len l))
    by (unfold len; lia).
  assert (Eb : Z.max 0 (Z.min b (len l)) = Z.min b (len l))
    by (unfold len; lia).
  rewrite Ea, Eb. split.
  - destruct (Z.le_gt_cases a (len l)) as [In|Out].
    + rewrite (Z.min_l a) by lia.
      destruct (Z.le_gt_cases b (len l)) as [Ib|Ob].
      * now rewrite (Z.min_l b) by lia.
      * rewrite (Z.min_r b) by lia.
        rewrite !firstn_all2; [reflexivity|..];
          rewrite length_skipn; unfold len in *; lia.
    + rewrite !(Z.min_r _ (len l)) by lia.
      rewrite !skipn_all2 by (unfold len in *; lia).
      now rewrite !firstn_nil.
  - rewrite length_firstn, length_skipn. unfold len in *. lia.
Qed.

(** X12.  PUSHn, for n from 1 to 32, at a program counter that is not
    negative.  When n bytes follow the opcode, it pushes a 32-byte word
    whose unsigned reading is the big-endian value of those n bytes and
    advances the program counter by 1 + n, leaving the rest of the state
    alone.  When fewer than n bytes follow, it raises ValueError and leaves
    the whole state as it was. *)
Theorem push_n_reads_immediate (n : Z) (st : MachineState) :
  1 <= n <= 32 -> 0 <= pc st ->
  (pc st + 1 + n <= len (code st) ->
   exists w,
     push_n n st = (Ok tt, with_pc (pc st + (1 + n)) (with_s (w :: s st) st)) /\
     length (_bytes_value w) = 32%nat /\
     unsigned w
       = from_bytes_unsigned
           (firstn (Z.to_nat n) (skipn (Z.to_nat (pc st + 1)) (code st)))) /\
  (len (code st) < pc st + 1 + n ->
   push_n n st = (Raise ValueError, st)).
Proof.
  intros Hn Hp.
  destruct (slice_forward (code st) (pc st + 1) (pc st + 1 + n))
    as [Sl Ln]; [lia|].
  replace (pc st + 1 + n - (pc st + 1)) with n in Sl by lia.
  unfold push_n, mbind, get, lift, repeat_byte.
  set (data := repeat x00 (Z.to_nat (32 - n))
               ++ slice (code st) (pc st + 1) (pc st + 1 + n)).
  assert (Ld : len data
               = 32 - n + (Z.min (pc st + 1 + n) (len (code st))
                           - Z.min (pc st + 1) (len (code st)))).
  { unfold data, len. rewrite length_app, repeat_length, Ln.
    unfold len. lia. }
  split.
  - intros Full. unfold init. rewrite Ld.
    destruct (Z.eqb_spec
      (32 - n + (Z.min (pc st + 1 + n) (len (code st))
                 - Z.min (pc st + 1) (len (code st)))) 32) as [_|N]; [|lia].
    cbn [negb]. exists (mk data). split; [reflexivity|].
    cbn [_bytes_value]. split; [unfold len in *; lia|].
    unfold unsigned. cbn [_bytes_value]. unfold data.
    now rewrite from_bytes_unsigned_app, from_bytes_zeros, Sl.
  - intros Short. unfold init. rewrite Ld.
    destruct (Z.eqb_spec
      (32 - n + (Z.min (pc st + 1 + n) (len (code st))
                 - Z.min (pc st + 1) (len (code st)))) 32) as [E|_]; [lia|].
    reflexivity.
Qed.

(** PUSH2 0x1234 at offset 0 of a fresh state. *)
Lemma push_n_witness :
  (pc (new_state (bytes [0x61; 0x12; 0x34])) + 1 + 2
     <= len (code (new_state (bytes [0x61; 0x12; 0x34]))) ->
   exists w,
     push_n 2 (new_state (bytes [0x61; 0x12; 0x34]))
       = (Ok tt,
          with_pc (pc (new_state (bytes [0x61; 0x12; 0x34])) + (1 + 2))
            (with_s (w :: s (new_state (bytes [0x61; 0x12; 0x34])))
               (new_state (bytes [0x61; 0x12; 0x34])))) /\
     length (_bytes_value w) = 32%nat /\
     unsigned w
       = from_bytes_unsigned
           (firstn (Z.to_nat 2)
              (skipn (Z.to_nat (pc (new_state (bytes [0x61; 0x12; 0x34])) + 1))
                 (code (new_state (bytes [0x61; 0x12; 0x34])))))) /\
  (len (code (new_state (bytes [0x61; 0x12; 0x34])))
     < pc (new_state (bytes [0x61; 0x12; 0x34])) + 1 + 2 ->
   push_n 2 (new_state (bytes [0x61; 0x12; 0x34]))
     = (Raise ValueError, new_state (bytes [0x61; 0x12; 0x34]))).
Proof.
  apply (push_n_reads_immediate 2 (new_state (bytes [0x61; 0x12; 0x34])));
    vm_compute; intuition congruence.
Defined.

Lemma nth_error_lookup {A : Type} (l : list A) (n : nat) :
  nth_error l n = l !! n.
Proof. revert n. induction l as [|x l IH]; intros [|n]; cbn; auto. Qed.

Lemma swap_n_unfold (n : Z) (st : MachineState) :
  0 <= n ->
  swap_n n st =
    match s st !! 0%nat, s st !! Z.to_nat n with
    | Some x, Some y =>
        (Ok tt,
         with_pc (pc st + 1)
           (with_s (<[Z.to_nat n := x]> (<[0%nat := y]> (s st))) st))
    | _, _ => (Raise IndexError, st)
    end.
Proof.
  intros Hn. unfold swap_n, mbind, s_getitem_neg, s_setitem_neg, pc_add, put.
  replace (Z.to_nat (n + 1)) with (S (Z.to_nat n)) by lia.
  cbn [Nat.pred]. rewrite nth_error_lookup.
  destruct (s st !! 0%nat) as [x|] eqn:E0; [|reflexivity].
  rewrite nth_error_lookup.
  destruct (s st !! Z.to_nat n) as [y|] eqn:En; [|reflexivity].
  apply lookup_lt_Some in E0 as L0. apply lookup_lt_Some in En as Ln.
  destruct (Nat.ltb_spec 0 (length (s st))) as [_|?]; [|lia].
  cbn [fst snd s with_s].
  destruct (Nat.ltb_spec (Z.to_nat n) (length (<[0%nat:=y]> (s st))))
    as [_|Bad]; [reflexivity|].
  rewrite length_insert in Bad. lia.
Qed.

(** X13.  SWAPn, for n of 1 or more, exchanges the word on top of the
    stack with the word n places below it and touches nothing else but the
    program counter, which advances by 1.  Run twice in a row it gives the
    stack back: the second run leaves the state of before the first, with
    the program counter advanced by 2. *)
Theorem swap_n_twice_restores (n : Z) (st st1 : MachineState) :
  1 <= n ->
  swap_n n st = (Ok tt, st1) ->
  s st1 !! 0%nat = s st !! Z.to_nat n /\
  s st1 !! Z.to_nat n = s st !! 0%nat /\
  (forall j : nat, j <> 0%nat -> j <> Z.to_nat n ->
     s st1 !! j = s st !! j) /\
  length (s st1) = length (s st) /\
  swap_n n st1 = (Ok tt, with_pc (pc st + 1 + 1) st).
Proof.
  intros Hn H. rewrite swap_n_unfold in H by lia.
  destruct (s st !! 0%nat) as [x|] eqn:E0; [|discriminate].
  destruct (s st !! Z.to_nat n) as [y|] eqn:En; [|discriminate].
  injection H as <-. cbn [s with_s with_pc].
  apply lookup_lt_Some in E0 as L0. apply lookup_lt_Some in En as Ln.
  set (k := Z.to_nat n) in *. assert (K : k <> 0%nat) by lia.
  assert (A0 : <[k:=x]> (<[0%nat:=y]> (s st)) !! 0%nat = Some y).
  { rewrite list_lookup_insert_ne by exact K.
    now apply list_lookup_insert_eq. }
  assert (Ak : <[k:=x]> (<[0%nat:=y]> (s st)) !! k = Some x).
  { apply list_lookup_insert_eq. now rewrite length_insert. }
  split; [exact A0|]. split; [exact Ak|]. split.
  { intros j J0 Jk. now rewrite !list_lookup_insert_ne by congruence. }
  split; [now rewrite !length_insert|].
  rewrite swap_n_unfold by lia. cbn [s with_s with_pc pc].
  fold k. rewrite A0, Ak. unfold with_pc, with_s. cbn.
  do 2 f_equal. f_equal.
  apply list_eq. intros j.
  destruct (decide (j = k)) as [->|Jk].
  - rewrite list_lookup_insert_eq by (now rewrite !length_insert).
    now rewrite En.
  - rewrite list_lookup_insert_ne by congruence.
    destruct (decide (j = 0%nat)) as [->|J0].
    + rewrite list_lookup_insert_eq by (now rewrite !length_insert).
      now rewrite E0.
    + now rewrite !list_lookup_insert_ne by congruence.
Qed.

(** SWAP1 on a stack of two words. *)
Lemma swap_n_witness :
  s (mkState (bytes [0x90]) 0 1 ∅ 0 [word 2; word 1]) !! 0%nat
    = s (mkState (bytes [0x90]) 0 0 ∅ 0 [word 1; word 2]) !! Z.to_nat 1 /\
  s (mkState (bytes [0x90]) 0 1 ∅ 0 [word 2; word 1]) !! Z.to_nat 1
    = s (mkState (bytes [0x90]) 0 0 ∅ 0 [word 1; word 2]) !! 0%nat /\
  (forall j : nat, j <> 0%nat -> j <> Z.to_nat 1 ->
     s (mkState (bytes [0x90]) 0 1 ∅ 0 [word 2; word 1]) !! j
       = s (mkState (bytes [0x90]) 0 0 ∅ 0 [word 1; word 2]) !! j) /\
  length (s (mkState (bytes [0x90]) 0 1 ∅ 0 [word 2; word 1]))
    = length (s (mkState (bytes [0x90]) 0 0 ∅ 0 [word 1; word 2])) /\
  swap_n 1 (mkState (bytes [0x90]) 0 1 ∅ 0 [word 2; word 1])
    = (Ok tt,
       with_pc (pc (mkState (bytes [0x90]) 0 0 ∅ 0 [word 1; word 2]) + 1 + 1)
         (mkState (bytes [0x90]) 0 0 ∅ 0 [word 1; word 2])).
Proof.
  apply (swap_n_twice_restores 1
           (mkState (bytes [0x90]) 0 0 ∅ 0 [word 1; word 2])
           (mkState (bytes [0x90]) 0 1 ∅ 0 [word 2; word 1]));
    [lia|reflexivity].
Defined.

(** X14.  DUPn, for n of 1 or more, pushes a copy of the n-th word from
    the top and advances the program counter by 1; the words already on
    the stack stay where they were.  A POP right after it gives back the
    state of before the DUP, with the program counter advanced by 2. *)
Theorem dup_n_then_pop_restores (n : Z) (st st1 : MachineState) :
  1 <= n ->
  dup_n n st = (Ok tt, st1) ->
  (exists w, s st !! (Z.to_nat n - 1)%nat = Some w /\ s st1 = w :: s st) /\
  pc st1 = pc st + 1 /\
  evm.pop st1 = (Ok tt, with_pc (pc st + 1 + 1) st).
Proof.
  intros Hn H. unfold dup_n, mbind, s_getitem_neg, s_append, pc_add, put in H.
  rewrite nth_error_lookup in H.
  replace (Nat.pred (Z.to_nat n)) with (Z.to_nat n - 1)%nat in H by lia.
  destruct (s st !! (Z.to_nat n - 1)%nat) as [w|] eqn:E; [|discriminate].
  injection H as <-. split; [exists w; split; reflexivity|].
  split; [reflexivity|]. destruct st; reflexivity.
Qed.

(** DUP2 on a stack of two words. *)
Lemma dup_n_witness :
  (exists w,
     s (mkState (bytes [0x81]) 0 0 ∅ 0 [word 1; word 2])
       !! (Z.to_nat 2 - 1)%nat = Some w /\
     s (mkState (bytes [0x81]) 0 1 ∅ 0 [word 2; word 1; word 2])
       = w :: s (mkState (bytes [0x81]) 0 0 ∅ 0 [word 1; word 2])) /\
  pc (mkState (bytes [0x81]) 0 1 ∅ 0 [word 2; word 1; word 2])
    = pc (mkState (bytes [0x81]) 0 0 ∅ 0 [word 1; word 2]) + 1 /\
  evm.pop (mkState (bytes [0x81]) 0 1 ∅ 0 [word 2; word 1; word 2])
    = (Ok tt,
       with_pc (pc (mkState (bytes [0x81]) 0 0 ∅ 0 [word 1; word 2]) + 1 + 1)
         (mkState (bytes [0x81]) 0 0 ∅ 0 [word 1; word 2])).
Proof.
  apply (dup_n_then_pop_restores 2
           (mkState (bytes [0x81]) 0 0 ∅ 0 [word 1; word 2])
           (mkState (bytes [0x81]) 0 1 ∅ 0 [word 2; word 1; word 2]));
    [lia|reflexivity].
Defined.

(** ** Memory reads and writes *)

Lemma write_mem_bytes_spec (offset : Z) (ds : list Byte.byte) :
  forall (x : Z) (st : MachineState),
    exists mem,
      write_mem_bytes offset x ds st = (Ok tt, with_m mem st) /\
      forall k : Z,
        mem !! k =
          if (offset + x <=? k) && (k <? offset + x + len ds)
          then byte_to_Z <$> ds !! Z.to_nat (k - offset - x)
          else m st !! k.
Proof.
  induction ds as [|d ds IH]; intros x st.
  - exists (m st). split; [destruct st; reflexivity|].
    intros k. unfold len. cbn [length].
    destruct (Z.leb_spec (offset + x) k);
      destruct (Z.ltb_spec k (offset + x + Z.of_nat 0)); cbn [andb];
      try reflexivity; lia.
  - cbn [write_mem_bytes]. unfold mbind, m_setitem, put.
    destruct (IH (x + 1)
                (with_m (<[offset + x := byte_to_Z d]> (m st)) st))
      as (mem & E & L).
    rewrite E. exists mem. split; [reflexivity|].
    intros k. rewrite L. unfold len. cbn [length m with_m].
    destruct (Z.leb_spec (offset + (x + 1)) k) as [A|A];
      destruct (Z.ltb_spec k (offset + (x + 1) + Z.of_nat (length ds)))
        as [B|B];
      destruct (Z.leb_spec (offset + x) k) as [C|C];
      destruct (Z.ltb_spec k (offset + x + Z.of_nat (S (length ds))))
        as [D|D]; cbn [andb]; try lia.
    + replace (Z.to_nat (k - offset - x))
        with (S (Z.to_nat (k - offset - (x + 1)))) by lia.
      reflexivity.
    + rewrite lookup_insert_ne by lia. reflexivity.
    + replace k with (offset + x) by lia. rewrite lookup_insert_eq.
      now replace (offset + x - offset - x) with 0 by lia.
    + rewrite lookup_insert_ne by lia. reflexivity.
Qed.

Lemma read_mem_bytes_present (offset : Z) (st : MachineState)
  (xs : list Z) (bs : list Byte.byte) :
  Forall2 (fun x b => m st !! (offset + x) = Some (byte_to_Z b)) xs bs ->
  read_mem_bytes offset xs st = (Ok bs, st).
Proof.
  induction 1 as [|x b xs bs H _ IH]; [reflexivity|].
  cbn [read_mem_bytes]. unfold mbind, m_getitem. rewrite H.
  pose proof (byte_to_Z_range b) as R.
  destruct (Z.ltb_spec (byte_to_Z b) 0); [lia|].
  destruct (Z.leb_spec 256 (byte_to_Z b)); [lia|]. cbn [orb].
  rewrite IH. unfold ret. now rewrite byte_of_to_Z.
Qed.

Lemma read_mem_256_present (offset : Z) (st : MachineState) (v : Int256) :
  length (_bytes_value v) = 32%nat ->
  (forall j : nat, (j < 32)%nat ->
     m st !! (offset + Z.of_nat j)
       = byte_to_Z <$> _bytes_value v !! j) ->
  read_mem_256 offset st = (Ok v, st).
Proof.
  intros L H. unfold read_mem_256, mbind.
  rewrite (read_mem_bytes_present offset st (seqZ 0 32) (_bytes_value v)).
  - unfold lift, init, len. rewrite L. now destruct v.
  - apply Forall2_same_length_lookup_2.
    + now rewrite length_seqZ, L.
    + intros j x b Hx Hb. apply lookup_seqZ in Hx as [-> Hj].
      rewrite Z.add_0_l, H by lia. now rewrite Hb.
Qed.

(** X15.  MSTORE followed by MLOAD at the same offset gives the word back.
    With the offset on top of the stack and a word built by the constructor
    beneath it, MSTORE returns, pops both, advances the program counter by
    1, raises [i] to at least [(offset + 32) // 32] and changes memory only
    at the 32 addresses from the offset on; reading a word at that offset
    then returns the stored word and changes nothing, and MLOAD with that
    offset on top of the stack replaces it by the stored word. *)
Theorem mstore_then_mload (st : MachineState) (o v : Int256)
  (rest : list Int256) :
  s st = o :: v :: rest ->
  length (_bytes_value v) = 32%nat ->
  exists st1,
    mstore st = (Ok tt, st1) /\
    s st1 = rest /\ pc st1 = pc st + 1 /\
    i st1 = Z.max (i st) ((unsigned o + 32) / 32) /\
    code st1 = code st /\ gas st1 = gas st /\
    (forall k : Z, ~ (unsigned o <= k < unsigned o + 32) ->
       m st1 !! k = m st !! k) /\
    read_mem_256 (unsigned o) st1 = (Ok v, st1) /\
    (forall o' : Int256, unsigned o' = unsigned o ->
       exists st2,
         mload (with_s (o' :: rest) st1) = (Ok tt, st2) /\
         s st2 = v :: rest /\ m st2 = m st1 /\ i st2 = i st1 /\
         pc st2 = pc st1 + 1).
Proof.
  intros E L.
  destruct (write_mem_bytes_spec (unsigned o) (_bytes_value v) 0
              (with_s rest st)) as (mem & W & Lk).
  assert (Rd : forall st', m st' = mem ->
            read_mem_256 (unsigned o) st' = (Ok v, st')).
  { intros st' Hm. apply read_mem_256_present; [exact L|].
    intros j Hj. rewrite Hm, Lk. unfold len. rewrite L.
    destruct (Z.leb_spec (unsigned o + 0) (unsigned o + Z.of_nat j)); [|lia].
    destruct (Z.ltb_spec (unsigned o + Z.of_nat j)
                (unsigned o + 0 + Z.of_nat 32)); [|lia].
    cbn [andb]. do 2 f_equal. lia. }
  eexists. split.
  { unfold mstore, mbind at 1, s_pop. rewrite E. cbn [s with_s].
    unfold mbind at 1, s_pop. cbn [s with_s].
    unfold mbind at 1, write_mem_256.
    change (with_s rest (with_s (v :: rest) st)) with (with_s rest st).
    rewrite W. unfold mbind, put, pc_add, put. reflexivity. }
  cbn [s pc i code gas m with_pc with_i with_m with_s].
  split; [reflexivity|]. split; [reflexivity|]. split; [reflexivity|].
  split; [reflexivity|]. split; [reflexivity|]. split.
  { intros k Hk. rewrite Lk. unfold len. rewrite L.
    destruct (Z.leb_spec (unsigned o + 0) k);
      destruct (Z.ltb_spec k (unsigned o + 0 + Z.of_nat 32));
      cbn [andb]; try reflexivity; lia. }
  split; [apply Rd; reflexivity|].
  intros o' Ho. eexists. split.
  { unfold mload, mbind at 1, s_getitem_neg. cbn [s with_s nth_error Nat.pred].
    unfold mbind at 1. rewrite Ho, Rd by reflexivity.
    unfold mbind, s_setitem_neg, put, pc_add, put. reflexivity. }
  cbn [s pc i code gas m with_pc with_i with_m with_s].
  split; [reflexivity|]. split; [reflexivity|].
  split; [|reflexivity].
  assert (0 <= (unsigned o + 32) / 32 -> True) by trivial. lia.
Qed.

(** The word 0xaabb stored at offset 0 of a fresh state. *)
Lemma mstore_then_mload_witness :
  exists st1,
    mstore (mkState (bytes [0x52]) 0 0 ∅ 0 [word 0; word 0xaabb])
      = (Ok tt, st1) /\
    read_mem_256 (unsigned (word 0)) st1 = (Ok (word 0xaabb), st1).
Proof.
  destruct (mstore_then_mload
              (mkState (bytes [0x52]) 0 0 ∅ 0 [word 0; word 0xaabb])
              (word 0) (word 0xaabb) [] eq_refl eq_refl)
    as (st1 & H1 & _ & _ & _ & _ & _ & _ & H2 & _).
  exists st1. split; assumption.
Defined.

Lemma read_mem_bytes_zero (offset : Z) (xs : list Z) :
  forall st : MachineState,
    (forall x, x ∈ xs ->
       m st !! (offset + x) = None \/ m st !! (offset + x) = Some 0) ->
    exists mem,
      read_mem_bytes offset xs st
        = (Ok (repeat x00 (length xs)), with_m mem st) /\
      forall k : Z,
        mem !! k =
          if bool_decide (k - offset ∈ xs) then Some 0 else m st !! k.
Proof.
  induction xs as [|x xs IH]; intros st H.
  - exists (m st). split; [destruct st; reflexivity|].
    intros k. rewrite bool_decide_eq_false_2; [reflexivity|].
    apply not_elem_of_nil.
  - cbn [read_mem_bytes length repeat].
    assert (Hx : m st !! (offset + x) = None \/ m st !! (offset + x) = Some 0)
      by (apply H; left).
    set (st1 := match m st !! (offset + x) with
                | Some _ => st
                | None => with_m (<[offset + x := 0]> (m st)) st
                end).
    assert (M1 : forall k, m st1 !! k
                   = if bool_decide (k = offset + x) then Some 0
                     else m st !! k).
    { intros k. unfold st1.
      destruct Hx as [Hx|Hx]; rewrite Hx; cbn [m with_m];
        destruct (decide (k = offset + x)) as [->|N].
      - rewrite bool_decide_eq_true_2 by reflexivity.
        apply lookup_insert_eq.
      - rewrite bool_decide_eq_false_2 by exact N.
        now apply lookup_insert_ne.
      - now rewrite bool_decide_eq_true_2 by reflexivity.
      - now rewrite bool_decide_eq_false_2 by exact N. }
    assert (S1 : forall mem, with_m mem st1 = with_m mem st).
    { intros mem. unfold st1. now destruct (m st !! (offset + x)). }
    assert (G : m_getitem (offset + x) st = (Ok 0, st1)).
    { unfold m_getitem, st1. destruct Hx as [Hx|Hx]; now rewrite Hx. }
    destruct (IH st1) as (mem & E & L).
    { intros y Hy. rewrite !M1.
      destruct (bool_decide (offset + y = offset + x)); [now right|].
      apply H. now right. }
    exists mem. split.
    + unfold mbind at 1. rewrite G.
      change ((0 <? 0) || (256 <=? 0)) with false. cbv iota.
      unfold mbind. rewrite E. unfold ret. now rewrite S1.
    + intros k. rewrite L, M1.
      destruct (decide (k - offset ∈ xs)) as [I|I].
      * rewrite bool_decide_eq_true_2 by exact I.
        rewrite bool_decide_eq_true_2; [reflexivity|]. now right.
      * rewrite bool_decide_eq_false_2 by exact I.
        destruct (decide (k = offset + x)) as [->|N].
        -- rewrite bool_decide_eq_true_2 by reflexivity.
           rewrite bool_decide_eq_true_2; [reflexivity|].
           replace (offset + x - offset) with x by lia. left.
        -- rewrite bool_decide_eq_false_2 by exact N.
           rewrite bool_decide_eq_false_2; [reflexivity|].
           intros [Q|Q]%elem_of_cons; [lia|contradiction].
Qed.

(** X16.  MLOAD of memory that was never written.  With the offset on top
    of the stack and no entry in the memory dictionary at the 32 addresses
    from the offset on, MLOAD returns, replaces the offset by the zero
    word, advances the program counter by 1 and raises [i] to at least
    [(offset + 32) // 32]; the read itself enters the 32 addresses into the
    dictionary, each with value 0, and changes no other address. *)
Theorem mload_of_untouched_memory (st : MachineState) (o : Int256)
  (rest : list Int256) :
  s st = o :: rest ->
  (forall j : Z, 0 <= j < 32 -> m st !! (unsigned o + j) = None) ->
  exists st1,
    mload st = (Ok tt, st1) /\
    s st1 = word 0 :: rest /\ pc st1 = pc st + 1 /\
    i st1 = Z.max (i st) ((unsigned o + 32) / 32) /\
    (forall k : Z,
       m st1 !! k =
         if (unsigned o <=? k) && (k <? unsigned o + 32)
         then Some 0 else m st !! k).
Proof.
  intros E H.
  destruct (read_mem_bytes_zero (unsigned o) (seqZ 0 32) st)
    as (mem & R & L).
  { intros x Hx. apply elem_of_seqZ in Hx. left. apply H. lia. }
  eexists. split.
  { unfold mload, mbind at 1, s_getitem_neg. rewrite E.
    cbn [nth_error Nat.pred]. unfold mbind at 1, read_mem_256, mbind at 1.
    rewrite R. unfold lift.
    change (init (repeat x00 (length (seqZ 0 32)))) with (Ok (word 0)).
    cbv iota. unfold mbind, s_setitem_neg, put, pc_add, put.
    cbn [s with_m]. rewrite E. reflexivity. }
  cbn [s pc i code gas m with_pc with_i with_m with_s].
  split; [reflexivity|]. split; [reflexivity|]. split; [reflexivity|].
  intros k. rewrite L.
  destruct (Z.leb_spec (unsigned o) k) as [A|A];
    destruct (Z.ltb_spec k (unsigned o + 32)) as [B|B]; cbn [andb].
  - rewrite bool_decide_eq_true_2; [reflexivity|]. apply elem_of_seqZ. lia.
  - rewrite bool_decide_eq_false_2; [reflexivity|].
    intros Q%elem_of_seqZ. lia.
  - rewrite bool_decide_eq_false_2; [reflexivity|].
    intros Q%elem_of_seqZ. lia.
  - rewrite bool_decide_eq_false_2; [reflexivity|].
    intros Q%elem_of_seqZ. lia.
Qed.

(** MLOAD at offset 0 of a fresh state. *)
Lemma mload_of_untouched_memory_witness :
  exists st1,
    mload (mkState (bytes [0x51]) 0 0 ∅ 0 [word 0]) = (Ok tt, st1) /\
    s st1 = [word 0] /\
    i st1 = Z.max 0 ((unsigned (word 0) + 32) / 32).
Proof.
  destruct (mload_of_untouched_memory
              (mkState (bytes [0x51]) 0 0 ∅ 0 [word 0]) (word 0) [] eq_refl)
    as (st1 & H1 & H2 & _ & H3 & _).
  - intros j _. apply lookup_empty.
  - exists st1. repeat split; assumption.
Defined.

(** ** Where exceptions come from *)

Lemma registrations_avoid_HaltExecution :
  Forall (fun kf : Z * M unit => kf.1 <> 0x00 -> avoids HaltExecution kf.2)
         registrations.
Proof.
  unfold registrations. rewrite !Forall_app, !Forall_map.
  split; [|split; [|split]].
  - repeat (apply Forall_cons_2;
      [ cbn [fst snd]; intros Hk;
        first [ exfalso; apply Hk; reflexivity | avoids_handler ] |]).
    apply Forall_nil_2.
  - apply Forall_forall. intros ii _ _. cbn [fst snd]. avoids_handler.
  - apply Forall_forall. intros ii _ _. cbn [fst snd]. avoids_handler.
  - apply Forall_forall. intros ii _ _. cbn [fst snd]. avoids_handler.
Qed.

Lemma registrations_avoid_InvalidJumpDestination :
  Forall (fun kf : Z * M unit =>
            kf.1 <> 0x56 -> kf.1 <> 0x57 ->
            avoids InvalidJumpDestination kf.2)
         registrations.
Proof.
  unfold registrations. rewrite !Forall_app, !Forall_map.
  split; [|split; [|split]].
  - repeat (apply Forall_cons_2;
      [ cbn [fst snd]; intros H1 H2;
        first [ exfalso; apply H1; reflexivity
              | exfalso; apply H2; reflexivity
              | avoids_handler ] |]).
    apply Forall_nil_2.
  - apply Forall_forall. intros ii _ _ _. cbn [fst snd]. avoids_handler.
  - apply Forall_forall. intros ii _ _ _. cbn [fst snd]. avoids_handler.
  - apply Forall_forall. intros ii _ _ _. cbn [fst snd]. avoids_handler.
Qed.

(** X17.  Two of the interpreter's exceptions have one origin each.
    Executing an opcode raises HaltExecution exactly when the opcode is
    STOP (0x00), in every state, and it raises InvalidJumpDestination only
    for JUMP (0x56) and JUMPI (0x57). *)
Theorem exceptions_have_one_origin (op : Z) (st : MachineState) :
  ((execute op st).1 = Raise HaltExecution <-> op = 0x00) /\
  ((execute op st).1 = Raise InvalidJumpDestination ->
   op = 0x56 \/ op = 0x57).
Proof.
  pose proof registrations_avoid_HaltExecution as FH.
  pose proof registrations_avoid_InvalidJumpDestination as FJ.
  rewrite Forall_forall in FH, FJ.
  split; [split|].
  - intros H. unfold execute in H.
    destruct (_INSTRUCTION_MAP !! op) as [fn|] eqn:E; [|discriminate].
    apply lookup_registered in E.
    destruct (Z.eq_dec op 0x00) as [->|N]; [reflexivity|].
    exfalso. exact (FH _ E N st H).
  - intros ->. reflexivity.
  - intros H. unfold execute in H.
    destruct (_INSTRUCTION_MAP !! op) as [fn|] eqn:E; [|discriminate].
    apply lookup_registered in E.
    destruct (Z.eq_dec op 0x56) as [->|N1]; [now left|].
    destruct (Z.eq_dec op 0x57) as [->|N2]; [now right|].
    exfalso. exact (FJ _ E N1 N2 st H).
Qed.

(** ** Division by zero *)

Lemma from_int_not_ZeroDivisionError (v : Z) :
  from_int v <> Raise ZeroDivisionError.
Proof.
  unfold from_int, bind, to_bytes_unsigned, init.
  repeat case_match; congruence.
Qed.

(** [addmod] and [mulmod] test the signed reading of the modulus and
    divide by the unsigned one. *)
Lemma addmod_mulmod_guarded (a b n : Int256) :
  length (_bytes_value n) = 32%nat ->
  int256.addmod a b n <> Raise ZeroDivisionError /\
  int256.mulmod a b n <> Raise ZeroDivisionError.
Proof.
  intros Ln. unfold int256.addmod, int256.mulmod.
  rewrite (zero_views_agree n Ln).
  destruct (Z.eqb_spec (unsigned n) 0) as [E|E].
  - split; apply from_int_not_ZeroDivisionError.
  - rewrite !modulo_nonzero by exact E. cbn [bind].
    split; apply from_int_not_ZeroDivisionError.
Qed.

Lemma addmod_guarded (st : MachineState) :
  Forall (fun w => length (_bytes_value w) = 32%nat) (s st) ->
  (evm.addmod st).1 <> Raise ZeroDivisionError.
Proof.
  intros W. unfold evm.addmod, mbind, s_pop.
  destruct (s st) as [|a [|b [|n rest]]]; cbn [s with_s]; try discriminate.
  assert (Ln : length (_bytes_value n) = 32%nat).
  { rewrite !Forall_cons in W. tauto. }
  unfold lift.
  destruct (int256.addmod a b n) as [r|e] eqn:E; [discriminate|].
  cbn [fst]. intros [= ->].
  exact (proj1 (addmod_mulmod_guarded a b n Ln) E).
Qed.

Lemma mulmod_guarded (st : MachineState) :
  Forall (fun w => length (_bytes_value w) = 32%nat) (s st) ->
  (evm.mulmod st).1 <> Raise ZeroDivisionError.
Proof.
  intros W. unfold evm.mulmod, mbind, s_pop.
  destruct (s st) as [|a [|b [|n rest]]]; cbn [s with_s]; try discriminate.
  assert (Ln : length (_bytes_value n) = 32%nat).
  { rewrite !Forall_cons in W. tauto. }
  unfold lift.
  destruct (int256.mulmod a b n) as [r|e] eqn:E; [discriminate|].
  cbn [fst]. intros [= ->].
  exact (proj2 (addmod_mulmod_guarded a b n Ln) E).
Qed.

Lemma registrations_guard_division :
  Forall (fun kf : Z * M unit =>
            forall st,
              Forall (fun w => length (_bytes_value w) = 32%nat) (s st) ->
              (kf.2 st).1 <> Raise ZeroDivisionError)
         registrations.
Proof.
  unfold registrations. rewrite !Forall_app, !Forall_map.
  split; [|split; [|split]].
  - repeat (apply Forall_cons_2;
      [ cbn [fst snd];
        first [ exact addmod_guarded
              | exact mulmod_guarded
              | intros st _; revert st;
                lazymatch goal with
                | |- forall st, (?fn st).1 <> Raise ?e =>
                    change (avoids e fn)
                end;
                avoids_handler ] |]).
    apply Forall_nil_2.
  - apply Forall_forall. intros ii _ st _. revert st. cbn [fst snd].
    change (avoids ZeroDivisionError (push_n (ii + 1))). avoids_handler.
  - apply Forall_forall. intros ii _ st _. revert st. cbn [fst snd].
    change (avoids ZeroDivisionError (dup_n (ii + 1))). avoids_handler.
  - apply Forall_forall. intros ii _ st _. revert st. cbn [fst snd].
    change (avoids ZeroDivisionError (swap_n (ii + 1))). avoids_handler.
Qed.

(** X26.  No opcode raises ZeroDivisionError on a stack of 32-byte words.
    [//] and [%] raise on a zero divisor, and [/] does in [sdiv]; DIV, MOD,
    SDIV and SMOD test the divisor in the reading they divide by, and
    ADDMOD and MULMOD test the signed reading of a modulus that they use
    unsigned, which on a 32-byte word is zero in both readings or in
    neither. *)
Theorem division_by_zero_is_guarded (op : Z) (st : MachineState) :
  Forall (fun w => length (_bytes_value w) = 32%nat) (s st) ->
  (execute op st).1 <> Raise ZeroDivisionError.
Proof.
  intros W. unfold execute.
  destruct (_INSTRUCTION_MAP !! op) as [fn|] eqn:E; [|discriminate].
  apply lookup_registered in E.
  pose proof registrations_guard_division as F.
  rewrite Forall_forall in F. exact (F _ E st W).
Qed.

(** MOD with a zero divisor on the stack. *)
Lemma division_by_zero_is_guarded_witness :
  Forall (fun w => length (_bytes_value w) = 32%nat)
         (s (mkState (bytes [0x06; 0x00]) 0 0 ∅ 0 [word 7; word 0])) /\
  (execute 0x06 (mkState (bytes [0x06; 0x00]) 0 0 ∅ 0 [word 7; word 0])).1
    <> Raise ZeroDivisionError.
Proof.
  assert (W : Forall (fun w => length (_bytes_value w) = 32%nat)
                (s (mkState (bytes [0x06; 0x00]) 0 0 ∅ 0 [word 7; word 0]))).
  { cbn [s]. repeat (apply Forall_cons_2; [reflexivity|]).
    apply Forall_nil_2. }
  split; [exact W|].
  exact (division_by_zero_is_guarded 0x06
           (mkState (bytes [0x06; 0x00]) 0 0 ∅ 0 [word 7; word 0]) W).
Defined.

(** ** The words of the stack *)

Lemma word32_ret {A : Type} (a : A) : keeps_word32 (fun _ => True) (ret a).
Proof. intros st W. split; [exact W|trivial]. Qed.

Lemma word32_raise {A : Type} (Q : A -> Prop) (e : exn) :
  keeps_word32 Q (raise e).
Proof. intros st W. split; [exact W|discriminate]. Qed.

Lemma word32_lift {A : Type} (Q : A -> Prop) (r : result A) :
  (forall a, r = Ok a -> Q a) -> keeps_word32 Q (lift r).
Proof. intros H st W. split; [exact W|exact H]. Qed.

Lemma word32_get {A : Type} (f : MachineState -> A) :
  keeps_word32 (fun _ => True) (get f).
Proof. intros st W. split; [exact W|trivial]. Qed.

Lemma word32_put (f : MachineState -> MachineState) :
  (forall st, s (f st) = s st) -> keeps_word32 (fun _ => True) (put f).
Proof. intros F st W. cbn. rewrite F. split; [exact W|trivial]. Qed.

Lemma word32_bind {A B : Type} (Q1 : A -> Prop) (Q : B -> Prop)
    (c : M A) (k : A -> M B) :
  keeps_word32 Q1 c -> (forall a, Q1 a -> keeps_word32 Q (k a)) ->
  keeps_word32 Q (mbind c k).
Proof.
  intros Hc Hk st W. unfold mbind. destruct (Hc st W) as [W1 V].
  destruct (c st) as [[a|e] st1]; cbn [fst snd] in *.
  - exact (Hk a (V a eq_refl) st1 W1).
  - split; [exact W1|discriminate].
Qed.

Lemma word32_s_pop : keeps_word32 word32 s_pop.
Proof.
  intros st W. unfold s_pop. destruct (s st) as [|w rest] eqn:E.
  - cbn. rewrite E. split; [constructor|discriminate].
  - apply Forall_cons in W as [Hw Hr]. cbn. split; [exact Hr|].
    now intros a [= <-].
Qed.

Lemma word32_s_append (w : Int256) :
  word32 w -> keeps_word32 (fun _ => True) (s_append w).
Proof.
  intros Hw st W. cbn. split; [|trivial]. now apply Forall_cons_2.
Qed.

Lemma word32_s_getitem_neg (n : nat) : keeps_word32 word32 (s_getitem_neg n).
Proof.
  intros st W. unfold s_getitem_neg.
  destruct (nth_error (s st) (Nat.pred n)) as [w|] eqn:E; cbn.
  - split; [exact W|]. intros a [= <-].
    rewrite nth_error_lookup in E. exact (Forall_lookup_1 _ _ _ _ W E).
  - split; [exact W|discriminate].
Qed.

Lemma word32_s_setitem_neg (n : nat) (w : Int256) :
  word32 w -> keeps_word32 (fun _ => True) (s_setitem_neg n w).
Proof.
  intros Hw st W. unfold s_setitem_neg.
  destruct (_ <? _)%nat; cbn; (split; [|trivial]); [|exact W].
  now apply Forall_insert.
Qed.

Lemma word32_m_getitem (k : Z) : keeps_word32 (fun _ => True) (m_getitem k).
Proof.
  intros st W. unfold m_getitem. destruct (m st !! k); cbn; now split.
Qed.

Lemma word32_read_mem_bytes (offset : Z) (xs : list Z) :
  keeps_word32 (fun _ => True) (read_mem_bytes offset xs).
Proof.
  induction xs as [|x xs IH]; cbn [read_mem_bytes].
  - apply word32_ret.
  - eapply word32_bind; [apply word32_m_getitem|]. intros v _.
    destruct (_ || _); [apply word32_raise|].
    eapply word32_bind; [exact IH|]. intros bs _. apply word32_ret.
Qed.

Lemma word32_write_mem_bytes (offset x : Z) (ds : list Byte.byte) :
  keeps_word32 (fun _ => True) (write_mem_bytes offset x ds).
Proof.
  revert x. induction ds as [|d ds IH]; intros x; cbn [write_mem_bytes].
  - apply word32_ret.
  - eapply word32_bind; [apply word32_put; reflexivity|]. intros _ _.
    apply IH.
Qed.

Lemma init_word32 (bs : list Byte.byte) (w : Int256) :
  init bs = Ok w -> word32 w.
Proof.
  unfold init. destruct (Z.eqb_spec (len bs) 32) as [E|E]; [|discriminate].
  intros [= <-]. unfold word32, len in *. cbn. lia.
Qed.

(** Every operation of [int256.py] that returns a word returns one that
    the constructor has built. *)
Ltac word32_result :=
  let a := fresh "a" in
  let H := fresh "H" in
  intros a H;
  unfold int256.add, int256.mul, int256.div, int256.sdiv, int256.mod_,
    int256.smod, int256.addmod, int256.mulmod, int256.exp,
    int256.signextend, int256.lt, int256.gt, int256.slt, int256.sgt,
    int256.eq, int256.iszero, int256.and_, int256.or_, int256.xor,
    int256.not_, int256.byte, int256.shl, int256.shr, int256.sar,
    from_int, from_signed_int, bind in H;
  repeat lazymatch type of H with
         | init _ = Ok _ => fail
         | context [match ?x with _ => _ end] => destruct x
         | context [if ?x then _ else _] => destruct x
         end;
  first [ discriminate H | exact (init_word32 _ _ H) ].

Ltac word32_step :=
  lazymatch goal with
  | |- keeps_word32 _ (mbind _ _) =>
      eapply word32_bind; [|intros ? ?]
  | |- keeps_word32 _ (ret _) => apply word32_ret
  | |- keeps_word32 _ (raise _) => apply word32_raise
  | |- keeps_word32 _ (@lift Int256 _) => apply word32_lift; word32_result
  | |- keeps_word32 _ (lift _) =>
      apply (word32_lift (fun _ => True)); trivial
  | |- keeps_word32 _ (get _) => apply word32_get
  | |- keeps_word32 _ s_pop => apply word32_s_pop
  | |- keeps_word32 _ (s_append _) => apply word32_s_append; assumption
  | |- keeps_word32 _ (s_getitem_neg _) => apply word32_s_getitem_neg
  | |- keeps_word32 _ (s_setitem_neg _ _) =>
      apply word32_s_setitem_neg; assumption
  | |- keeps_word32 _ (pc_add _) => apply word32_put; reflexivity
  | |- keeps_word32 _ (m_setitem _ _) => apply word32_put; reflexivity
  | |- keeps_word32 _ (put _) => apply word32_put; reflexivity
  | |- keeps_word32 _ (read_mem_bytes _ _) => apply word32_read_mem_bytes
  | |- keeps_word32 _ (write_mem_bytes _ _ _) =>
      apply word32_write_mem_bytes
  | |- keeps_word32 _ (if ?b then _ else _) => destruct b
  | |- keeps_word32 _ (let _ := _ in _) => cbv zeta
  end.

Ltac word32_handler :=
  lazymatch goal with
  | |- keeps_word32 _ ?fn => let h := head_of fn in unfold h
  end;
  unfold read_mem_256, write_mem_256, write_mem_8, code_at;
  repeat word32_step.

Lemma registrations_keep_word32 :
  Forall (fun kf : Z * M unit => keeps_word32 (fun _ => True) kf.2)
         registrations.
Proof.
  unfold registrations. rewrite !Forall_app, !Forall_map.
  split; [|split; [|split]].
  - repeat (apply Forall_cons_2; [cbn [fst snd]; word32_handler|]).
    apply Forall_nil_2.
  - apply Forall_forall. intros ii _. cbn [fst snd]. word32_handler.
  - apply Forall_forall. intros ii _. cbn [fst snd]. word32_handler.
  - apply Forall_forall. intros ii _. cbn [fst snd]. word32_handler.
Qed.

Lemma step_keeps_word32 (st : MachineState) :
  Forall word32 (s st) ->
  Forall word32 (s (step st).2) /\ (step st).1 <> Raise ZeroDivisionError.
Proof.
  intros W. rewrite step_unfold.
  destruct (py.index (code st) (pc st)) as [b|e] eqn:I.
  - unfold execute.
    destruct (_INSTRUCTION_MAP !! byte_to_Z b) as [fn|] eqn:E.
    + apply lookup_registered in E.
      pose proof registrations_keep_word32 as F.
      pose proof registrations_guard_division as G.
      rewrite Forall_forall in F, G.
      split; [exact (proj1 (F _ E st W))|exact (G _ E st W)].
    + split; [exact W|discriminate].
  - split; [exact W|]. cbn. intros [= ->].
    unfold py.index in I. repeat case_match; discriminate.
Qed.

(** X28.  The words of the stack have 32 bytes.  Executing an opcode on
    a stack of 32-byte words leaves a stack of 32-byte words, whether the
    handler returns or raises: every word that a handler puts on the stack
    comes from the constructor [Int256], which accepts 32 bytes only, or
    was on the stack before.  So, in the loop of [main] started on a fresh
    state, every word of the stack has 32 bytes and no ZeroDivisionError
    ends the loop. *)
Theorem stack_words_have_32_bytes (op : Z) (st : MachineState)
    (program : list Byte.byte) (fuel : nat) :
  (Forall word32 (s st) -> Forall word32 (s (execute op st).2)) /\
  match main_loop fuel (new_state program) with
  | Some (r, st') => Forall word32 (s st') /\ r <> Raise ZeroDivisionError
  | None => True
  end.
Proof.
  split.
  - intros W. unfold execute.
    destruct (_INSTRUCTION_MAP !! op) as [fn|] eqn:E; [|exact W].
    apply lookup_registered in E.
    pose proof registrations_keep_word32 as F. rewrite Forall_forall in F.
    exact (proj1 (F _ E st W)).
  - assert (L : forall st0, Forall word32 (s st0) ->
                  match main_loop fuel st0 with
                  | Some (r, st') =>
                      Forall word32 (s st') /\ r <> Raise ZeroDivisionError
                  | None => True
                  end).
    { induction fuel as [|fuel IH]; intros st0 W; cbn [main_loop].
      - destruct (negb _); [split; [exact W|discriminate]|exact I].
      - destruct (negb _); [split; [exact W|discriminate]|].
        destruct (step_keeps_word32 st0 W) as [W1 N].
        destruct (step st0) as [[[]|e] st1]; cbn [fst snd] in *.
        + exact (IH st1 W1).
        + split; [exact W1|exact N]. }
    apply L. constructor.
Qed.

(** ** What no handler touches *)

Section Frame.

Variable R : MachineState -> MachineState -> Prop.
Hypothesis R_refl : forall st, R st st.
Hypothesis R_trans : forall st1 st2 st3, R st1 st2 -> R st2 st3 -> R st1 st3.
Hypothesis R_pc : forall st v, R st (with_pc v st).
Hypothesis R_m : forall st v, R st (with_m v st).
Hypothesis R_i : forall st v, R st (with_i v st).
Hypothesis R_s : forall st v, R st (with_s v st).

Lemma frame_ret {A : Type} (a : A) : keeps R (ret a).
Proof. intros st. apply R_refl. Qed.

Lemma frame_raise {A : Type} (e : exn) : keeps R (raise (A := A) e).
Proof. intros st. apply R_refl. Qed.

Lemma frame_lift {A : Type} (r : result A) : keeps R (lift r).
Proof. intros st. apply R_refl. Qed.

Lemma frame_get {A : Type} (f : MachineState -> A) : keeps R (get f).
Proof. intros st. apply R_refl. Qed.

Lemma frame_bind {A B : Type} (c : M A) (k : A -> M B) :
  keeps R c -> (forall a, keeps R (k a)) -> keeps R (mbind c k).
Proof.
  intros Hc Hk st. unfold mbind. specialize (Hc st).
  destruct (c st) as [[a|e] st1]; cbn [snd] in *; [|exact Hc].
  eapply R_trans; [exact Hc|apply Hk].
Qed.

Lemma frame_s_pop : keeps R s_pop.
Proof. intros st. unfold s_pop. destruct (s st); cbn [snd]; auto. Qed.

Lemma frame_s_append (w : Int256) : keeps R (s_append w).
Proof. intros st. apply R_s. Qed.

Lemma frame_s_getitem_neg (n : nat) : keeps R (s_getitem_neg n).
Proof.
  intros st. unfold s_getitem_neg. destruct (nth_error _ _); apply R_refl.
Qed.

Lemma frame_s_setitem_neg (n : nat) (w : Int256) :
  keeps R (s_setitem_neg n w).
Proof.
  intros st. unfold s_setitem_neg. destruct (_ <? _)%nat; cbn [snd]; auto.
Qed.

Lemma frame_pc_add (k : Z) : keeps R (pc_add k).
Proof. intros st. apply R_pc. Qed.

Lemma frame_with_pc (d : Z) : keeps R (put (with_pc d)).
Proof. intros st. apply R_pc. Qed.

Lemma frame_with_i (f : MachineState -> Z) :
  keeps R (put (fun st => with_i (f st) st)).
Proof. intros st. apply R_i. Qed.

Lemma frame_m_getitem (k : Z) : keeps R (m_getitem k).
Proof.
  intros st. unfold m_getitem. destruct (m st !! k); cbn [snd]; auto.
Qed.

Lemma frame_m_setitem (k v : Z) : keeps R (m_setitem k v).
Proof. intros st. apply R_m. Qed.

Lemma frame_read_mem_bytes (offset : Z) (xs : list Z) :
  keeps R (read_mem_bytes offset xs).
Proof.
  induction xs as [|x xs IH]; cbn [read_mem_bytes].
  - apply frame_ret.
  - apply frame_bind; [apply frame_m_getitem|]. intros v.
    destruct (_ || _); [apply frame_raise|].
    apply frame_bind; [exact IH|]. intros bs. apply frame_ret.
Qed.

Lemma frame_write_mem_bytes (offset x : Z) (ds : list Byte.byte) :
  keeps R (write_mem_bytes offset x ds).
Proof.
  revert x. induction ds as [|d ds IH]; intros x; cbn [write_mem_bytes].
  - apply frame_ret.
  - apply frame_bind; [apply frame_m_setitem|]. intros _. apply IH.
Qed.

Ltac frame_step :=
  lazymatch goal with
  | |- keeps _ (mbind _ _) => apply frame_bind; [|intros ?]
  | |- keeps _ (ret _) => apply frame_ret
  | |- keeps _ (raise _) => apply frame_raise
  | |- keeps _ (lift _) => apply frame_lift
  | |- keeps _ (get _) => apply frame_get
  | |- keeps _ s_pop => apply frame_s_pop
  | |- keeps _ (s_append _) => apply frame_s_append
  | |- keeps _ (s_getitem_neg _) => apply frame_s_getitem_neg
  | |- keeps _ (s_setitem_neg _ _) => apply frame_s_setitem_neg
  | |- keeps _ (pc_add _) => apply frame_pc_add
  | |- keeps _ (put (with_pc _)) => apply frame_with_pc
  | |- keeps _ (put _) => apply frame_with_i
  | |- keeps _ (m_setitem _ _) => apply frame_m_setitem
  | |- keeps _ (read_mem_bytes _ _) => apply frame_read_mem_bytes
  | |- keeps _ (write_mem_bytes _ _ _) => apply frame_write_mem_bytes
  | |- keeps _ (if ?b then _ else _) => destruct b
  | |- keeps _ (let _ := _ in _) => cbv zeta
  end.

Ltac frame_handler :=
  lazymatch goal with
  | |- keeps _ ?fn => let h := head_of fn in unfold h
  end;
  unfold read_mem_256, write_mem_256, write_mem_8, code_at;
  repeat frame_step.

Lemma registrations_frame :
  Forall (fun kf : Z * M unit => keeps R kf.2) registrations.
Proof.
  unfold registrations. rewrite !Forall_app, !Forall_map.
  split; [|split; [|split]].
  - repeat (apply Forall_cons_2; [cbn [fst snd]; frame_handler|]).
    apply Forall_nil_2.
  - apply Forall_forall. intros ii _. cbn [fst snd]. frame_handler.
  - apply Forall_forall. intros ii _. cbn [fst snd]. frame_handler.
  - apply Forall_forall. intros ii _. cbn [fst snd]. frame_handler.
Qed.

Lemma execute_frame (op : Z) : keeps R (execute op).
Proof.
  unfold execute. destruct (_INSTRUCTION_MAP !! op) as [fn|] eqn:E.
  - apply lookup_registered in E.
    pose proof registrations_frame as F. rewrite Forall_forall in F.
    exact (F _ E).
  - apply frame_raise.
Qed.

Lemma main_loop_frame (fuel : nat) (st : MachineState) :
  match main_loop fuel st with
  | Some (_, st') => R st st'
  | None => True
  end.
Proof.
  revert st. induction fuel as [|fuel IH]; intros st; cbn [main_loop].
  - destruct (negb _); [apply R_refl|exact I].
  - destruct (negb _); [apply R_refl|].
    assert (K : R st (step st).2).
    { rewrite step_unfold. destruct (py.index (code st) (pc st)).
      - apply execute_frame.
      - apply R_refl. }
    destruct (step st) as [[[]|e] st1]; cbn [snd] in K; [|exact K].
    specialize (IH st1). destruct (main_loop fuel st1) as [[r st2]|];
      [|exact I].
    eapply R_trans; eassumption.
Qed.

End Frame.

(** X18.  No opcode changes the program or the gas counter: after
    executing any opcode, whether its handler returns or raises, [code]
    and [gas] are what they were, and so they are at the end of the loop
    of [main]; GAS therefore always pushes the initial gas. *)
Theorem code_and_gas_never_change (op : Z) (st : MachineState) :
  code (execute op st).2 = code st /\
  gas (execute op st).2 = gas st /\
  (forall fuel : nat,
     match main_loop fuel st with
     | Some (_, st') => code st' = code st /\ gas st' = gas st
     | None => True
     end).
Proof.
  assert (Rr : forall st, same_program st st) by (split; reflexivity).
  assert (Rt : forall st1 st2 st3, same_program st1 st2 ->
                 same_program st2 st3 -> same_program st1 st3).
  { intros st1 st2 st3 [A B] [C D]. split; congruence. }
  assert (Rp : forall st v, same_program st (with_pc v st))
    by (split; reflexivity).
  assert (Rm : forall st v, same_program st (with_m v st))
    by (split; reflexivity).
  assert (Ri : forall st v, same_program st (with_i v st))
    by (split; reflexivity).
  assert (Rs : forall st v, same_program st (with_s v st))
    by (split; reflexivity).
  pose proof (execute_frame same_program Rr Rt Rp Rm Ri Rs op st) as [C G].
  split; [exact C|]. split; [exact G|]. intros fuel.
  pose proof (main_loop_frame same_program Rr Rt Rp Rm Ri Rs fuel st) as H.
  destruct (main_loop fuel st) as [[r st']|]; [exact H|exact I].
Qed.

(** ** The height of the stack *)

Lemma shifts_ret {A : Type} (a : A) : shifts 0 (ret a).
Proof. intros st a' st' H. injection H as _ <-. lia. Qed.

Lemma shifts_raise {A : Type} (d : Z) (e : exn) : shifts d (raise (A := A) e).
Proof. intros st a st' H. discriminate. Qed.

Lemma shifts_lift {A : Type} (r : result A) : shifts 0 (lift r).
Proof. intros st a st' H. unfold lift in H. injection H as _ <-. lia. Qed.

Lemma shifts_get {A : Type} (f : MachineState -> A) : shifts 0 (get f).
Proof. intros st a st' H. injection H as _ <-. lia. Qed.

Lemma shifts_put (f : MachineState -> MachineState) :
  (forall st, s (f st) = s st) -> shifts 0 (put f).
Proof. intros F st a st' H. injection H as _ <-. rewrite F. lia. Qed.

Lemma shifts_bind {A B : Type} (d1 d2 d : Z) (c : M A) (k : A -> M B) :
  shifts d1 c -> (forall a, shifts d2 (k a)) -> d = d1 + d2 ->
  shifts d (mbind c k).
Proof.
  intros Hc Hk -> st b st' H. unfold mbind in H.
  destruct (c st) as [[a|e] st1] eqn:E; [|discriminate].
  pose proof (Hc _ _ _ E). pose proof (Hk a _ _ _ H). lia.
Qed.

Lemma shifts_s_pop : shifts (-1) s_pop.
Proof.
  intros st a st' H. unfold s_pop in H.
  destruct (s st) as [|w rest]; [discriminate|]. injection H as _ <-.
  unfold len. cbn [s with_s length]. lia.
Qed.

Lemma shifts_s_append (w : Int256) : shifts 1 (s_append w).
Proof.
  intros st a st' H. injection H as _ <-.
  unfold len. cbn [s with_s length]. lia.
Qed.

Lemma shifts_s_getitem_neg (n : nat) : shifts 0 (s_getitem_neg n).
Proof.
  intros st a st' H. unfold s_getitem_neg in H.
  destruct (nth_error _ _); [|discriminate]. injection H as _ <-. lia.
Qed.

Lemma shifts_s_setitem_neg (n : nat) (w : Int256) :
  shifts 0 (s_setitem_neg n w).
Proof.
  intros st a st' H. unfold s_setitem_neg in H.
  destruct (_ <? _)%nat; [|discriminate]. injection H as _ <-.
  unfold len. cbn [s with_s]. rewrite length_insert. lia.
Qed.

Lemma shifts_m_getitem (k : Z) : shifts 0 (m_getitem k).
Proof.
  intros st a st' H. unfold m_getitem in H.
  destruct (m st !! k); injection H as _ <-; cbn; lia.
Qed.

Lemma shifts_read_mem_bytes (offset : Z) (xs : list Z) :
  shifts 0 (read_mem_bytes offset xs).
Proof.
  induction xs as [|x xs IH]; cbn [read_mem_bytes].
  - apply shifts_ret.
  - eapply shifts_bind; [apply shifts_m_getitem| |reflexivity]. intros v.
    destruct (_ || _); [apply shifts_raise|].
    eapply shifts_bind; [exact IH| |reflexivity]. intros bs.
    apply shifts_ret.
Qed.

Lemma shifts_write_mem_bytes (offset x : Z) (ds : list Byte.byte) :
  shifts 0 (write_mem_bytes offset x ds).
Proof.
  revert x. induction ds as [|d ds IH]; intros x; cbn [write_mem_bytes].
  - apply shifts_ret.
  - eapply shifts_bind;
      [apply shifts_put; reflexivity|intros _; apply IH|reflexivity].
Qed.

Ltac shifts_tac :=
  lazymatch goal with
  | |- shifts _ (mbind _ _) =>
      eapply shifts_bind;
      [ shifts_tac | intros ?; shifts_tac | try reflexivity ]
  | |- shifts _ (ret _) => apply shifts_ret
  | |- shifts _ (raise _) => apply shifts_raise
  | |- shifts _ (lift _) => apply shifts_lift
  | |- shifts _ (get _) => apply shifts_get
  | |- shifts _ s_pop => apply shifts_s_pop
  | |- shifts _ (s_append _) => apply shifts_s_append
  | |- shifts _ (s_getitem_neg _) => apply shifts_s_getitem_neg
  | |- shifts _ (s_setitem_neg _ _) => apply shifts_s_setitem_neg
  | |- shifts _ (pc_add _) => apply shifts_put; reflexivity
  | |- shifts _ (m_setitem _ _) => apply shifts_put; reflexivity
  | |- shifts _ (put _) => apply shifts_put; reflexivity
  | |- shifts _ (read_mem_bytes _ _) => apply shifts_read_mem_bytes
  | |- shifts _ (write_mem_bytes _ _ _) => apply shifts_write_mem_bytes
  | |- shifts _ (if ?b then _ else _) =>
      destruct b; [idtac | shifts_tac]; shifts_tac
  | |- shifts _ (let _ := _ in _) => cbv zeta; shifts_tac
  end.

Ltac shifts_handler :=
  lazymatch goal with
  | |- shifts _ ?fn => let h := head_of fn in unfold h
  end;
  unfold read_mem_256, write_mem_256, write_mem_8, code_at;
  shifts_tac.

Lemma stack_delta_push (ii : Z) :
  0 <= ii < 32 -> stack_delta (0x60 + ii) = 1.
Proof. intros H. small_Z ii; reflexivity. Qed.

Lemma stack_delta_dup (ii : Z) :
  0 <= ii < 16 -> stack_delta (0x80 + ii) = 1.
Proof. intros H. small_Z ii; reflexivity. Qed.

Lemma stack_delta_swap (ii : Z) :
  0 <= ii < 16 -> stack_delta (0x90 + ii) = 0.
Proof. intros H. small_Z ii; reflexivity. Qed.

Lemma registrations_shift :
  Forall (fun kf : Z * M unit => shifts (stack_delta kf.1) kf.2)
         registrations.
Proof.
  unfold registrations. rewrite !Forall_app, !Forall_map.
  split; [|split; [|split]].
  - repeat (apply Forall_cons_2; [cbn [fst snd]; shifts_handler|]).
    apply Forall_nil_2.
  - apply Forall_forall. intros ii Hi. cbn [fst snd].
    apply elem_of_seqZ in Hi. rewrite stack_delta_push by lia.
    shifts_handler.
  - apply Forall_forall. intros ii Hi. cbn [fst snd].
    apply elem_of_seqZ in Hi. rewrite stack_delta_dup by lia.
    shifts_handler.
  - apply Forall_forall. intros ii Hi. cbn [fst snd].
    apply elem_of_seqZ in Hi. rewrite stack_delta_swap by lia.
    shifts_handler.
Qed.

(** X19.  Every opcode has a fixed effect on the height of the stack.
    When executing an opcode returns, the stack held at least the words
    its handler reads, and its height has changed by the words appended
    minus the words popped: -1 for the two-operand operations, POP and
    JUMP, -2 for ADDMOD, MULMOD, MSTORE, MSTORE8 and JUMPI, 0 for ISZERO,
    NOT, MLOAD, JUMPDEST and SWAPn, +1 for PC, MSIZE, GAS, PUSHn and
    DUPn. *)
Theorem stack_height_effect (op : Z) (st st' : MachineState) :
  execute op st = (Ok tt, st') ->
  len (s st') = len (s st) + stack_delta op /\
  (operands op <= length (s st))%nat.
Proof.
  intros H. unfold execute in H.
  destruct (_INSTRUCTION_MAP !! op) as [fn|] eqn:E; [|discriminate].
  apply lookup_registered in E.
  pose proof registrations_shift as F. rewrite Forall_forall in F.
  split; [exact (F _ E st tt st' H)|].
  destruct (Nat.le_gt_cases (operands op) (length (s st))) as [?|Lt];
    [assumption|].
  pose proof registrations_underflow as U. rewrite Forall_forall in U.
  pose proof (U _ E st Lt) as R. cbn [fst snd] in R.
  rewrite H in R. discriminate.
Qed.

(** ADD on a stack of two words. *)
Lemma stack_height_effect_witness :
  len (s (mkState (bytes [0x01; 0x00]) 0 1 ∅ 0 [word 3]))
    = len (s (mkState (bytes [0x01; 0x00]) 0 0 ∅ 0 [word 1; word 2]))
      + stack_delta 0x01 /\
  Nat.le (operands 0x01)
         (length (s (mkState (bytes [0x01; 0x00]) 0 0 ∅ 0 [word 1; word 2]))).
Proof.
  apply (stack_height_effect 0x01
           (mkState (bytes [0x01; 0x00]) 0 0 ∅ 0 [word 1; word 2])
           (mkState (bytes [0x01; 0x00]) 0 1 ∅ 0 [word 3])).
  vm_compute. reflexivity.
Defined.

(** ** Programs without jumps *)

Lemma index_member {A : Type} (l : list A) (j : Z) (x : A) :
  py.index l j = Ok x -> In x l.
Proof.
  unfold py.index. destruct (_ || _); [discriminate|].
  destruct (nth_error l _) as [y|] eqn:N; [|discriminate].
  intros [= <-]. exact (nth_error_In _ _ N).
Qed.

(** One turn of the loop on an opcode other than JUMP and JUMPI moves the
    program counter forward. *)
Lemma step_moves_forward (st st' : MachineState) (b : Byte.byte) :
  py.index (code st) (pc st) = Ok b ->
  byte_to_Z b <> 0x56 -> byte_to_Z b <> 0x57 ->
  step st = (Ok tt, st') ->
  code st' = code st /\ pc st < pc st'.
Proof.
  intros I N1 N2 H. rewrite step_unfold, I in H. unfold execute in H.
  destruct (_INSTRUCTION_MAP !! byte_to_Z b) as [fn|] eqn:E;
    [|discriminate].
  apply lookup_registered in E.
  pose proof registrations_land as F. rewrite Forall_forall in F.
  destruct (F _ E st st' H) as [C [[[J|J] _]|(_ & _ & P)]]; cbn [fst] in *;
    try contradiction.
  split; [exact C|]. pose proof (push_width_nonneg (byte_to_Z b)). lia.
Qed.

Lemma main_loop_same_program (fuel : nat) (st : MachineState)
    (r : result unit) (st' : MachineState) :
  main_loop fuel st = Some (r, st') -> same_program st st'.
Proof.
  intros H.
  assert (Rr : forall st, same_program st st) by (split; reflexivity).
  assert (Rt : forall st1 st2 st3, same_program st1 st2 ->
                 same_program st2 st3 -> same_program st1 st3).
  { intros st1 st2 st3 [A B] [C D]. split; congruence. }
  pose proof (main_loop_frame same_program Rr Rt
                ltac:(split; reflexivity) ltac:(split; reflexivity)
                ltac:(split; reflexivity) ltac:(split; reflexivity)
                fuel st) as K.
  now rewrite H in K.
Qed.

(** X24.  A program without JUMP and JUMPI always leaves the loop of
    [main].  When no byte of the code is 0x56 or 0x57, the loop ends, by
    running off the end of the code or by an exception, within as many
    turns as there are bytes between the program counter and the end of the
    code; the code is the same at the end. *)
Theorem jump_free_program_terminates (st : MachineState) (fuel : nat) :
  (forall b, In b (code st) -> byte_to_Z b <> 0x56 /\ byte_to_Z b <> 0x57) ->
  len (code st) - pc st <= Z.of_nat fuel ->
  exists r st', main_loop fuel st = Some (r, st') /\ code st' = code st.
Proof.
  intros J L.
  assert (T : exists r st', main_loop fuel st = Some (r, st')).
  { revert st J L. induction fuel as [|fuel IH]; intros st J L.
    - cbn [main_loop].
      destruct (Z.ltb_spec (pc st) (len (code st))); [lia|].
      cbn [negb]. eauto.
    - cbn [main_loop].
      destruct (Z.ltb_spec (pc st) (len (code st))) as [P|P];
        cbn [negb]; [|eauto].
      destruct (step st) as [[[]|e] st1] eqn:S; [|eauto].
      assert (S' := S). rewrite step_unfold in S'.
      destruct (py.index (code st) (pc st)) as [b|e] eqn:I; [|discriminate].
      destruct (J b (index_member _ _ _ I)) as [N1 N2].
      destruct (step_moves_forward st st1 b I N1 N2 S) as [C M].
      apply IH; rewrite C; [exact J|lia]. }
  destruct T as (r & st' & T). exists r, st'. split; [exact T|].
  exact (proj1 (main_loop_same_program fuel st r st' T)).
Qed.

(** PUSH1 1, PUSH1 2, ADD. *)
Lemma jump_free_program_terminates_witness :
  exists r st',
    main_loop 5 (new_state (bytes [0x60; 0x01; 0x60; 0x02; 0x01]))
      = Some (r, st') /\
    code st' = code (new_state (bytes [0x60; 0x01; 0x60; 0x02; 0x01])).
Proof.
  apply (jump_free_program_terminates
           (new_state (bytes [0x60; 0x01; 0x60; 0x02; 0x01])) 5).
  - intros b H. vm_compute in H.
    repeat (destruct H as [<-|H]; [vm_compute; split; congruence|]).
    contradiction.
  - vm_compute. congruence.
Defined.

(** ** MSTORE8 *)

(** X25.  MSTORE8 stores the low byte of the value.  With an offset on top
    of the stack and a 32-byte word beneath it, MSTORE8 returns, pops both
    words, sets the memory at the offset to the value modulo 256, leaves
    every other address alone, sets the counter of active words to
    [max(i, (offset + 1) // 32)] and advances the program counter by 1. *)
Theorem mstore8_stores_low_byte (st : MachineState) (o v : Int256)
    (rest : list Int256) :
  s st = o :: v :: rest -> length (_bytes_value v) = 32%nat ->
  mstore8 st
    = (Ok tt,
       mkState (code st) (gas st) (pc st + 1)
               (<[unsigned o := unsigned v mod 256]> (m st))
               (Z.max (i st) ((unsigned o + 1) / 32)) rest).
Proof.
  intros E L. unfold mstore8, mbind, s_pop, write_mem_8, mbind, lift,
    m_setitem, put, pc_add, put.
  rewrite E. cbn [s with_s].
  destruct (index_in_bounds (_bytes_value v) 31) as [b [I N]];
    [unfold len; lia|].
  rewrite I. apply nth_byte_value in N. unfold len in N. rewrite L in N.
  change (2 ^ (8 * (Z.of_nat 32 - 1 - Z.of_nat (Z.to_nat 31)))) with 1 in N.
  rewrite Z.div_1_r in N. fold (unsigned v) in N. rewrite N.
  reflexivity.
Qed.

(** The word 0x1aa stored at offset 33. *)
Lemma mstore8_stores_low_byte_witness :
  mstore8 (mkState (bytes [0x53; 0x00]) 0 0 ∅ 0 [word 33; word 0x1aa])
    = (Ok tt,
       mkState (bytes [0x53; 0x00]) 0 1 (<[33 := 0xaa]> ∅) 1 []).
Proof.
  rewrite (mstore8_stores_low_byte
             (mkState (bytes [0x53; 0x00]) 0 0 ∅ 0 [word 33; word 0x1aa])
             (word 33) (word 0x1aa) []) by reflexivity.
  reflexivity.
Defined.

(** ** rlp.py: lengths, decoding and the round trip *)

Section Rlp.

Import rlp.

Lemma Item_nested_ind (P : Item -> Prop) :
  (forall value, P (Bytes value)) ->
  (forall value, Forall P value -> P (Items value)) ->
  forall value, P value.
Proof.
  intros Hb Hl. fix IH 1. intros [value|value]; [apply Hb|].
  apply Hl. induction value as [|item value IHv].
  - apply Forall_nil_2.
  - apply Forall_cons_2; [apply IH|exact IHv].
Qed.

Lemma byte_to_of_Z (z : Z) : 0 <= z < 256 -> byte_to_Z (byte_of_Z z) = z.
Proof.
  intros H. unfold byte_to_Z, byte_of_Z.
  destruct (Byte.of_N (Z.to_N z)) as [b|] eqn:E.
  - apply Byte.to_of_N in E. rewrite E. lia.
  - apply Byte.of_N_None_iff in E. lia.
Qed.

Lemma lstrip_value (bs : list Byte.byte) :
  from_bytes_unsigned (lstrip bs) = from_bytes_unsigned bs.
Proof.
  induction bs as [|b bs IH]; [reflexivity|].
  destruct b; try reflexivity.
  cbn [lstrip]. rewrite IH. change (x00 :: bs) with ([x00] ++ bs).
  rewrite from_bytes_unsigned_app. reflexivity.
Qed.

Lemma lstrip_length (bs : list Byte.byte) :
  (length (lstrip bs) <= length bs)%nat.
Proof.
  induction bs as [|b bs IH]; [reflexivity|].
  destruct b; try reflexivity. cbn [lstrip length]. lia.
Qed.

Lemma lstrip_head (bs : list Byte.byte) : hd_error (lstrip bs) <> Some x00.
Proof.
  induction bs as [|b bs IH]; [discriminate|].
  destruct b; try discriminate. exact IH.
Qed.

Lemma _decode_int64_short (data : list Byte.byte) :
  len data <= 8 -> _decode_int64 data = Return (from_bytes_unsigned data).
Proof.
  intros H. unfold _decode_int64, repeat_byte.
  assert (L : len (repeat x00 (Z.to_nat (8 - len data)) ++ data) = 8).
  { unfold len in *. rewrite length_app, repeat_length. lia. }
  rewrite L. cbn [Z.eqb Pos.eqb]. cbv iota.
  now rewrite from_bytes_unsigned_app, from_bytes_zeros.
Qed.

Lemma _decode_int64_long (data : list Byte.byte) :
  8 < len data -> _decode_int64 data = Raises struct_error.
Proof.
  intros H. unfold _decode_int64, repeat_byte.
  replace (Z.to_nat (8 - len data)) with 0%nat by lia.
  cbn [repeat app]. destruct (Z.eqb_spec (len data) 8); [lia|reflexivity].
Qed.

Lemma _encode_int64_in_range (v : Z) :
  0 <= v < 2 ^ 64 ->
  _encode_int64 v = Return (lstrip (rev (digits_le 8 v))) /\
  len (lstrip (rev (digits_le 8 v))) <= 8 /\
  _decode_int64 (lstrip (rev (digits_le 8 v))) = Return v.
Proof.
  intros H. unfold _encode_int64.
  destruct (Z.ltb_spec v 0); [lia|].
  destruct (Z.leb_spec (2 ^ 64) v); [lia|].
  assert (L : len (lstrip (rev (digits_le 8 v))) <= 8).
  { pose proof (lstrip_length (rev (digits_le 8 v))) as L.
    rewrite length_rev, digits_le_length in L. unfold len. lia. }
  split; [reflexivity|]. split; [exact L|].
  rewrite _decode_int64_short by exact L.
  rewrite lstrip_value, from_bytes_digits.
  change (2 ^ (8 * Z.of_nat 8)) with (2 ^ 64).
  now rewrite Z.mod_small by lia.
Qed.

(** X20.  The length fields of the encoding.  [_encode_int64] returns
    exactly for the integers from 0 to 2^64 - 1, and raises struct.error
    for the others; what it returns has at most 8 bytes and no leading
    zero byte, and [_decode_int64] gives the integer back.
    [_decode_int64] itself returns the big-endian value of bytes of length
    at most 8 and raises struct.error on longer ones. *)
Theorem int64_length_codec (value : Z) (data : list Byte.byte) :
  match _encode_int64 value with
  | Return bs =>
      0 <= value < 2 ^ 64 /\ len bs <= 8 /\ hd_error bs <> Some x00 /\
      _decode_int64 bs = Return value
  | Raises e => e = struct_error /\ (value < 0 \/ 2 ^ 64 <= value)
  end /\
  _decode_int64 data
    = if len data <=? 8 then Return (from_bytes_unsigned data)
      else Raises struct_error.
Proof.
  split.
  - destruct (Z.ltb_spec value 0) as [N|N].
    { unfold _encode_int64. destruct (Z.ltb_spec value 0); [|lia].
      cbn. split; [reflexivity|lia]. }
    destruct (Z.leb_spec (2 ^ 64) value) as [B|B].
    { unfold _encode_int64. destruct (Z.ltb_spec value 0); [lia|].
      destruct (Z.leb_spec (2 ^ 64) value); [|lia].
      cbn. split; [reflexivity|lia]. }
    destruct (_encode_int64_in_range value) as (E & L & D); [lia|].
    rewrite E. repeat split; try lia; [apply lstrip_head|exact D].
  - destruct (Z.leb_spec (len data) 8).
    + now apply _decode_int64_short.
    + now apply _decode_int64_long.
Qed.

Lemma slice_from_shorter {A : Type} (l : list A) (k : Z) :
  l <> [] -> 1 <= k -> (length (slice_from l k) < length l)%nat.
Proof.
  intros N K. unfold slice_from, clamp. rewrite length_skipn.
  destruct l as [|x l]; [congruence|]. unfold len. cbn [length].
  destruct (Z.ltb_spec k 0); lia.
Qed.

Lemma slice_tail_length {A : Type} (l : list A) (a b : Z) :
  l <> [] -> 1 <= a -> (length (slice l a b) < length l)%nat.
Proof.
  intros N K. unfold slice. rewrite length_firstn, length_skipn.
  unfold clamp. destruct l as [|x l]; [congruence|].
  unfold len. cbn [length].
  destruct (Z.ltb_spec a 0); destruct (Z.ltb_spec b 0); lia.
Qed.

Lemma slice_length_width {A : Type} (l : list A) (a b : Z) :
  0 <= a <= b -> (length (slice l a b) <= Z.to_nat (b - a))%nat.
Proof.
  intros H. destruct (slice_forward l a b H) as [_ L]. rewrite L. lia.
Qed.

Lemma _decode_int64_nonneg (data : list Byte.byte) (n : Z) :
  _decode_int64 data = Return n -> 0 <= n.
Proof.
  unfold _decode_int64. destruct (_ =? _); [|discriminate].
  intros [= <-]. apply from_bytes_unsigned_range.
Qed.

(** The length field that [_decode_item] reads is never more than eight
    bytes, so that [_decode_int64] returns. *)
Lemma length_field_decodes (data : list Byte.byte) (e : Z) :
  0 <= e <= 8 ->
  exists n, _decode_int64 (slice data 1 (e + 1)) = Return n /\ 0 <= n.
Proof.
  intros H. pose proof (slice_length_width data 1 (e + 1)) as L.
  rewrite _decode_int64_short by (unfold len; lia).
  eexists. split; [reflexivity|]. apply from_bytes_unsigned_range.
Qed.

Lemma _decode_item_remainder (fuel : nat) (data : list Byte.byte)
    (item : Item) (remainder : list Byte.byte) :
  _decode_item fuel data = Some (Return (item, remainder)) ->
  (length remainder < length data)%nat.
Proof.
  destruct fuel as [|fuel]; [discriminate|].
  destruct data as [|b data]; [discriminate|].
  cbn [_decode_item]. pose proof (byte_to_Z_range b) as Rb.
  intros H.
  repeat lazymatch type of H with
  | context [if ?c then _ else _] => destruct c eqn:?
  | context [match _decode_int64 ?x with _ => _ end] =>
      let E := fresh "E" in
      destruct (_decode_int64 x) eqn:E;
      [apply _decode_int64_nonneg in E|]
  | context [match _decode_list ?f ?a ?x with _ => _ end] =>
      destruct (_decode_list f a x) as [[?|?]|]
  end; try discriminate; injection H as _ <-;
  apply slice_from_shorter; try discriminate; lia.
Qed.

Lemma fuel_is_enough (fuel : nat) :
  (forall data (r : outcome (Item * list Byte.byte)),
     _decode_item fuel data = Some r ->
     forall fuel', (fuel <= fuel')%nat -> _decode_item fuel' data = Some r) /\
  (forall result remainder (r : outcome (list Item)),
     _decode_list fuel result remainder = Some r ->
     forall fuel', (fuel <= fuel')%nat ->
     _decode_list fuel' result remainder = Some r).
Proof.
  induction fuel as [|fuel [IHi IHl]]; (split; [intros data r H fuel' L
                                               |intros acc data r H fuel' L]);
    try discriminate.
  - destruct fuel' as [|fuel']; [lia|].
    destruct data as [|b data]; [exact H|].
    cbn [_decode_item] in H |- *.
    repeat lazymatch type of H with
    | context [if ?c then _ else _] => destruct c
    | context [match _decode_int64 ?x with _ => _ end] =>
        destruct (_decode_int64 x)
    | context [match _decode_list fuel ?a ?x with _ => _ end] =>
        let E := fresh "E" in
        destruct (_decode_list fuel a x) eqn:E;
        [rewrite (IHl _ _ _ E fuel') by lia|discriminate]
    end; exact H.
  - destruct fuel' as [|fuel']; [lia|].
    destruct data as [|b data]; [exact H|].
    cbn [_decode_list] in H |- *.
    destruct (_decode_item fuel (b :: data)) as [r0|] eqn:E; [|discriminate].
    rewrite (IHi _ _ E fuel') by lia.
    destruct r0 as [[item rem]|e]; [|exact H].
    apply (IHl _ _ _ H). lia.
Qed.

Lemma decoding_returns (fuel : nat) :
  (forall data, data <> [] -> (2 * length data <= fuel)%nat ->
     exists item remainder,
       _decode_item fuel data = Some (Return (item, remainder))) /\
  (forall result remainder, (2 * length remainder < fuel)%nat ->
     exists items, _decode_list fuel result remainder = Some (Return items)).
Proof.
  induction fuel as [|fuel [IHi IHl]]; (split; [intros data N L
                                               |intros acc data L]).
  - destruct data; [congruence|]. cbn [length] in L. lia.
  - lia.
  - destruct data as [|b data]; [congruence|].
    pose proof (byte_to_Z_range b) as Rb.
    assert (T : forall a z, 1 <= a ->
              (2 * length (slice (b :: data) a z) < fuel)%nat).
    { intros a z Ha.
      pose proof (slice_tail_length (b :: data) a z) as T.
      cbn [length] in *. specialize (T ltac:(discriminate) Ha). lia. }
    cbn [_decode_item].
    destruct (Z.ltb_spec (byte_to_Z b) 192).
    + destruct (byte_to_Z b <? 128); [eauto|].
      destruct (Z.ltb_spec (byte_to_Z b) 183); [eauto|].
      destruct (length_field_decodes (b :: data) (byte_to_Z b - 183))
        as (n & -> & _); [lia|]. eauto.
    + destruct (Z.ltb_spec (byte_to_Z b) 247).
      * destruct (IHl [] (slice (b :: data) 1 (byte_to_Z b - 192 + 1)))
          as [items ->]; [apply T; lia|]. eauto.
      * destruct (length_field_decodes (b :: data) (byte_to_Z b - 247))
          as (n & -> & Hn); [lia|].
        destruct (IHl [] (slice (b :: data) (byte_to_Z b - 247 + 1)
                                 (byte_to_Z b - 247 + n + 1)))
          as [items ->]; [apply T; lia|]. eauto.
  - destruct data as [|b data]; [cbn; eauto|].
    cbn [_decode_list].
    destruct (IHi (b :: data)) as (item & rem & E);
      [discriminate|cbn [length] in *; lia|].
    rewrite E. apply IHl.
    apply _decode_item_remainder in E. cbn [length] in *. lia.
Qed.

Lemma slice_app_middle {A : Type} (pre mid post : list A) :
  slice (pre ++ mid ++ post) (len pre) (len pre + len mid) = mid.
Proof.
  destruct (slice_forward (pre ++ mid ++ post) (len pre)
              (len pre + len mid)) as [-> _]; [unfold len; lia|].
  replace (len pre + len mid - len pre) with (len mid) by lia.
  unfold len. rewrite !Nat2Z.id.
  rewrite skipn_app, skipn_all, Nat.sub_diag. cbn [app skipn].
  unfold drop. rewrite firstn_app, firstn_all, Nat.sub_diag. cbn [firstn].
  apply app_nil_r.
Qed.

Lemma slice_from_app {A : Type} (pre post : list A) :
  slice_from (pre ++ post) (len pre) = post.
Proof.
  unfold slice_from, clamp, len. rewrite length_app.
  destruct (Z.ltb_spec (Z.of_nat (length pre)) 0); [lia|].
  replace (Z.to_nat _) with (length pre) by lia.
  rewrite skipn_app, skipn_all, Nat.sub_diag. reflexivity.
Qed.

Lemma slice_empty {A : Type} (l : list A) (a : Z) : slice l a a = [].
Proof. unfold slice. now rewrite Z.sub_diag. Qed.

(** What [_decode_item] does with a string header followed by its
    payload, and with a list header followed by its payload. *)
Lemma decode_string_payload (fuel : nat) (head value rest : list Byte.byte)
    (b : Byte.byte) :
  (byte_to_Z b < 128 /\ head = [] /\ value = [b]) \/
  (128 <= byte_to_Z b < 183 /\ head = [b] /\
   len value = byte_to_Z b - 128) \/
  (exists len_enc, 183 <= byte_to_Z b < 192 /\ head = b :: len_enc /\
     len len_enc = byte_to_Z b - 183 /\
     _decode_int64 len_enc = Return (len value)) ->
  _decode_item (S fuel) (head ++ value ++ rest)
    = Some (Return (Bytes value, rest)).
Proof.
  intros [(Hb & -> & ->)|[(Hb & -> & L)|(len_enc & Hb & -> & L & D)]].
  - cbn [app _decode_item].
    destruct (Z.ltb_spec (byte_to_Z b) 192); [|lia].
    destruct (Z.ltb_spec (byte_to_Z b) 128); [|lia].
    change (b :: rest) with ([b] ++ rest) at 2.
    change (b :: rest) with ([] ++ [b] ++ rest).
    change 0 with (len (@nil Byte.byte)) at 1.
    change 1 with (len (@nil Byte.byte) + len [b]) at 1.
    rewrite slice_app_middle.
    change 1 with (len [b]). now rewrite slice_from_app.
  - cbn [app _decode_item].
    destruct (Z.ltb_spec (byte_to_Z b) 192); [|lia].
    destruct (Z.ltb_spec (byte_to_Z b) 128); [lia|].
    destruct (Z.ltb_spec (byte_to_Z b) 183); [|lia].
    rewrite <- L.
    change (b :: value ++ rest) with ([b] ++ value ++ rest) at 1.
    replace (len value + 1) with (len [b] + len value) by (unfold len; cbn; lia).
    change 1 with (len [b]) at 1. rewrite slice_app_middle.
    change (b :: value ++ rest) with ((b :: value) ++ rest).
    replace (len [b] + len value) with (len (b :: value))
      by (unfold len; cbn [length]; lia).
    now rewrite slice_from_app.
  - cbn [app _decode_item].
    destruct (Z.ltb_spec (byte_to_Z b) 192); [|lia].
    destruct (Z.ltb_spec (byte_to_Z b) 128); [lia|].
    destruct (Z.ltb_spec (byte_to_Z b) 183); [lia|].
    rewrite <- L.
    assert (S1 : slice (b :: len_enc ++ value ++ rest) 1 (len len_enc + 1)
                 = len_enc).
    { change (b :: len_enc ++ value ++ rest)
        with ([b] ++ len_enc ++ value ++ rest).
      replace (len len_enc + 1) with (len [b] + len len_enc)
        by (unfold len; cbn; lia).
      change 1 with (len [b]) at 1. apply slice_app_middle. }
    rewrite S1, D.
    change (b :: len_enc ++ value ++ rest)
      with ((b :: len_enc) ++ value ++ rest) at 1.
    replace (len len_enc + 1) with (len (b :: len_enc))
      by (unfold len; cbn [length]; lia).
    replace (len len_enc + len value + 1)
      with (len (b :: len_enc) + len value)
      by (unfold len; cbn [length]; lia).
    rewrite slice_app_middle.
    replace (b :: len_enc ++ value ++ rest)
      with (((b :: len_enc) ++ value) ++ rest)
      by (now rewrite <- app_assoc).
    replace (len (b :: len_enc) + len value)
      with (len ((b :: len_enc) ++ value))
      by (unfold len; rewrite length_app; lia).
    now rewrite slice_from_app.
Qed.

Lemma decode_list_payload (fuel : nat) (head payload rest : list Byte.byte)
    (b : Byte.byte) (items : list Item) :
  (192 <= byte_to_Z b < 247 /\ head = [b] /\
   len payload = byte_to_Z b - 192) \/
  (exists len_enc, 247 <= byte_to_Z b /\ head = b :: len_enc /\
     len len_enc = byte_to_Z b - 247 /\
     _decode_int64 len_enc = Return (len payload)) ->
  _decode_list fuel [] payload = Some (Return items) ->
  _decode_item (S fuel) (head ++ payload ++ rest)
    = Some (Return (Items items, rest)).
Proof.
  intros [(Hb & -> & L)|(len_enc & Hb & -> & L & D)] P.
  - cbn [app _decode_item].
    destruct (Z.ltb_spec (byte_to_Z b) 192); [lia|].
    destruct (Z.ltb_spec (byte_to_Z b) 247); [|lia].
    rewrite <- L.
    change (b :: payload ++ rest) with ([b] ++ payload ++ rest) at 1.
    replace (len payload + 1) with (len [b] + len payload)
      by (unfold len; cbn; lia).
    change 1 with (len [b]) at 1. rewrite slice_app_middle, P.
    change (b :: payload ++ rest) with ((b :: payload) ++ rest).
    replace (len [b] + len payload) with (len (b :: payload))
      by (unfold len; cbn [length]; lia).
    now rewrite slice_from_app.
  - cbn [app _decode_item].
    destruct (Z.ltb_spec (byte_to_Z b) 192); [lia|].
    destruct (Z.ltb_spec (byte_to_Z b) 247); [lia|].
    rewrite <- L.
    assert (S1 : slice (b :: len_enc ++ payload ++ rest) 1 (len len_enc + 1)
                 = len_enc).
    { change (b :: len_enc ++ payload ++ rest)
        with ([b] ++ len_enc ++ payload ++ rest).
      replace (len len_enc + 1) with (len [b] + len len_enc)
        by (unfold len; cbn; lia).
      change 1 with (len [b]) at 1. apply slice_app_middle. }
    rewrite S1, D.
    change (b :: len_enc ++ payload ++ rest)
      with ((b :: len_enc) ++ payload ++ rest) at 1.
    replace (len len_enc + 1) with (len (b :: len_enc))
      by (unfold len; cbn [length]; lia).
    replace (len len_enc + len payload + 1)
      with (len (b :: len_enc) + len payload)
      by (unfold len; cbn [length]; lia).
    rewrite slice_app_middle, P.
    replace (b :: len_enc ++ payload ++ rest)
      with (((b :: len_enc) ++ payload) ++ rest)
      by (now rewrite <- app_assoc).
    replace (len (b :: len_enc) + len payload)
      with (len ((b :: len_enc) ++ payload))
      by (unfold len; rewrite length_app; lia).
    now rewrite slice_from_app.
Qed.

Lemma _encode_int64_returns (v : Z) (bs : list Byte.byte) :
  _encode_int64 v = Return bs ->
  0 <= v < 2 ^ 64 /\ len bs <= 8 /\ _decode_int64 bs = Return v /\
  (0 < v -> 0 < len bs).
Proof.
  intros E.
  assert (R : 0 <= v < 2 ^ 64).
  { unfold _encode_int64 in E.
    destruct (Z.ltb_spec v 0); [discriminate|].
    destruct (Z.leb_spec (2 ^ 64) v); [discriminate|]. lia. }
  destruct (_encode_int64_in_range v R) as (E' & L & D).
  assert (X : bs = lstrip (rev (digits_le 8 v))) by congruence.
  rewrite <- X in L, D. clear E E' X.
  split; [exact R|]. split; [exact L|]. split; [exact D|].
  intros P. destruct bs as [|b l].
  - rewrite _decode_int64_short in D by exact L.
    injection D as D. change (from_bytes_unsigned []) with 0 in D. lia.
  - unfold len. cbn [length]. lia.
Qed.

Lemma join_cons {A : Type} (f : A -> outcome (list Byte.byte))
    (item : A) (rest : list A) :
  join f (item :: rest)
    = match f item with
      | Raises e => Raises e
      | Return encoded =>
          match join f rest with
          | Raises e => Raises e
          | Return tail => Return (encoded ++ tail)
          end
      end.
Proof. reflexivity. Qed.

Lemma encode_Items (value : list Item) :
  encode (Items value)
    = match join encode value with
      | Raises e => Raises e
      | Return encoded_list =>
          if len encoded_list <=? 55 then
            Return (byte_of_Z (0xc0 + len encoded_list) :: encoded_list)
          else
            match _encode_int64 (len encoded_list) with
            | Raises e => Raises e
            | Return len_enc =>
                Return (byte_of_Z (0xf7 + len len_enc)
                          :: len_enc ++ encoded_list)
            end
      end.
Proof. reflexivity. Qed.

Lemma off_55_Items (value : list Item) :
  off_55 (Items value)
    = forallb off_55 value &&
      match join encode value with
      | Return encoded_list => negb (len encoded_list =? 55)
      | Raises _ => true
      end.
Proof. reflexivity. Qed.

Lemma encoded_string_decodes (fuel : nat) (value e rest : list Byte.byte) :
  len value <> 55 -> encode (Bytes value) = Return e ->
  e <> [] /\
  _decode_item (S fuel) (e ++ rest) = Some (Return (Bytes value, rest)).
Proof.
  intros O E. cbn [encode] in E.
  destruct (single_low_byte value) eqn:S.
  - injection E as <-. unfold single_low_byte in S.
    apply andb_true_iff in S as [L B].
    destruct value as [|b [|b' value]]; try discriminate.
    2: { apply Z.eqb_eq in L. unfold len in L. cbn [length] in L. lia. }
    split; [discriminate|].
    apply (decode_string_payload fuel [] [b] rest b). left.
    split; [lia|]. split; reflexivity.
  - destruct (Z.leb_spec (len value) 55) as [L|L].
    + injection E as <-. split; [discriminate|].
      assert (0 <= len value) by (unfold len; lia).
      apply (decode_string_payload fuel [_] value rest
               (byte_of_Z (128 + len value))). right. left.
      rewrite byte_to_of_Z by lia. split; [lia|]. split; [reflexivity|lia].
    + destruct (_encode_int64 (len value)) as [len_enc|] eqn:I;
        [|discriminate].
      injection E as <-. split; [discriminate|].
      apply _encode_int64_returns in I as (_ & L8 & D & P).
      specialize (P ltac:(lia)).
      change ((byte_of_Z (183 + len len_enc) :: len_enc ++ value) ++ rest)
        with (byte_of_Z (183 + len len_enc) :: (len_enc ++ value) ++ rest).
      rewrite <- app_assoc.
      apply (decode_string_payload fuel (_ :: len_enc) value rest
               (byte_of_Z (183 + len len_enc))).
      right. right. exists len_enc.
      rewrite byte_to_of_Z by lia.
      split; [lia|]. split; [reflexivity|]. split; [lia|exact D].
Qed.

Lemma _decode_list_step (fuel : nat) (result : list Item)
    (remainder : list Byte.byte) :
  remainder <> [] ->
  _decode_list (S fuel) result remainder
    = match _decode_item fuel remainder with
      | None => None
      | Some (Raises e) => Some (Raises e)
      | Some (Return (item, remainder)) =>
          _decode_list fuel (result ++ [item]) remainder
      end.
Proof. intros N. destruct remainder; [congruence|reflexivity]. Qed.

Lemma join_decodes (value : list Item) :
  Forall (fun item => off_55 item = true ->
            forall e, encode item = Return e ->
            e <> [] /\
            forall rest, exists fuel0, forall fuel, (fuel0 <= fuel)%nat ->
              _decode_item fuel (e ++ rest) = Some (Return (item, rest)))
         value ->
  forallb off_55 value = true ->
  forall payload, join encode value = Return payload ->
  forall result, exists fuel0, forall fuel, (fuel0 <= fuel)%nat ->
    _decode_list fuel result payload = Some (Return (result ++ value)).
Proof.
  induction 1 as [|item value Hv Hl IH]; intros O payload J result.
  - injection J as <-. exists 1%nat. intros [|fuel] Hf; [lia|].
    cbn. now rewrite app_nil_r.
  - rewrite join_cons in J.
    destruct (encode item) as [e|] eqn:Ev; [|discriminate].
    destruct (join encode value) as [t|] eqn:Jt; [|discriminate].
    injection J as <-. cbn [forallb] in O.
    apply andb_true_iff in O as [Ov Ol].
    destruct (Hv Ov e eq_refl) as [Ne D].
    destruct (D t) as [f1 D1].
    destruct (IH Ol t eq_refl (result ++ [item])) as [f2 D2].
    exists (S (Nat.max f1 f2)). intros [|fuel] Hf; [lia|].
    rewrite _decode_list_step by (destruct e; [congruence|discriminate]).
    rewrite D1 by lia. rewrite D2 by lia.
    now rewrite <- app_assoc.
Qed.

Lemma encoded_item_decodes (value : Item) :
  off_55 value = true ->
  forall e, encode value = Return e ->
  e <> [] /\
  forall rest, exists fuel0, forall fuel, (fuel0 <= fuel)%nat ->
    _decode_item fuel (e ++ rest) = Some (Return (value, rest)).
Proof.
  induction value as [value|value IH] using Item_nested_ind; intros O e E.
  - cbn [off_55] in O. apply negb_true_iff, Z.eqb_neq in O.
    split; [exact (proj1 (encoded_string_decodes 0 value e [] O E))|].
    intros rest. exists 1%nat. intros [|fuel] Hf; [lia|].
    exact (proj2 (encoded_string_decodes fuel value e rest O E)).
  - rewrite encode_Items in E. rewrite off_55_Items in O.
    destruct (join encode value) as [payload|] eqn:J; [|discriminate].
    apply andb_true_iff in O as [Ol O].
    apply negb_true_iff, Z.eqb_neq in O.
    destruct (join_decodes value IH Ol payload J []) as [f0 D].
    assert (0 <= len payload) by (unfold len; lia).
    destruct (Z.leb_spec (len payload) 55) as [L|L].
    + injection E as <-. split; [discriminate|].
      intros rest. exists (S f0). intros [|fuel] Hf; [lia|].
      apply (decode_list_payload fuel [_] payload rest
               (byte_of_Z (192 + len payload)) value).
      * left. rewrite byte_to_of_Z by lia.
        split; [lia|]. split; [reflexivity|lia].
      * apply D. lia.
    + destruct (_encode_int64 (len payload)) as [len_enc|] eqn:I;
        [|discriminate].
      injection E as <-. split; [discriminate|].
      apply _encode_int64_returns in I as (_ & L8 & Dl & P).
      specialize (P ltac:(lia)).
      intros rest. exists (S f0). intros [|fuel] Hf; [lia|].
      change ((byte_of_Z (247 + len len_enc) :: len_enc ++ payload) ++ rest)
        with (byte_of_Z (247 + len len_enc) :: (len_enc ++ payload) ++ rest).
      rewrite <- app_assoc.
      apply (decode_list_payload fuel (_ :: len_enc) payload rest
               (byte_of_Z (247 + len len_enc)) value).
      * right. exists len_enc. rewrite byte_to_of_Z by lia.
        split; [lia|]. split; [reflexivity|]. split; [lia|exact Dl].
      * apply D. lia.
Qed.

(** X21.  The exceptions of [decode], the depth of recursion left aside.
    [decode] raises IndexError exactly when the data is empty, never inside
    the data: the slices are clamped and the loop of [_decode_list] stops
    on an empty remainder.  It never raises struct.error: the length field
    that it reads has at most eight bytes.  And the loop and the calls of
    [_decode_item] and [_decode_list] come to an end, every item taking at
    least one byte. *)
Theorem decode_raises_IndexError_on_empty_data_only (data : list Byte.byte) :
  decode data <> None /\
  (decode data = Some (Raises IndexError) <-> data = []) /\
  decode data <> Some (Raises struct_error).
Proof.
  destruct data as [|b data].
  { repeat split; discriminate. }
  assert (E : exists item, decode (b :: data) = Some (Return item)).
  { unfold decode.
    destruct (decoding_returns (2 * length (b :: data) + 1)) as [Hi _].
    destruct (Hi (b :: data)) as (item & rem & E); [discriminate|lia|].
    rewrite E. eauto. }
  destruct E as [item E]. rewrite E.
  split; [discriminate|]. split; [|discriminate].
  split; discriminate.
Qed.

(** X22.  Decoding undoes encoding, whatever follows the encoding.  For
    an item in which no byte string is 55 bytes long and no list has a
    payload of 55 bytes, if [encode] returns, then [decode] applied to the
    encoding followed by any further bytes returns the item. *)
Theorem decode_encode_round_trip (value : Item)
    (encoded rest : list Byte.byte) :
  off_55 value = true ->
  encode value = Return encoded ->
  decode (encoded ++ rest) = Some (Return value).
Proof.
  intros O E.
  destruct (encoded_item_decodes value O encoded E) as [Ne D].
  destruct (D rest) as [f0 D0]. unfold decode.
  set (fuel := (2 * length (encoded ++ rest) + 1)%nat).
  destruct (decoding_returns fuel) as [Hi _].
  destruct (Hi (encoded ++ rest)) as (item & rem & X).
  { destruct encoded; [congruence|discriminate]. }
  { unfold fuel. lia. }
  rewrite X.
  destruct (fuel_is_enough fuel) as [M _].
  pose proof (M _ _ X (Nat.max f0 fuel) ltac:(lia)) as Y.
  rewrite D0 in Y by lia. now injection Y as -> _.
Qed.

(** The list of "cat" and "dog", followed by one more byte. *)
Lemma decode_encode_round_trip_witness :
  decode ([xc8; x83; x63; x61; x74; x83; x64; x6f; x67] ++ [xff])
    = Some (Return (Items [Bytes [x63; x61; x74]; Bytes [x64; x6f; x67]])).
Proof.
  apply (decode_encode_round_trip
           (Items [Bytes [x63; x61; x74]; Bytes [x64; x6f; x67]])
           [xc8; x83; x63; x61; x74; x83; x64; x6f; x67] [xff]);
    reflexivity.
Defined.

Lemma decode_header_without_length (b : Byte.byte) (data : list Byte.byte) :
  b = xb7 \/ b = xf7 ->
  decode (b :: data)
    = Some (Return (if byte_to_Z b <? 192 then Bytes [] else Items [])).
Proof.
  intros B. unfold decode.
  replace (2 * length (b :: data) + 1)%nat
    with (S (S (2 * length data + 1))) by (cbn [length]; lia).
  assert (I : _decode_int64 [] = Return 0) by reflexivity.
  destruct B as [-> | ->]; cbn [_decode_item].
  - change (byte_to_Z xb7) with 183.
    change (183 <? 192) with true. change (183 <? 128) with false.
    change (183 <? 183) with false. cbv iota.
    change (183 - 183 + 1) with 1. rewrite slice_empty, I.
    change (183 - 183 + 0 + 1) with 1. now rewrite slice_empty.
  - change (byte_to_Z xf7) with 247.
    change (247 <? 192) with false. change (247 <? 247) with false.
    cbv iota. change (247 - 247 + 1) with 1. rewrite slice_empty, I.
    change (247 - 247 + 0 + 1) with 1. now rewrite slice_empty.
Qed.

(** X23.  A payload of exactly 55 bytes does not survive the round trip.
    [encode] still uses the short form for it, with header 0xb7 for a byte
    string and 0xf7 for a list, and [_decode_item] reads these two headers
    as long forms whose length field is empty: decoding the encoding of a
    55-byte string returns the empty bytes, and decoding the encoding of a
    list with a 55-byte payload returns the empty list. *)
Theorem payload_of_55_bytes_is_lost (value : list Byte.byte)
    (items : list Item) (payload : list Byte.byte) :
  len value = 55 ->
  join encode items = Return payload -> len payload = 55 ->
  (encode (Bytes value) = Return (xb7 :: value) /\
   decode (xb7 :: value) = Some (Return (Bytes []))) /\
  (encode (Items items) = Return (xf7 :: payload) /\
   decode (xf7 :: payload) = Some (Return (Items []))).
Proof.
  intros L J P. split; split.
  - cbn [encode]. unfold single_low_byte. rewrite L. reflexivity.
  - now rewrite decode_header_without_length by (left; reflexivity).
  - rewrite encode_Items, J, P. reflexivity.
  - now rewrite decode_header_without_length by (right; reflexivity).
Qed.

(** Fifty-five letters, and the list of fifty-five empty strings. *)
Lemma payload_of_55_bytes_is_lost_witness :
  (encode (Bytes (repeat x41 55)) = Return (xb7 :: repeat x41 55) /\
   decode (xb7 :: repeat x41 55) = Some (Return (Bytes []))) /\
  (encode (Items (repeat (Bytes []) 55)) = Return (xf7 :: repeat x80 55) /\
   decode (xf7 :: repeat x80 55) = Some (Return (Items []))).
Proof.
  apply (payload_of_55_bytes_is_lost (repeat x41 55)
           (repeat (Bytes []) 55) (repeat x80 55)); reflexivity.
Defined.

End Rlp.
